(** * Lab manual HTML post-processor: the interactive checklist

    A shallow embedding of the checklist script of the lab manual's HTML
    export (the current script and its two earlier variants) together with
    the properties its design document states about it.

    The script is browser JavaScript.  Strings are sequences of UTF-16 code
    units, the page is a tree of nodes addressed by child-index paths, the
    signature pad is a bitmap of RGBA pixels, [localStorage] is a finite map
    and the functions of the script are state transformers on a [world].
    What the browser supplies (case mapping, HTML parsing and serialising,
    the clock, image encoding, [JSON]) is collected in the class [Host]. *)

From Stdlib Require Import ZArith NArith Lia Ascii String List.
From Stdlib Require Import Floats DecimalString.
From stdpp Require Import base tactics option list numbers gmap.

#[local] Set Warnings "-register-all".
#[local] Open Scope N_scope.

(** ** JavaScript strings *)

(** A string is the list of its UTF-16 code units. *)
Abbreviation jsstring := (list N).

(** The code units of an ASCII literal of the script. *)
Definition lit (s : string) : jsstring :=
  map N_of_ascii (list_ascii_of_string s).

(** [WhiteSpace] and [LineTerminator] of ECMAScript: what [trim] strips and
    what [\s] matches. *)
Definition isWhiteSpace (c : N) : bool :=
  ((9 <=? c) && (c <=? 13)) || (c =? 32) || (c =? 160) || (c =? 5760)
  || ((8192 <=? c) && (c <=? 8202)) || (c =? 8232) || (c =? 8233)
  || (c =? 8239) || (c =? 8287) || (c =? 12288) || (c =? 65279).

(** [\d] *)
Definition isDigit (c : N) : bool := (48 <=? c) && (c <=? 57).

(** [\.] *)
Definition isDot (c : N) : bool := c =? 46.

(** [[\s,]] *)
Definition isSpaceOrComma (c : N) : bool := isWhiteSpace c || (c =? 44).

Fixpoint dropWhile (p : N -> bool) (s : jsstring) : jsstring :=
  match s with
  | [] => []
  | c :: s' => if p c then dropWhile p s' else s
  end.

Definition dropWhileEnd (p : N -> bool) (s : jsstring) : jsstring :=
  rev (dropWhile p (rev s)).

(** [s.trim()] *)
Definition trim (s : jsstring) : jsstring :=
  dropWhileEnd isWhiteSpace (dropWhile isWhiteSpace s).

Fixpoint startsWith (s sub : jsstring) : bool :=
  match sub, s with
  | [], _ => true
  | _ :: _, [] => false
  | b :: sub', a :: s' => (a =? b) && startsWith s' sub'
  end.

(** [s.includes(sub)] *)
Fixpoint includes (s sub : jsstring) : bool :=
  startsWith s sub ||
  match s with
  | [] => false
  | _ :: s' => includes s' sub
  end.

(** [s.split(sep)] for a separator that matches exactly one code unit of the
    class [p] (a one-character string, a character class or an alternation of
    single characters).  The empty string splits into one empty part. *)
Fixpoint splitOn (p : N -> bool) (s : jsstring) : list jsstring :=
  match s with
  | [] => [[]]
  | c :: s' =>
      if p c then [] :: splitOn p s'
      else match splitOn p s' with
           | [] => [[c]]
           | part :: parts => (c :: part) :: parts
           end
  end.

(** [s.replace(/\s+/g, ' ')]: every maximal run of white space becomes one
    space.  [inRun] tells that the previous code unit was white space. *)
Fixpoint collapseFrom (inRun : bool) (s : jsstring) : jsstring :=
  match s with
  | [] => []
  | c :: s' =>
      if isWhiteSpace c
      then (if inRun then collapseFrom true s' else 32 :: collapseFrom true s')
      else c :: collapseFrom false s'
  end.

Definition collapseWhiteSpace (s : jsstring) : jsstring := collapseFrom false s.

(** [parts.join(sep)] *)
Fixpoint join (sep : jsstring) (parts : list jsstring) : jsstring :=
  match parts with
  | [] => []
  | [x] => x
  | x :: rest => x ++ sep ++ join sep rest
  end.

(** ** Regular expressions

    The patterns of the script that are tested against a whole string are
    kept as syntax and run by Brzozowski derivatives. *)

Inductive regex : Type :=
| Void
| Eps
| Class (p : N -> bool)
| Cat (r1 r2 : regex)
| Alt (r1 r2 : regex)
| Star (r : regex).

(** [r+] and [r{2,}] *)
Definition Plus (r : regex) : regex := Cat r (Star r).
Definition AtLeast2 (r : regex) : regex := Cat r (Cat r (Star r)).

Fixpoint nullable (r : regex) : bool :=
  match r with
  | Void => false
  | Eps => true
  | Class _ => false
  | Cat r1 r2 => nullable r1 && nullable r2
  | Alt r1 r2 => nullable r1 || nullable r2
  | Star _ => true
  end.

Fixpoint deriv (c : N) (r : regex) : regex :=
  match r with
  | Void => Void
  | Eps => Void
  | Class p => if p c then Eps else Void
  | Cat r1 r2 =>
      if nullable r1 then Alt (Cat (deriv c r1) r2) (deriv c r2)
      else Cat (deriv c r1) r2
  | Alt r1 r2 => Alt (deriv c r1) (deriv c r2)
  | Star r' => Cat (deriv c r') (Star r')
  end.

(** [/^r$/.test(s)] *)
Fixpoint test (r : regex) (s : jsstring) : bool :=
  match s with
  | [] => nullable r
  | c :: s' => test (deriv c r) s'
  end.

(** The words of a pattern. *)
Inductive Matches : regex -> jsstring -> Prop :=
| MEps : Matches Eps []
| MClass p c : p c = true -> Matches (Class p) [c]
| MCat r1 r2 s1 s2 :
    Matches r1 s1 -> Matches r2 s2 -> Matches (Cat r1 r2) (s1 ++ s2)
| MAltL r1 r2 s : Matches r1 s -> Matches (Alt r1 r2) s
| MAltR r1 r2 s : Matches r2 s -> Matches (Alt r1 r2) s
| MStarNil r : Matches (Star r) []
| MStarApp r s1 s2 :
    Matches r s1 -> Matches (Star r) s2 -> Matches (Star r) (s1 ++ s2).

(** ** fixEnumerationNumbering, on the text of one [dt] *)

(** [/^\d+(\.\d+){2,}\.*$/] *)
Definition enumerationPattern : regex :=
  Cat (Plus (Class isDigit))
      (Cat (AtLeast2 (Cat (Class isDot) (Plus (Class isDigit))))
           (Star (Class isDot))).

(** [parts[parts.length - 1]] in a string concatenation. *)
Definition lastPart (parts : list jsstring) : jsstring :=
  match last parts with
  | Some x => x
  | None => lit "undefined"
  end.

(** The body of the [forEach] of [fixEnumerationNumbering] as a function of
    [dt.textContent]: the text assigned to [dt.textContent], or [None] when
    the [if] is not entered. *)
Definition fixedEnumerationText (textContent : jsstring) : option jsstring :=
  let text := trim textContent in
  if test enumerationPattern text then
    let parts := splitOn isDot (dropWhileEnd isDot text) in
    let lastNum := lastPart parts in
    Some (lastNum ++ lit ".")
  else None.

(** ** The signature bitmap *)

(** One RGBA pixel; each channel is a byte of the [Uint8ClampedArray] that
    [getImageData] returns. *)
Record pixel : Type := Pixel { red : Z; green : Z; blue : Z; alpha : Z }.

Definition transparent : pixel := Pixel 0 0 0 0.

(** The bitmap of a canvas (or of a decoded image), row by row. *)
Record bitmap : Type :=
  Bitmap { width : nat; height : nat; rows : list (list pixel) }.

(** What assigning [canvas.width] and [canvas.height] leaves. *)
Definition blankBitmap (w h : nat) : bitmap :=
  Bitmap w h (replicate h (replicate w transparent)).

Definition inRect (x y w h : nat) (col row : nat) : bool :=
  (x <=? col)%nat && (col <? x + w)%nat && (y <=? row)%nat && (row <? y + h)%nat.

(** [ctx.clearRect(x, y, w, h)] under the identity transform. *)
Definition clearRect (x y w h : nat) (b : bitmap) : bitmap :=
  Bitmap (width b) (height b)
    (imap (fun row r =>
             imap (fun col px => if inRect x y w h col row then transparent else px) r)
          (rows b)).

Definition pixelAt (b : bitmap) (col row : nat) : pixel :=
  match rows b !! row with
  | Some r => default transparent (r !! col)
  | None => transparent
  end.

Definition pixelBytes (p : pixel) : list Z := [red p; green p; blue p; alpha p].

(** [ctx.getImageData(x, y, w, h).data]: the bytes R, G, B, A of every pixel
    of the rectangle, row by row; outside the bitmap a pixel is transparent
    black. *)
Definition getImageData (x y w h : nat) (b : bitmap) : list Z :=
  flat_map (fun row => flat_map (fun col => pixelBytes (pixelAt b col row)) (seq x w))
           (seq y h).

(** [for (var i = 3; i < pixelData.length; i += 4) if (pixelData[i] > 0) ...]
    of [emailChecklist]; every round moves [i] forward, so [length pixelData]
    rounds are enough. *)
Fixpoint alphaLoop (fuel : nat) (pixelData : list Z) (i : nat) : bool :=
  match fuel with
  | O => false
  | S fuel' =>
      if (i <? length pixelData)%nat then
        if (default 0 (pixelData !! i) >? 0)%Z then true
        else alphaLoop fuel' pixelData (i + 4)
      else false
  end.

(** The value of [hasSignature] after that loop. *)
Definition hasSignature (b : bitmap) : bool :=
  let pixelData := getImageData 0 0 (width b) (height b) b in
  alphaLoop (length pixelData) pixelData 3.

(** ** The document *)

(** The functions of the script that it binds to events. *)
Inductive handler : Type :=
| ToggleCompleted   (* the change listener of a checklist checkbox *)
| SaveChecklistState
| ClearSignature
| EmailChecklist
| StartDrawing
| Draw
| StopDrawing
| TouchStart
| TouchMove
| TouchEnd.

(** The properties of an element that the script reads or writes. *)
Record attrs : Type := Attrs {
  tagName : jsstring;
  eid : jsstring;                 (* id *)
  classList : list jsstring;      (* className, token by token *)
  styleDisplay : jsstring;        (* style.display *)
  inputType : jsstring;           (* type *)
  ename : jsstring;               (* name *)
  htmlFor : jsstring;
  checked : bool;
  value : jsstring;
  listeners : list (jsstring * handler);
  canvas : option bitmap          (* the bitmap of a canvas element *)
}.

Inductive node : Type :=
| TextNode (data : jsstring)
| CommentNode (data : jsstring)
| Element (a : attrs) (childNodes : list node).

(** [document.createElement(tag)] *)
Definition createElement (tag : jsstring) : attrs :=
  Attrs tag [] [] [] [] [] [] false [] [] None.

Definition withId (i : jsstring) (a : attrs) : attrs :=
  Attrs (tagName a) i (classList a) (styleDisplay a) (inputType a) (ename a)
        (htmlFor a) (checked a) (value a) (listeners a) (canvas a).
Definition withClassName (c : list jsstring) (a : attrs) : attrs :=
  Attrs (tagName a) (eid a) c (styleDisplay a) (inputType a) (ename a)
        (htmlFor a) (checked a) (value a) (listeners a) (canvas a).
Definition withDisplay (d : jsstring) (a : attrs) : attrs :=
  Attrs (tagName a) (eid a) (classList a) d (inputType a) (ename a)
        (htmlFor a) (checked a) (value a) (listeners a) (canvas a).
Definition withType (t : jsstring) (a : attrs) : attrs :=
  Attrs (tagName a) (eid a) (classList a) (styleDisplay a) t (ename a)
        (htmlFor a) (checked a) (value a) (listeners a) (canvas a).
Definition withName (n : jsstring) (a : attrs) : attrs :=
  Attrs (tagName a) (eid a) (classList a) (styleDisplay a) (inputType a) n
        (htmlFor a) (checked a) (value a) (listeners a) (canvas a).
Definition withHtmlFor (f : jsstring) (a : attrs) : attrs :=
  Attrs (tagName a) (eid a) (classList a) (styleDisplay a) (inputType a) (ename a)
        f (checked a) (value a) (listeners a) (canvas a).
Definition withChecked (b : bool) (a : attrs) : attrs :=
  Attrs (tagName a) (eid a) (classList a) (styleDisplay a) (inputType a) (ename a)
        (htmlFor a) b (value a) (listeners a) (canvas a).
Definition withValue (v : jsstring) (a : attrs) : attrs :=
  Attrs (tagName a) (eid a) (classList a) (styleDisplay a) (inputType a) (ename a)
        (htmlFor a) (checked a) v (listeners a) (canvas a).
Definition withCanvas (b : option bitmap) (a : attrs) : attrs :=
  Attrs (tagName a) (eid a) (classList a) (styleDisplay a) (inputType a) (ename a)
        (htmlFor a) (checked a) (value a) (listeners a) b.

(** [el.addEventListener(type, h)] and [el.onclick = h] *)
Definition addEventListener (type : jsstring) (h : handler) (a : attrs) : attrs :=
  Attrs (tagName a) (eid a) (classList a) (styleDisplay a) (inputType a) (ename a)
        (htmlFor a) (checked a) (value a) (listeners a ++ [(type, h)]) (canvas a).

Definition jsEqb (s t : jsstring) : bool := bool_decide (s = t).

Definition hasClass (c : jsstring) (a : attrs) : bool :=
  existsb (jsEqb c) (classList a).

(** [el.classList.add(c)] *)
Definition classListAdd (c : jsstring) (a : attrs) : attrs :=
  if hasClass c a then a else withClassName (classList a ++ [c]) a.

(** The text of the text nodes below a node, in document order. *)
Fixpoint descendantText (n : node) : jsstring :=
  match n with
  | TextNode d => d
  | CommentNode _ => []
  | Element _ cs => flat_map descendantText cs
  end.

(** [node.textContent] *)
Definition textContent (n : node) : jsstring :=
  match n with
  | CommentNode d => d
  | _ => descendantText n
  end.

(** [el.textContent = s] replaces the children by one text node (by none for
    the empty string). *)
Definition setTextContent (s : jsstring) : list node :=
  match s with
  | [] => []
  | _ => [TextNode s]
  end.

(** A node is addressed by the child indexes that lead to it from the root. *)
Abbreviation path := (list nat).

Fixpoint lookupNode (p : path) (n : node) : option node :=
  match p with
  | [] => Some n
  | i :: p' =>
      match n with
      | Element _ cs =>
          match cs !! i with
          | Some c => lookupNode p' c
          | None => None
          end
      | _ => None
      end
  end.

Fixpoint updateNode (p : path) (f : node -> node) (n : node) : node :=
  match p with
  | [] => f n
  | i :: p' =>
      match n with
      | Element a cs => Element a (alter (updateNode p' f) i cs)
      | _ => n
      end
  end.

Definition nodeAttrs (n : node) : option attrs :=
  match n with
  | Element a _ => Some a
  | _ => None
  end.

Definition attrsAt (doc : node) (p : path) : option attrs :=
  match lookupNode p doc with
  | Some n => nodeAttrs n
  | None => None
  end.

(** A change of the properties of the element at [p]. *)
Definition onAttrs (f : attrs -> attrs) (n : node) : node :=
  match n with
  | Element a cs => Element (f a) cs
  | _ => n
  end.

Definition updateAttrs (p : path) (f : attrs -> attrs) (doc : node) : node :=
  updateNode p (onAttrs f) doc.

(** The paths below the children [l], the first of which has index [i]. *)
Definition childPaths (f : node -> list path) : nat -> list node -> list path :=
  fix go (i : nat) (l : list node) : list path :=
    match l with
    | [] => []
    | c :: l' => map (cons i) (f c) ++ go (S i) l'
    end.

(** All nodes in document order. *)
Fixpoint paths (n : node) : list path :=
  [] :: match n with
        | Element _ cs => childPaths paths 0 cs
        | _ => []
        end.

(** [p.slice(0, k)] for every [k < p.length]: the ancestors of the node at
    [p], outermost first. *)
Definition ancestorPaths (p : path) : list path :=
  map (fun k => take k p) (seq 0 (length p)).

Definition parentPath (p : path) : option (path * nat) :=
  match rev p with
  | [] => None
  | i :: q => Some (rev q, i)
  end.

Definition hasTag (tag : jsstring) (doc : node) (p : path) : bool :=
  match attrsAt doc p with
  | Some a => jsEqb (tagName a) tag
  | None => false
  end.

(** [document.querySelectorAll(tag)] for a type selector; an HTML element
    reports its tag name in upper case. *)
Definition querySelectorAllTag (tag : jsstring) (doc : node) : list path :=
  List.filter (hasTag tag doc) (paths doc).

(** The selector ['.interactive-checklist input[type="checkbox"]']. *)
Definition isChecklistCheckbox (doc : node) (p : path) : bool :=
  match attrsAt doc p with
  | Some a =>
      jsEqb (tagName a) (lit "INPUT") && jsEqb (inputType a) (lit "checkbox")
      && existsb (fun q => match attrsAt doc q with
                           | Some b => hasClass (lit "interactive-checklist") b
                           | None => false
                           end) (ancestorPaths p)
  | None => false
  end.

Definition checklistCheckboxes (doc : node) : list path :=
  List.filter (isChecklistCheckbox doc) (paths doc).

(** The selector ['.interactive-checklist label']. *)
Definition isChecklistLabel (doc : node) (p : path) : bool :=
  match attrsAt doc p with
  | Some a =>
      jsEqb (tagName a) (lit "LABEL")
      && existsb (fun q => match attrsAt doc q with
                           | Some b => hasClass (lit "interactive-checklist") b
                           | None => false
                           end) (ancestorPaths p)
  | None => false
  end.

Definition hasId (i : jsstring) (doc : node) (p : path) : bool :=
  match attrsAt doc p with
  | Some a => jsEqb (eid a) i
  | None => false
  end.

(** The elements with the id [i], in document order. *)
Definition elementsWithId (i : jsstring) (doc : node) : list path :=
  List.filter (hasId i doc) (paths doc).

(** [document.getElementById(i)]: the first element with that id. *)
Definition getElementById (i : jsstring) (doc : node) : option path :=
  head (elementsWithId i doc).

(** ** The date field

    The date field is an [<input type="date">]: assigning its [value] keeps a
    valid date string (YYYY-MM-DD, as [toISOString] writes it) and turns
    anything else into the empty string. *)

Definition digitsValue (s : jsstring) : N :=
  fold_left (fun acc c => 10 * acc + (c - 48)) s 0.

Definition isLeapYear (y : N) : bool :=
  ((y mod 4 =? 0) && negb (y mod 100 =? 0)) || (y mod 400 =? 0).

Definition daysInMonth (y m : N) : N :=
  if m =? 2 then (if isLeapYear y then 29 else 28)
  else if (m =? 4) || (m =? 6) || (m =? 9) || (m =? 11) then 30
  else 31.

Definition isValidDateString (s : jsstring) : bool :=
  match splitOn (N.eqb 45) s with
  | [y; m; d] =>
      forallb isDigit y && (4 <=? length y)%nat && (0 <? digitsValue y)
      && forallb isDigit m && (length m =? 2)%nat
      && (1 <=? digitsValue m) && (digitsValue m <=? 12)
      && forallb isDigit d && (length d =? 2)%nat
      && (1 <=? digitsValue d)
      && (digitsValue d <=? daysInMonth (digitsValue y) (digitsValue m))
  | _ => false
  end.

(** [input.value = v] *)
Definition setValue (v : jsstring) (a : attrs) : attrs :=
  if jsEqb (inputType a) (lit "date")
  then withValue (if isValidDateString v then v else []) a
  else withValue v a.

(** ** JavaScript values, as [JSON.parse] returns them *)

Inductive jsval : Type :=
| JUndefined
| JNull
| JBool (b : bool)
| JNum (x : float)
| JStr (s : jsstring)
| JArr (items : list jsval)
| JObj (props : list (jsstring * jsval)).

(** [ToBoolean] *)
Definition truthy (v : jsval) : bool :=
  match v with
  | JUndefined | JNull => false
  | JBool b => b
  | JNum x => negb (PrimFloat.eqb x PrimFloat.zero || PrimFloat.is_nan x)
  | JStr s => match s with [] => false | _ => true end
  | JArr _ | JObj _ => true
  end.

Fixpoint assoc (key : jsstring) (props : list (jsstring * jsval)) : option jsval :=
  match props with
  | [] => None
  | (k, v) :: props' => if jsEqb k key then Some v else assoc key props'
  end.

(** [v.key] for a key that no built-in prototype defines ([checkboxes],
    [date] and [signature] are such keys); [None] is the [TypeError] of
    reading a property of [null] or [undefined]. *)
Definition getProperty (v : jsval) (key : jsstring) : option jsval :=
  match v with
  | JUndefined | JNull => None
  | JObj props => Some (default JUndefined (assoc key props))
  | _ => Some JUndefined
  end.

(** The decimal digits of an array index. *)
Definition indexKey (i : nat) : jsstring :=
  lit (NilZero.string_of_uint (Nat.to_uint i)).

(** [v[i]] for an array index [i]. *)
Definition getIndex (v : jsval) (i : nat) : option jsval :=
  match v with
  | JUndefined | JNull => None
  | JArr items => Some (default JUndefined (items !! i))
  | JStr s => Some (match s !! i with Some c => JStr [c] | None => JUndefined end)
  | JObj props => Some (default JUndefined (assoc (indexKey i) props))
  | _ => Some JUndefined
  end.

(** ** What the browser supplies *)

Class Host : Type := {
  (** [String.prototype.toLowerCase] and [toUpperCase] *)
  toLowerCase : jsstring -> jsstring;
  toUpperCase : jsstring -> jsstring;
  (** the HTML fragment parser behind [el.innerHTML = s] and the serialiser
      behind reading [el.innerHTML] *)
  parseFragment : jsstring -> list node;
  serializeFragment : list node -> jsstring;
  (** [new Date().toISOString().split('T')[0]] *)
  today : jsstring;
  (** [canvas.toDataURL()], and the decoding of an image source ([None]: the
      image does not load) *)
  toDataURL : bitmap -> jsstring;
  decodeImage : jsstring -> option bitmap;
  (** source-over compositing of a source pixel over a destination pixel *)
  sourceOver : pixel -> pixel -> pixel;
  JSON_stringify : jsval -> jsstring;
  (** [None]: [JSON.parse] throws a [SyntaxError] *)
  JSON_parse : jsstring -> option jsval;
  (** [ToString] of a value that is not a string; [None]: it throws *)
  valueToString : jsval -> option jsstring
}.

(** [ToString], as an assignment to a DOM string property applies it. *)
Definition toDOMString `{Host} (v : jsval) : option jsstring :=
  match v with
  | JStr s => Some s
  | _ => valueToString v
  end.

(** [ctx.drawImage(img, 0, 0)] under the default compositing. *)
Definition drawImage `{Host} (img : bitmap) (b : bitmap) : bitmap :=
  Bitmap (width b) (height b)
    (imap (fun row r =>
             imap (fun col px =>
                     if inRect 0 0 (width img) (height img) col row
                     then sourceOver (pixelAt img col row) px else px) r)
          (rows b)).

(** ** The state of the page *)

(** What the user or the platform gets to see. *)
Inductive effect : Type :=
| Alert (message : jsstring)
| LoadScript (src : jsstring) (dateValue : jsstring)
| Download (filename : jsstring)
| MailTo (subject body : jsstring)
| PrintPrompt.

(** Callbacks that run later. *)
Inductive task : Type :=
| ImageLoad (src : jsstring)                 (* img.onload of loadChecklistState *)
| Timeout (ms : nat) (then_ : effect).

(** The 2D context held in [signatureCtx]. *)
Record context2d : Type := Context2d {
  ctxCanvas : path;
  strokeStyle : jsstring;
  lineWidth : nat;
  lineCap : jsstring;
  lineJoin : jsstring
}.

Record world : Type := World {
  document : node;
  signatureCanvas : option path;        (* var signatureCanvas *)
  signatureCtx : option context2d;      (* var signatureCtx *)
  isDrawing : bool;                     (* var isDrawing *)
  (** [None]: reading or writing [localStorage] throws *)
  localStorage : option (gmap jsstring jsstring);
  jsPDFLoaded : bool;                   (* window.jspdf or jsPDF is defined *)
  tasks : list task;
  log : list effect
}.

Definition withDocument (d : node) (w : world) : world :=
  World d (signatureCanvas w) (signatureCtx w) (isDrawing w) (localStorage w)
        (jsPDFLoaded w) (tasks w) (log w).
Definition withSignatureCanvas (c : option path) (w : world) : world :=
  World (document w) c (signatureCtx w) (isDrawing w) (localStorage w)
        (jsPDFLoaded w) (tasks w) (log w).
Definition withSignatureCtx (c : option context2d) (w : world) : world :=
  World (document w) (signatureCanvas w) c (isDrawing w) (localStorage w)
        (jsPDFLoaded w) (tasks w) (log w).
Definition withLocalStorage (s : option (gmap jsstring jsstring)) (w : world) : world :=
  World (document w) (signatureCanvas w) (signatureCtx w) (isDrawing w) s
        (jsPDFLoaded w) (tasks w) (log w).
Definition addTask (t : task) (w : world) : world :=
  World (document w) (signatureCanvas w) (signatureCtx w) (isDrawing w)
        (localStorage w) (jsPDFLoaded w) (tasks w ++ [t]) (log w).
Definition emit (e : effect) (w : world) : world :=
  World (document w) (signatureCanvas w) (signatureCtx w) (isDrawing w)
        (localStorage w) (jsPDFLoaded w) (tasks w) (log w ++ [e]).

(** [alert(message)] *)
Definition alert (message : jsstring) (w : world) : world := emit (Alert message) w.

(** The bitmap of the canvas that [signatureCanvas] refers to. *)
Definition canvasAt (doc : node) (p : path) : option bitmap :=
  match attrsAt doc p with
  | Some a => canvas a
  | None => None
  end.

Definition signatureBitmap (w : world) : option bitmap :=
  match signatureCanvas w with
  | Some p => canvasAt (document w) p
  | None => None
  end.

(** What the form shows: the [checked] flags of the checklist checkboxes in
    document order, and the value of the date field. *)
Definition checkedAt (doc : node) (p : path) : bool :=
  match attrsAt doc p with
  | Some a => checked a
  | None => false
  end.

Definition checkboxStates (doc : node) : list bool :=
  map (checkedAt doc) (checklistCheckboxes doc).

Definition valueAt (doc : node) (p : path) : jsstring :=
  match attrsAt doc p with
  | Some a => value a
  | None => []
  end.

(** [document.getElementById('signature-date')?.value || ''] *)
Definition dateFieldValue (doc : node) : jsstring :=
  match getElementById (lit "signature-date") doc with
  | Some p => valueAt doc p
  | None => []
  end.

Definition withTasks (ts : list task) (w : world) : world :=
  World (document w) (signatureCanvas w) (signatureCtx w) (isDrawing w)
        (localStorage w) (jsPDFLoaded w) ts (log w).

(** How a call ends: it returns, or an exception leaves it. *)
Inductive outcome : Type :=
| Returned (w : world)
| Thrown (w : world).

(** ** The functions shared by the three versions of the script *)

Section Script.
Context `{Host}.

(** *** fixEnumerationNumbering *)

Definition textContentAt (doc : node) (p : path) : jsstring :=
  match lookupNode p doc with
  | Some n => textContent n
  | None => []
  end.

(** The body of the [forEach] for one [dt]. *)
Definition fixDt (dt : node) : node :=
  match dt with
  | Element a cs =>
      match fixedEnumerationText (textContent dt) with
      | Some text => Element a (setTextContent text)
      | None => dt
      end
  | _ => dt
  end.

(** The [dt] elements are collected first; one that an earlier assignment has
    removed from the page is no longer reached by its path, and changing it
    would not show in the page either. *)
Definition fixEnumerationNumbering (w : world) : world :=
  let dts := querySelectorAllTag (lit "DT") (document w) in
  withDocument
    (fold_left (fun doc dt => if hasTag (lit "DT") doc dt then updateNode dt fixDt doc else doc)
               dts (document w))
    w.

(** *** initSignatureCanvas *)

Definition canvasListeners : list (jsstring * handler) :=
  [ (lit "mousedown", StartDrawing); (lit "mousemove", Draw);
    (lit "mouseup", StopDrawing); (lit "mouseout", StopDrawing);
    (lit "touchstart", TouchStart); (lit "touchmove", TouchMove);
    (lit "touchend", TouchEnd) ].

Definition initSignatureCanvas (w : world) : outcome :=
  let w1 := withSignatureCanvas (getElementById (lit "signature-canvas") (document w)) w in
  match signatureCanvas w1 with
  | None => Returned w1
  | Some p =>
      match canvasAt (document w1) p with
      | None => Thrown w1     (* getContext is not a function *)
      | Some _ =>
          let ctx := Context2d p (lit "#000") 2 (lit "round") (lit "round") in
          let addAll a := fold_left (fun a l => addEventListener (fst l) (snd l) a)
                                    canvasListeners a in
          Returned (withDocument (updateAttrs p addAll (document w1))
                                 (withSignatureCtx (Some ctx) w1))
      end
  end.

(** *** saveChecklistState *)

Definition storageKey : jsstring := lit "labManualChecklist".

(** The object that [saveChecklistState] builds. *)
Definition formState (checkboxes : list bool) (date signature : jsstring) : jsval :=
  JObj [ (lit "checkboxes", JArr (map JBool checkboxes));
         (lit "date", JStr date);
         (lit "signature", JStr signature) ].

Definition saveChecklistState (w : world) : world :=
  let signature :=
    match signatureCanvas w with
    | None => Some []
    | Some p => option_map toDataURL (canvasAt (document w) p)
    end in
  match signature with
  | None => w                (* toDataURL is not a function *)
  | Some signature =>
      let state := formState (checkboxStates (document w))
                             (dateFieldValue (document w)) signature in
      match localStorage w with
      | Some store =>
          withLocalStorage (Some (<[storageKey := JSON_stringify state]> store)) w
      | None => w            (* caught: localStorage not available *)
      end
  end.

(** *** clearSignature *)

Definition clearSignature (w : world) : world :=
  match signatureCtx w with
  | None => w
  | Some ctx =>
      match signatureBitmap w with
      | None => w
      | Some size =>
          let clear a :=
            withCanvas (option_map (clearRect 0 0 (width size) (height size)) (canvas a)) a in
          saveChecklistState
            (withDocument (updateAttrs (ctxCanvas ctx) clear (document w)) w)
      end
  end.

(** *** loadChecklistState *)

(** The body of the [forEach] over the checkboxes. *)
Definition restoreCheckbox (checkboxes : jsval) (index : nat) (cb : path)
    (doc : node) : node :=
  if truthy checkboxes && truthy (default JUndefined (getIndex checkboxes index)) then
    let doc' := updateAttrs cb (withChecked true) doc in
    match parentPath cb with
    | Some (parent, _) => updateAttrs parent (classListAdd (lit "completed")) doc'
    | None => doc'
    end
  else doc.

Fixpoint restoreCheckboxes (checkboxes : jsval) (index : nat) (cbs : list path)
    (doc : node) : node :=
  match cbs with
  | [] => doc
  | cb :: cbs' =>
      restoreCheckboxes checkboxes (S index) cbs' (restoreCheckbox checkboxes index cb doc)
  end.

(** [if (state.date) { ... dateInput.value = state.date }]; [None] when the
    conversion of the value to a string throws. *)
Definition restoreDate (date : jsval) (doc : node) : option node :=
  if truthy date then
    match getElementById (lit "signature-date") doc with
    | Some dateInput =>
        match toDOMString date with
        | Some s => Some (updateAttrs dateInput (setValue s) doc)
        | None => None
        end
    | None => Some doc
    end
  else Some doc.

(** Everything runs inside [try], so an exception ends the function with
    what has been changed so far.  Reading a property of [state] throws only
    when [state] is [null], and then does so before anything is changed. *)
Definition loadChecklistState (w : world) : world :=
  match localStorage w with
  | None => w
  | Some store =>
      match store !! storageKey with
      | None => w
      | Some [] => w
      | Some saved =>
          match JSON_parse saved with
          | None => w
          | Some state =>
              match getProperty state (lit "checkboxes"),
                    getProperty state (lit "date"),
                    getProperty state (lit "signature") with
              | Some checkboxes, Some date, Some signature =>
                  let doc1 := restoreCheckboxes checkboxes 0
                                (checklistCheckboxes (document w)) (document w) in
                  match restoreDate date doc1 with
                  | None => withDocument doc1 w
                  | Some doc2 =>
                      let w2 := withDocument doc2 w in
                      match signatureCanvas w with
                      | Some _ =>
                          if truthy signature then
                            match toDOMString signature with
                            | Some src => addTask (ImageLoad src) w2
                            | None => w2
                            end
                          else w2
                      | None => w2
                      end
                  end
              | _, _, _ => w
              end
          end
      end
  end.

(** A queued callback runs.  [img.onload] draws the decoded image with
    [signatureCtx.drawImage(img, 0, 0)]. *)
Definition runTask (t : task) (w : world) : world :=
  match t with
  | ImageLoad src =>
      match decodeImage src, signatureCtx w with
      | Some img, Some ctx =>
          let draw a := withCanvas (option_map (drawImage img) (canvas a)) a in
          withDocument (updateAttrs (ctxCanvas ctx) draw (document w)) w
      | _, _ => w
      end
  | Timeout _ e => emit e w
  end.

Definition runTasks (w : world) : world :=
  fold_left (fun w t => runTask t w) (tasks w) (withTasks [] w).

(** *** The checks of emailChecklist *)

Definition msgCheckAll : jsstring := lit "Please check all items before submitting.".
Definition msgSignature : jsstring := lit "Please add your signature before submitting.".
Definition msgDate : jsstring := lit "Please enter the date before submitting.".

Definition mailSubject : jsstring := lit "Lab Manual Checklist - Completed".

Definition printInstructions (dateValue : jsstring) : jsstring :=
  lit "I have completed the Lab Manual checklist and attached a PDF of the signed checklist page."
  ++ [10; 10] ++ lit "Date: " ++ dateValue ++ [10; 10]
  ++ lit "To generate a PDF:" ++ [10]
  ++ lit "1. Print this page (Ctrl/Cmd + P)" ++ [10]
  ++ lit "2. Select " ++ [34] ++ lit "Save as PDF" ++ [34] ++ lit " as the destination" ++ [10]
  ++ lit "3. Save and attach to this email" ++ [10; 10]
  ++ lit "Alternatively, you can take a screenshot of the completed checklist.".

(** The three checks, common to every version of [emailChecklist];
    [proceed] is what follows them. *)
Definition emailChecklistWith (proceed : jsstring -> world -> world) (w : world) : world :=
  let doc := document w in
  let allChecked := forallb (checkedAt doc) (checklistCheckboxes doc) in
  if negb allChecked then alert msgCheckAll w
  else
    let checkDate (w : world) :=
      match getElementById (lit "signature-date") doc with
      | Some dateInput =>
          match valueAt doc dateInput with
          | [] => alert msgDate w
          | dateValue => proceed dateValue w
          end
      | None => alert msgDate w
      end in
    match signatureCanvas w with
    | Some p =>
        match canvasAt doc p with
        | Some b => if negb (hasSignature b) then alert msgSignature w else checkDate w
        | None => w         (* getContext is not a function *)
        end
    | None => checkDate w
    end.

End Script.

(** ** Building the interactive checklist *)

Section Builder.
Context `{Host}.

(** The test of the [forEach] over the [h2] headings. *)
Definition isChecklistHeading (doc : node) (h : path) : bool :=
  includes (toLowerCase (textContentAt doc h)) (lit "checklist")
  && includes (toLowerCase (textContentAt doc h)) (lit "signature").

(** The value of [checklistHeading] after that [forEach]. *)
Definition findChecklistHeading (doc : node) : option path :=
  fold_left (fun checklistHeading h =>
               if isChecklistHeading doc h then Some h else checklistHeading)
            (querySelectorAllTag (lit "H2") doc) None.

Definition introText : jsstring :=
  lit "By signing below, I certify that I have completed the following tasks:".

(** The body of [items.forEach]: one checkbox with its label. *)
Definition checklistItem (index : nat) (itemText : jsstring) : node :=
  let itemId := lit "checklist-item-" ++ indexKey index in
  let checkbox :=
    addEventListener (lit "change") ToggleCompleted
      (withName itemId (withId itemId
         (withType (lit "checkbox") (createElement (lit "INPUT"))))) in
  let label := withHtmlFor itemId (createElement (lit "LABEL")) in
  Element (withClassName [lit "checklist-item"] (createElement (lit "DIV")))
          [ Element checkbox []; Element label (parseFragment itemText) ].

Definition signatureSection : node :=
  let canvasEl :=
    withCanvas (Some (blankBitmap 400 150))
      (withClassName [lit "signature-canvas"]
         (withId (lit "signature-canvas") (createElement (lit "CANVAS")))) in
  let clearBtn :=
    addEventListener (lit "click") ClearSignature
      (withClassName [lit "clear-signature-btn"]
         (withType (lit "button") (createElement (lit "BUTTON")))) in
  let canvasContainer :=
    Element (withClassName [lit "signature-canvas-container"] (createElement (lit "DIV")))
      [ Element (createElement (lit "LABEL"))
                (setTextContent (lit "Sign below (draw your signature):"));
        Element canvasEl [];
        Element (createElement (lit "BR")) [];
        Element clearBtn (setTextContent (lit "Clear Signature")) ] in
  let dateInput :=
    addEventListener (lit "change") SaveChecklistState
      (setValue today
         (withName (lit "signature-date") (withId (lit "signature-date")
            (withType (lit "date") (createElement (lit "INPUT")))))) in
  let dateField :=
    Element (withClassName [lit "signature-field"] (createElement (lit "DIV")))
      [ Element (withHtmlFor (lit "signature-date") (createElement (lit "LABEL")))
                [TextNode (lit "Date:")];
        Element dateInput [] ] in
  let emailBtn :=
    addEventListener (lit "click") EmailChecklist
      (withClassName [lit "email-checklist-btn"]
         (withType (lit "button") (createElement (lit "BUTTON")))) in
  Element (withClassName [lit "signature-section"] (createElement (lit "DIV")))
    [ Element (createElement (lit "H3")) [TextNode (lit "Signature")];
      canvasContainer;
      dateField;
      Element emailBtn
        (setTextContent (lit "Email Completed Checklist to contextualdynamics@gmail.com")) ].

(** The container, as the three versions build it. *)
Definition buildContainer (items : list jsstring) : node :=
  Element (withId (lit "interactive-checklist")
             (withClassName [lit "interactive-checklist"] (createElement (lit "DIV"))))
    (Element (createElement (lit "P")) (setTextContent introText)
     :: imap checklistItem items ++ [signatureSection]).

Definition isElementWithTag (tag : jsstring) (n : node) : bool :=
  match n with
  | Element a _ => jsEqb (tagName a) tag
  | _ => false
  end.

(** [node.style.display = 'none'] *)
Definition hideElement (n : node) : node := onAttrs (withDisplay (lit "none")) n.

(** The body of [nodesToHide.forEach]: an element is hidden, a text node
    that is not blank is wrapped in a hidden [span]. *)
Definition hideNode (n : node) : node :=
  match n with
  | Element _ _ => hideElement n
  | TextNode d =>
      match trim d with
      | [] => n
      | _ => Element (withDisplay (lit "none") (createElement (lit "SPAN"))) [n]
      end
  | CommentNode _ => n
  end.

(** The tail shared by the three versions: [initSignatureCanvas()] and
    [loadChecklistState()] on the changed page. *)
Definition finishConversion (doc : node) (w : world) : world :=
  match initSignatureCanvas (withDocument doc w) with
  | Returned w' => loadChecklistState w'
  | Thrown w' => w'
  end.

(** [/^[\s,]+/] and [/[\s,]+$/] removed from the trimmed part. *)
Definition cleanPart (part : jsstring) : jsstring :=
  dropWhileEnd isSpaceOrComma (dropWhile isSpaceOrComma (trim part)).

(** [parts.forEach] of the two splitting versions: the first part is
    skipped, and a cleaned part longer than [minLength] is an item. *)
Definition itemsOfParts (minLength : nat) (parts : list jsstring) : list jsstring :=
  List.filter (fun cleanText => (minLength <? length cleanText)%nat)
              (map cleanPart (tail parts)).

End Builder.

(** *** The current script: items lie between checkbox elements *)

Module Current.
Section Current.
Context `{Host}.

(** The sibling walk: the nodes up to a [TABLE] or an [H2], and the
    siblings from that element on. *)
Fixpoint collectSiblings (siblings : list node) : list node * list node :=
  match siblings with
  | [] => ([], [])
  | sibling :: more =>
      if isElementWithTag (lit "TABLE") sibling || isElementWithTag (lit "H2") sibling
      then ([], siblings)
      else let '(nodesToHide, rest) := collectSiblings more in
           (sibling :: nodesToHide, rest)
  end.

Definition isCheckbox (n : node) : bool :=
  match n with
  | Element a _ =>
      jsEqb (toUpperCase (tagName a)) (lit "MJX-CONTAINER")
      || jsEqb (toUpperCase (tagName a)) (lit "MATH")
  | _ => false
  end.

Record walk : Type := Walk {
  items : list jsstring;
  currentItem : jsstring;
  foundFirstCheckbox : bool
}.

(** [if (... currentItem.trim().length > 15) items.push(currentItem.trim())] *)
Definition pushItem (currentItem : jsstring) (items : list jsstring) : list jsstring :=
  if (15 <? length (trim currentItem))%nat then items ++ [trim currentItem] else items.

(** The body of the first [nodesToHide.forEach]. *)
Definition walkStep (st : walk) (n : node) : walk :=
  if isCheckbox n then
    Walk (if foundFirstCheckbox st then pushItem (currentItem st) (items st) else items st)
         [] true
  else if foundFirstCheckbox st then
    match n with
    | TextNode d => Walk (items st) (currentItem st ++ d) true
    | Element a _ =>
        if jsEqb (tagName a) (lit "DIV") then st
        else Walk (items st) (currentItem st ++ textContent n) true
    | CommentNode _ => st
    end
  else st.

Definition extractItems (nodesToHide : list node) : list jsstring :=
  let st := fold_left walkStep nodesToHide (Walk [] [] false) in
  map (fun item => trim (collapseWhiteSpace item))
      (pushItem (currentItem st) (items st)).

Definition hideSignatureTable (rest : list node) : list node :=
  match rest with
  | n :: more => if isElementWithTag (lit "TABLE") n then hideElement n :: more else rest
  | [] => rest
  end.

Definition convertChecklistToInteractive (w : world) : world :=
  let doc := document w in
  match findChecklistHeading doc with
  | None => w
  | Some checklistHeading =>
      match parentPath checklistHeading with
      | None => w                    (* the heading has no sibling: no item *)
      | Some (parent, i) =>
          match lookupNode parent doc with
          | Some (Element a cs) =>
              let '(nodesToHide, rest) := collectSiblings (drop (S i) cs) in
              match extractItems nodesToHide with
              | [] => w
              | items =>
                  let container := buildContainer items in
                  let cs' := take (S i) cs ++ container :: map hideNode nodesToHide
                             ++ hideSignatureTable rest in
                  finishConversion (updateNode parent (fun _ => Element a cs') doc) w
              end
          | _ => w
          end
      end
  end.

(** [createPDF]: the PDF is saved under its file name and the mail link is
    opened half a second later.  The layout of the pages is not modelled. *)
Definition createPDF (dateValue : jsstring) (w : world) : world :=
  let body :=
    lit "I have completed the Lab Manual checklist." ++ [10; 10]
    ++ lit "Date: " ++ dateValue ++ [10; 10]
    ++ lit "Please find the signed checklist PDF attached to this email." ++ [10]
    ++ lit "(The PDF was just downloaded to your computer - please attach it to this email.)"
    ++ [10; 10] ++ lit "Thank you!" in
  addTask (Timeout 500 (MailTo mailSubject body))
          (emit (Download (lit "lab-manual-checklist-" ++ dateValue ++ lit ".pdf")) w).

Definition fallbackToPrint (dateValue : jsstring) (w : world) : world :=
  addTask (Timeout 500 PrintPrompt) (emit (MailTo mailSubject (printInstructions dateValue)) w).

(** When the library is missing, a script element is added to the page head
    and [createPDF] waits for it. *)
Definition generateChecklistPDF (dateValue : jsstring) (w : world) : world :=
  if jsPDFLoaded w then createPDF dateValue w
  else emit (LoadScript (lit "https://cdnjs.cloudflare.com/ajax/libs/jspdf/2.5.1/jspdf.umd.min.js")
                        dateValue) w.

Definition emailChecklist (w : world) : world :=
  emailChecklistWith generateChecklistPDF w.

End Current.
End Current.

(** *** The two earlier versions: items are split out of a text *)

(** U+2610 ballot box, U+2611 ballot box with check, U+2612 ballot box with
    X, U+25A1 white square. *)
Definition ballotBox : N := 9744.
Definition ballotBoxChecked : N := 9745.
Definition ballotBoxCrossed : N := 9746.
Definition whiteSquare : N := 9633.

(** The four glyphs of the checkbox family. *)
Definition isCheckboxGlyph (c : N) : bool :=
  (c =? ballotBox) || (c =? ballotBoxChecked) || (c =? ballotBoxCrossed)
  || (c =? whiteSquare).

Fixpoint findIndexFrom (p : node -> bool) (i : nat) (l : list node) : option nat :=
  match l with
  | [] => None
  | n :: l' => if p n then Some i else findIndexFrom p (S i) l'
  end.

Section Earlier.
Context `{Host}.

(** The tail of the earlier [emailChecklist]: the mail link at once, the
    print prompt half a second later. *)
Definition mailAndPrint (dateValue : jsstring) (w : world) : world :=
  addTask (Timeout 500 PrintPrompt) (emit (MailTo mailSubject (printInstructions dateValue)) w).

End Earlier.

(** The version that splits the markup of one paragraph. *)
Module ParagraphVariant.
Section ParagraphVariant.
Context `{Host}.

(** The test of the [while] over [nextElementSibling]. *)
Definition isChecklistParagraph (sibling : node) : bool :=
  match sibling with
  | Element _ _ =>
      match textContent sibling with
      | [] => false
      | text => includes text [ballotBox] || includes text [whiteSquare]
      end
  | _ => false
  end.

(** [/☐|☑|☒|□/] *)
Definition separator (c : N) : bool :=
  (c =? 9744) || (c =? 9745) || (c =? 9746) || (c =? 9633).

(** [text.split(/☐|☑|☒|□/)] *)
Definition splitParts (text : jsstring) : list jsstring := splitOn separator text.

Definition isSignatureTable (sibling : node) : bool :=
  match sibling with
  | Element a _ =>
      jsEqb (tagName a) (lit "TABLE")
      || match textContent sibling with
         | [] => false
         | text => includes text (lit "Signature") && includes text (lit "Date")
         end
  | _ => false
  end.

Definition convertChecklistToInteractive (w : world) : world :=
  let doc := document w in
  match findChecklistHeading doc with
  | None => w
  | Some checklistHeading =>
      match parentPath checklistHeading with
      | None => w
      | Some (parent, i) =>
          match lookupNode parent doc with
          | Some (Element a cs) =>
              match findIndexFrom isChecklistParagraph (S i) (drop (S i) cs) with
              | None => w
              | Some j =>
                  match cs !! j with
                  | Some (Element _ paragraphNodes) =>
                      let text := serializeFragment paragraphNodes in
                      match itemsOfParts 10 (splitParts text) with
                      | [] => w
                      | items =>
                          let container := buildContainer items in
                          let signatureTable :=
                            findIndexFrom isSignatureTable (S j) (drop (S j) cs) in
                          let cs1 := alter hideElement j cs in
                          let cs2 := match signatureTable with
                                     | Some k => alter hideElement k cs1
                                     | None => cs1
                                     end in
                          let cs' := take j cs2 ++ container :: drop j cs2 in
                          finishConversion (updateNode parent (fun _ => Element a cs') doc) w
                      end
                  | _ => w
                  end
              end
          | _ => w
          end
      end
  end.

Definition emailChecklist (w : world) : world := emailChecklistWith mailAndPrint w.

End ParagraphVariant.
End ParagraphVariant.

(** The version that splits the concatenated text of the siblings. *)
Module FullTextVariant.
Section FullTextVariant.
Context `{Host}.

Definition isSignatureTable (n : node) : bool :=
  match n with
  | Element a _ =>
      jsEqb (tagName a) (lit "TABLE")
      || match textContent n with
         | [] => false
         | text => includes text (lit "Signature") && includes text (lit "Date")
                   && negb (includes text (lit "tasks"))
         end
  | _ => false
  end.

(** What the loop adds to [fullText] for one node. *)
Definition nodeText (n : node) : jsstring :=
  match n with
  | TextNode d => d
  | Element _ _ => textContent n
  | CommentNode _ => []
  end.

(** The loop over [childNodes] after the heading: the nodes before the
    signature table, their text, and the siblings from the table on. *)
Fixpoint collectSiblings (siblings : list node) : list node * jsstring * list node :=
  match siblings with
  | [] => ([], [], [])
  | n :: more =>
      if isSignatureTable n then ([], [], siblings)
      else let '(nodesToHide, fullText, rest) := collectSiblings more in
           (n :: nodesToHide, nodeText n ++ fullText, rest)
  end.

(** [/[□☐]/] *)
Definition separator (c : N) : bool := (c =? 9633) || (c =? 9744).

(** [fullText.split(/[□☐]/)] *)
Definition splitParts (fullText : jsstring) : list jsstring := splitOn separator fullText.

Definition hideSignatureTable (rest : list node) : list node :=
  match rest with
  | n :: more => hideElement n :: more
  | [] => rest
  end.

Definition convertChecklistToInteractive (w : world) : world :=
  let doc := document w in
  match findChecklistHeading doc with
  | None => w
  | Some checklistHeading =>
      match parentPath checklistHeading with
      | None => w                    (* no parent element *)
      | Some (parent, startIndex) =>
          match lookupNode parent doc with
          | Some (Element a cs) =>
              let '(nodesToHide, fullText, rest) := collectSiblings (drop (S startIndex) cs) in
              if negb (includes fullText [whiteSquare]) && negb (includes fullText [ballotBox])
              then w
              else
                match itemsOfParts 15 (splitParts fullText) with
                | [] => w
                | items =>
                    let container := buildContainer items in
                    let cs' := take (S startIndex) cs ++ container :: map hideNode nodesToHide
                               ++ hideSignatureTable rest in
                    finishConversion (updateNode parent (fun _ => Element a cs') doc) w
                end
          | _ => w
          end
      end
  end.

Definition emailChecklist (w : world) : world := emailChecklistWith mailAndPrint w.

End FullTextVariant.
End FullTextVariant.

(** ** A small host for running the script on examples

    ASCII case mapping, markup-free fragments, JSON with whole numbers, a
    plain listing of the pixels as image encoding.  The theorems below hold
    for every host; this one serves to run the script on concrete pages. *)

Module TestHost.

Definition asciiLower (s : jsstring) : jsstring :=
  map (fun c => if (65 <=? c) && (c <=? 90) then c + 32 else c) s.

Definition asciiUpper (s : jsstring) : jsstring :=
  map (fun c => if (97 <=? c) && (c <=? 122) then c - 32 else c) s.

(** A fragment without markup is one text node. *)
Definition textFragment (s : jsstring) : list node := setTextContent s.

Definition escapeText (c : N) : jsstring :=
  if c =? 38 then lit "&amp;"
  else if c =? 60 then lit "&lt;"
  else if c =? 62 then lit "&gt;"
  else if c =? 160 then lit "&nbsp;"
  else [c].

(** Serialisation of nodes whose elements carry no attribute. *)
Fixpoint serializeNode (n : node) : jsstring :=
  match n with
  | TextNode d => flat_map escapeText d
  | CommentNode d => lit "<!--" ++ d ++ lit "-->"
  | Element a cs =>
      lit "<" ++ asciiLower (tagName a) ++ lit ">"
      ++ flat_map serializeNode cs
      ++ lit "</" ++ asciiLower (tagName a) ++ lit ">"
  end.

Definition decimal (n : N) : jsstring := lit (NilZero.string_of_uint (N.to_uint n)).

(** *** JSON *)

Definition hexDigit (n : N) : N := if n <? 10 then 48 + n else 87 + n.

Definition escapeChar (c : N) : jsstring :=
  if c =? 34 then [92; 34]
  else if c =? 92 then [92; 92]
  else if c =? 8 then [92; 98]
  else if c =? 12 then [92; 102]
  else if c =? 10 then [92; 110]
  else if c =? 13 then [92; 114]
  else if c =? 9 then [92; 116]
  else if c <? 32 then [92; 117; 48; 48; hexDigit (c / 16); hexDigit (c mod 16)]
  else [c].

Definition quote (s : jsstring) : jsstring := 34 :: flat_map escapeChar s ++ [34].

(** Whole numbers print in decimal; what is not a whole number prints as
    [null], as [NaN] and the infinities do. *)
Definition printNumber (x : float) : jsstring :=
  match Prim2SF x with
  | S754_zero _ => lit "0"
  | S754_finite s m e =>
      let sign := if s then lit "-" else [] in
      if (0 <=? e)%Z then sign ++ decimal (Npos m * 2 ^ Z.to_N e)
      else if Npos m mod 2 ^ Z.to_N (- e) =? 0
           then sign ++ decimal (Npos m / 2 ^ Z.to_N (- e))
           else lit "null"
  | _ => lit "null"
  end.

Definition isDefined (v : jsval) : bool :=
  match v with
  | JUndefined => false
  | _ => true
  end.

Fixpoint stringify (v : jsval) : jsstring :=
  match v with
  | JUndefined | JNull => lit "null"
  | JBool true => lit "true"
  | JBool false => lit "false"
  | JNum x => printNumber x
  | JStr s => quote s
  | JArr items => lit "[" ++ join (lit ",") (map stringify items) ++ lit "]"
  | JObj props =>
      let members :=
        fix members (ps : list (jsstring * jsval)) : list jsstring :=
          match ps with
          | [] => []
          | (k, v') :: ps' =>
              if isDefined v' then (quote k ++ lit ":" ++ stringify v') :: members ps'
              else members ps'
          end in
      lit "{" ++ join (lit ",") (members props) ++ lit "}"
  end.

Definition isJsonSpace (c : N) : bool :=
  (c =? 32) || (c =? 9) || (c =? 10) || (c =? 13).

Definition hexValue (c : N) : option N :=
  if isDigit c then Some (c - 48)
  else if (97 <=? c) && (c <=? 102) then Some (c - 87)
  else if (65 <=? c) && (c <=? 70) then Some (c - 55)
  else None.

Definition unescape (e : N) : option N :=
  if (e =? 34) || (e =? 92) || (e =? 47) then Some e
  else if e =? 98 then Some 8
  else if e =? 102 then Some 12
  else if e =? 110 then Some 10
  else if e =? 114 then Some 13
  else if e =? 116 then Some 9
  else None.

Definition consChar (c : N) (r : option (jsstring * jsstring)) : option (jsstring * jsstring) :=
  match r with
  | Some (t, rest) => Some (c :: t, rest)
  | None => None
  end.

(** The characters of a string literal after its opening quote, and what
    follows the closing quote. *)
Fixpoint parseChars (s : jsstring) : option (jsstring * jsstring) :=
  match s with
  | [] => None
  | c :: r =>
      if c =? 34 then Some ([], r)
      else if c =? 92 then
        match r with
        | e :: r1 =>
            if e =? 117 then
              match r1 with
              | a :: b :: c' :: d :: r2 =>
                  match hexValue a, hexValue b, hexValue c', hexValue d with
                  | Some a, Some b, Some c', Some d =>
                      consChar (((a * 16 + b) * 16 + c') * 16 + d) (parseChars r2)
                  | _, _, _, _ => None
                  end
              | _ => None
              end
            else match unescape e with
                 | Some u => consChar u (parseChars r1)
                 | None => None
                 end
        | [] => None
        end
      else if c <? 32 then None
      else consChar c (parseChars r)
  end.

Fixpoint takeDigits (s : jsstring) : jsstring * jsstring :=
  match s with
  | c :: r => if isDigit c then let '(ds, rest) := takeDigits r in (c :: ds, rest)
              else ([], s)
  | [] => ([], [])
  end.

(** A whole number of at most fifteen digits. *)
Definition parseNumber (s : jsstring) : option (jsval * jsstring) :=
  let '(negative, s1) := match s with
                         | c :: r => if c =? 45 then (true, r) else (false, s)
                         | [] => (false, s)
                         end in
  let '(ds, rest) := takeDigits s1 in
  match ds, rest with
  | [], _ => None
  | d :: more, next =>
      if ((d =? 48) && negb (length more =? 0)%nat) || (15 <? length ds)%nat then None
      else match next with
           | c :: _ => if (c =? 46) || (c =? 101) || (c =? 69) then None
                       else Some (JNum (if negative
                                        then PrimFloat.opp (PrimFloat.of_uint63 (Uint63.of_Z (Z.of_N (digitsValue ds))))
                                        else PrimFloat.of_uint63 (Uint63.of_Z (Z.of_N (digitsValue ds)))),
                                  rest)
           | [] => Some (JNum (if negative
                               then PrimFloat.opp (PrimFloat.of_uint63 (Uint63.of_Z (Z.of_N (digitsValue ds))))
                               else PrimFloat.of_uint63 (Uint63.of_Z (Z.of_N (digitsValue ds)))),
                         rest)
           end
  end.

(** A later member with the same key replaces the earlier one. *)
Fixpoint setProp (k : jsstring) (v : jsval) (props : list (jsstring * jsval)) :=
  match props with
  | [] => [(k, v)]
  | (k', v') :: props' =>
      if jsEqb k' k then (k, v) :: props' else (k', v') :: setProp k v props'
  end.

Fixpoint parseValue (fuel : nat) (s : jsstring) {struct fuel} : option (jsval * jsstring) :=
  match fuel with
  | O => None
  | S fuel' =>
      let elements :=
        fix elements (n : nat) (s : jsstring) (acc : list jsval) {struct n} :=
          match n with
          | O => None
          | S n' =>
              match parseValue fuel' s with
              | Some (v, r) =>
                  match dropWhile isJsonSpace r with
                  | c :: r' =>
                      if c =? 44 then elements n' r' (acc ++ [v])
                      else if c =? 93 then Some (JArr (acc ++ [v]), r')
                      else None
                  | [] => None
                  end
              | None => None
              end
          end in
      let members :=
        fix members (n : nat) (s : jsstring) (acc : list (jsstring * jsval)) {struct n} :=
          match n with
          | O => None
          | S n' =>
              match dropWhile isJsonSpace s with
              | q :: r =>
                  if q =? 34 then
                    match parseChars r with
                    | Some (k, r1) =>
                        match dropWhile isJsonSpace r1 with
                        | colon :: r2 =>
                            if colon =? 58 then
                              match parseValue fuel' r2 with
                              | Some (v, r3) =>
                                  match dropWhile isJsonSpace r3 with
                                  | c :: r4 =>
                                      if c =? 44 then members n' r4 (setProp k v acc)
                                      else if c =? 125 then Some (JObj (setProp k v acc), r4)
                                      else None
                                  | [] => None
                                  end
                              | None => None
                              end
                            else None
                        | [] => None
                        end
                    | None => None
                    end
                  else None
              | [] => None
              end
          end in
      match dropWhile isJsonSpace s with
      | [] => None
      | c :: r =>
          if c =? 123 then
            match dropWhile isJsonSpace r with
            | c' :: r' => if c' =? 125 then Some (JObj [], r') else members (length s) r []
            | [] => None
            end
          else if c =? 91 then
            match dropWhile isJsonSpace r with
            | c' :: r' => if c' =? 93 then Some (JArr [], r') else elements (length s) r []
            | [] => None
            end
          else if c =? 34 then
            match parseChars r with
            | Some (str, r') => Some (JStr str, r')
            | None => None
            end
          else if startsWith (c :: r) (lit "true") then Some (JBool true, drop 4 (c :: r))
          else if startsWith (c :: r) (lit "false") then Some (JBool false, drop 5 (c :: r))
          else if startsWith (c :: r) (lit "null") then Some (JNull, drop 4 (c :: r))
          else parseNumber (c :: r)
      end
  end.

Definition parse (s : jsstring) : option jsval :=
  match parseValue (S (length s)) s with
  | Some (v, rest) =>
      match dropWhile isJsonSpace rest with
      | [] => Some v
      | _ => None
      end
  | None => None
  end.

(** [ToString] of the values that [parse] returns. *)
Definition elementToString (v : jsval) : jsstring :=
  match v with
  | JUndefined | JNull => []
  | JBool true => lit "true"
  | JBool false => lit "false"
  | JNum x => printNumber x
  | JStr s => s
  | JArr _ => []
  | JObj _ => lit "[object Object]"
  end.

Definition toStringOf (v : jsval) : option jsstring :=
  match v with
  | JUndefined => Some (lit "undefined")
  | JNull => Some (lit "null")
  | JArr items => Some (join (lit ",") (map elementToString items))
  | _ => Some (elementToString v)
  end.

(** *** Images: the size and the bytes of the pixels, in decimal *)

Definition dataPrefix : jsstring := lit "data:image/x-rgba,".

Definition encodeBitmap (b : bitmap) : jsstring :=
  dataPrefix
  ++ join (lit ",")
       (map decimal
            (N.of_nat (width b) :: N.of_nat (height b)
             :: map Z.to_N (flat_map (flat_map pixelBytes) (rows b)))).

Fixpoint pixelsOf (bytes : list N) : list pixel :=
  match bytes with
  | r :: g :: b :: a :: more =>
      Pixel (Z.of_N r) (Z.of_N g) (Z.of_N b) (Z.of_N a) :: pixelsOf more
  | _ => []
  end.

Fixpoint rowsOf (w h : nat) (pixels : list pixel) : list (list pixel) :=
  match h with
  | O => []
  | S h' => take w pixels :: rowsOf w h' (drop w pixels)
  end.

Definition decodeBitmap (src : jsstring) : option bitmap :=
  if startsWith src dataPrefix then
    let fields := splitOn (N.eqb 44) (drop (length dataPrefix) src) in
    if forallb (fun f => forallb isDigit f && negb (length f =? 0)%nat) fields then
      match map digitsValue fields with
      | w :: h :: bytes =>
          if (length bytes =? 4 * (N.to_nat w * N.to_nat h))%nat
          then Some (Bitmap (N.to_nat w) (N.to_nat h)
                            (rowsOf (N.to_nat w) (N.to_nat h) (pixelsOf bytes)))
          else None
      | _ => None
      end
    else None
  else None.

(** Source-over on bytes: an opaque source replaces the destination, a
    source over nothing stays as it is. *)
Definition over (src dst : pixel) : pixel :=
  if (alpha dst =? 0)%Z then src
  else if (alpha src =? 0)%Z then dst
  else
    let a := (alpha src + alpha dst * (255 - alpha src) / 255)%Z in
    let mix s d := ((s * alpha src * 255 + d * alpha dst * (255 - alpha src)) / (a * 255))%Z in
    Pixel (mix (red src) (red dst)) (mix (green src) (green dst))
          (mix (blue src) (blue dst)) a.

Definition host (date : jsstring) : Host :=
  {| toLowerCase := asciiLower;
     toUpperCase := asciiUpper;
     parseFragment := textFragment;
     serializeFragment := flat_map serializeNode;
     today := date;
     toDataURL := encodeBitmap;
     decodeImage := decodeBitmap;
     sourceOver := over;
     JSON_stringify := stringify;
     JSON_parse := parse;
     valueToString := toStringOf |}.

End TestHost.

(** ** The shape of a malformed enumeration label, in the words of the
    specification *)

(** A non-empty run of decimal digits. *)
Definition isNumber (s : jsstring) : bool :=
  match s with
  | [] => false
  | _ => forallb isDigit s
  end.

(** [text] consists of the dot-separated integer components [comps], three
    or more, followed by [dots] trailing dots. *)
Definition isEnumeration (comps : list jsstring) (dots : nat) (text : jsstring) : Prop :=
  (3 <= length comps)%nat /\ forallb isNumber comps = true
  /\ text = join [46] comps ++ replicate dots 46.

(** ** Vocabulary for the properties of loadChecklistState *)

(** The value of [state.checkboxes && state.checkboxes[index]], as a
    condition. *)
Definition entryTruthy (checkboxes : jsval) (index : nat) : bool :=
  truthy checkboxes && truthy (default JUndefined (getIndex checkboxes index)).

(** The parsed stored value, when [localStorage] holds a non-empty text
    under the key and [JSON.parse] accepts it. *)
Definition storedState `{Host} (w : world) : option jsval :=
  match localStorage w with
  | Some store =>
      match store !! storageKey with
      | Some (c :: saved) => JSON_parse (c :: saved)
      | _ => None
      end
  | None => None
  end.

(** Whether the stored value has a truthy entry for the checkbox with the
    given index. *)
Definition storedEntry `{Host} (w : world) (index : nat) : bool :=
  match storedState w with
  | Some state =>
      match getProperty state (lit "checkboxes") with
      | Some checkboxes => entryTruthy checkboxes index
      | None => false
      end
  | None => false
  end.

Definition hasClassAt (c : jsstring) (doc : node) (p : path) : bool :=
  match attrsAt doc p with
  | Some a => hasClass c a
  | None => false
  end.

(** Some checkbox of [cbs], counted from [index], is the node [q] and has a
    truthy stored entry. *)
Fixpoint restoredAt (checkboxes : jsval) (index : nat) (cbs : list path) (q : path) : bool :=
  match cbs with
  | [] => false
  | cb :: cbs' =>
      (bool_decide (cb = q) && entryTruthy checkboxes index)
      || restoredAt checkboxes (S index) cbs' q
  end.

(** Some checkbox of [cbs], counted from [index], is a child of the node
    [r] and has a truthy stored entry. *)
Fixpoint completedAt (checkboxes : jsval) (index : nat) (cbs : list path) (r : path) : bool :=
  match cbs with
  | [] => false
  | cb :: cbs' =>
      (bool_decide (fst <$> parentPath cb = Some r) && entryTruthy checkboxes index)
      || completedAt checkboxes (S index) cbs' r
  end.

(** A bitmap has [height] rows of [width] pixels. *)
Definition wellFormed (b : bitmap) : Prop :=
  length (rows b) = height b /\ Forall (fun r => length r = width b) (rows b).

(** ** Example pages *)

Module Examples.

(** The host of the examples; its clock reads 1 May 2024. *)
Definition host : Host := TestHost.host (lit "2024-05-01").

Definition el (tag : string) (cs : list node) : node :=
  Element (createElement (lit tag)) cs.

(** The box that tex4ht writes in front of every item. *)
Definition box : node := el "MJX-CONTAINER" [TextNode [whiteSquare]].

(** The checklist section of the exported manual, cut down to three items. *)
Definition page : node :=
  el "BODY"
    [ el "H2" [TextNode (lit "Checklist and signature page")];
      TextNode (lit "By signing below, I certify that I have completed the following tasks: ");
      box; TextNode (lit " Read the lab manual from start to finish. ");
      box; TextNode (lit " Meet with your advisor to set goals. ");
      box; TextNode (lit " Set up your computing environment. ");
      el "TABLE" [el "TR" [el "TD" [TextNode (lit "Signature")];
                           el "TD" [TextNode (lit "Date")]]] ].

(** A page load with the given content of [localStorage]. *)
Definition visit (store : gmap jsstring jsstring) : world :=
  World page None None false (Some store) false [] [].

Definition firstVisit : world := visit ∅.

(** The page after the current script has built the form. *)
Definition converted : world :=
  @Current.convertChecklistToInteractive host firstVisit.

(** A stored value of the wrong shape:
    [{"checkboxes":5,"date":"2020-01-01","signature":""}]. *)
Definition wrongShape : jsstring :=
  lit "{" ++ TestHost.quote (lit "checkboxes") ++ lit ":5,"
  ++ TestHost.quote (lit "date") ++ lit ":" ++ TestHost.quote (lit "2020-01-01") ++ lit ","
  ++ TestHost.quote (lit "signature") ++ lit ":" ++ TestHost.quote [] ++ lit "}".

(** A page without any checklist heading. *)
Definition plainPage : node :=
  el "BODY" [ el "H2" [TextNode (lit "Lab meetings")];
              el "P" [TextNode (lit "We meet once a week.")];
              el "H2" [TextNode (lit "Checklist")];
              el "P" [TextNode [whiteSquare; 32; 65]] ].

(** A form with two checkboxes, a date field and a signature pad of two by
    two pixels. *)
Definition smallForm (cb0 cb1 : bool) (date : jsstring) (pad : bitmap) : node :=
  el "BODY"
    [ Element (withId (lit "interactive-checklist")
                 (withClassName [lit "interactive-checklist"] (createElement (lit "DIV"))))
        [ el "DIV" [Element (withChecked cb0 (withType (lit "checkbox")
                               (createElement (lit "INPUT")))) []];
          el "DIV" [Element (withChecked cb1 (withType (lit "checkbox")
                               (createElement (lit "INPUT")))) []];
          Element (withCanvas (Some pad) (withId (lit "signature-canvas")
                     (createElement (lit "CANVAS")))) [];
          Element (withValue date (withId (lit "signature-date")
                     (withType (lit "date") (createElement (lit "INPUT"))))) [] ] ].

Definition padPath : path := [0; 2]%nat.

Definition padContext : context2d :=
  Context2d padPath (lit "#000") 2 (lit "round") (lit "round").

Definition smallWorld (doc : node) (store : gmap jsstring jsstring) : world :=
  World doc (Some padPath) (Some padContext) false (Some store) false [] [].

(** A signature: one black pixel. *)
Definition inked : bitmap :=
  Bitmap 2 2 [[transparent; Pixel 0 0 0 255]; [transparent; transparent]].

(** The form as the user left it, and as the next page load builds it. *)
Definition filledIn : world :=
  smallWorld (smallForm true false (lit "2024-04-30") inked) ∅.

Definition reloaded : world :=
  smallWorld (smallForm false false (lit "2024-05-01") (blankBitmap 2 2))
             (default ∅ (localStorage (@saveChecklistState host filledIn))).

(** The same checklist as one exported paragraph. *)
Definition paragraphPage : node :=
  el "BODY"
    [ el "H2" [TextNode (lit "Checklist and signature page")];
      el "P" [TextNode ([ballotBox] ++ lit " Read the lab manual from start to finish. "
                        ++ [ballotBox] ++ lit " Meet with your advisor to set goals. ")];
      el "TABLE" [el "TR" [el "TD" [TextNode (lit "Signature")];
                           el "TD" [TextNode (lit "Date")]]] ].

End Examples.

(** ** Counting the elements that a selector matches *)

(** A selector with a descendant combinator, read from the root downwards:
    [selects inside a] tells whether an element with the properties [a]
    matches when [inside] holds for its ancestors, [enters inside a] what
    holds for its children. *)
Record selector : Type := Selector {
  selects : bool -> attrs -> bool;
  enters : bool -> attrs -> bool
}.

(** [#i] *)
Definition idSelector (i : jsstring) : selector :=
  Selector (fun _ a => jsEqb (eid a) i) (fun inside _ => inside).

(** ['.interactive-checklist input[type="checkbox"]'] *)
Definition checkboxSelector : selector :=
  Selector (fun inside a =>
              jsEqb (tagName a) (lit "INPUT") && jsEqb (inputType a) (lit "checkbox")
              && inside)
           (fun inside a => inside || hasClass (lit "interactive-checklist") a).

(** Whether the node at [p] matches. *)
Fixpoint selectedAt (s : selector) (inside : bool) (n : node) (p : path) : bool :=
  match n with
  | Element a cs =>
      match p with
      | [] => selects s inside a
      | i :: q =>
          match cs !! i with
          | Some c => selectedAt s (enters s inside a) c q
          | None => false
          end
      end
  | _ => false
  end.

(** The number of matching elements in and below a node. *)
Fixpoint countSelected (s : selector) (inside : bool) (n : node) : nat :=
  match n with
  | Element a cs =>
      (if selects s inside a then 1 else 0)
      + list_sum (map (countSelected s (enters s inside a)) cs)
  | _ => 0
  end.

(** Hiding does not change what the selector matches: it does not look at
    [style.display], and the [span] that wraps a hidden text node is no
    match. *)
Definition hidingSafe (s : selector) : Prop :=
  (forall inside d a, selects s inside (withDisplay d a) = selects s inside a)
  /\ (forall inside d a, enters s inside (withDisplay d a) = enters s inside a)
  /\ (forall inside,
        selects s inside (withDisplay (lit "none") (createElement (lit "SPAN"))) = false).

(** ** What the builder finds, and what it then does *)

(** The items that the current builder finds on a page. *)
Definition currentItems `{Host} (doc : node) : list jsstring :=
  match findChecklistHeading doc with
  | Some checklistHeading =>
      match parentPath checklistHeading with
      | Some (parent, i) =>
          match lookupNode parent doc with
          | Some (Element _ cs) =>
              Current.extractItems (fst (Current.collectSiblings (drop (S i) cs)))
          | _ => []
          end
      | None => []
      end
  | None => []
  end.

(** The items that the two earlier builders find on a page. *)
Definition paragraphItems `{Host} (doc : node) : list jsstring :=
  match findChecklistHeading doc with
  | Some checklistHeading =>
      match parentPath checklistHeading with
      | Some (parent, i) =>
          match lookupNode parent doc with
          | Some (Element _ cs) =>
              match findIndexFrom ParagraphVariant.isChecklistParagraph (S i)
                                  (drop (S i) cs) with
              | Some j =>
                  match cs !! j with
                  | Some (Element _ paragraphNodes) =>
                      itemsOfParts 10
                        (ParagraphVariant.splitParts (serializeFragment paragraphNodes))
                  | _ => []
                  end
              | None => []
              end
          | _ => []
          end
      | None => []
      end
  | None => []
  end.

Definition fullTextItems `{Host} (doc : node) : list jsstring :=
  match findChecklistHeading doc with
  | Some checklistHeading =>
      match parentPath checklistHeading with
      | Some (parent, startIndex) =>
          match lookupNode parent doc with
          | Some (Element _ cs) =>
              let fullText :=
                snd (fst (FullTextVariant.collectSiblings (drop (S startIndex) cs))) in
              if negb (includes fullText [whiteSquare]) && negb (includes fullText [ballotBox])
              then []
              else itemsOfParts 15 (FullTextVariant.splitParts fullText)
          | _ => []
          end
      | None => []
      end
  | None => []
  end.

(** What an invocation of the builder that found [items] does to the form
    controls of the page.  Without an item it leaves the whole state as it
    is.  With an item the page has afterwards more elements with the id of
    the container than before, and its checklist checkboxes are more by the
    number of items at least; how many of either the page held before does
    not matter. *)
Definition insertsWhenFound (items : list jsstring) (w w' : world) : Prop :=
  match items with
  | [] => w' = w
  | _ :: _ =>
      (length (elementsWithId (lit "interactive-checklist") (document w))
       < length (elementsWithId (lit "interactive-checklist") (document w')))%nat
      /\ (length (checklistCheckboxes (document w)) + length items
          <= length (checklistCheckboxes (document w')))%nat
  end.

(** * Vocabulary of the properties *)

(** The page after [fixEnumerationNumbering], by recursion on the tree: a
    [dt] whose trimmed text the pattern accepts becomes [fixDt dt]; every
    other node is kept, with the labels below it rewritten. *)
Fixpoint rewriteLabels (n : node) : node :=
  match n with
  | Element a cs =>
      if jsEqb (tagName a) (lit "DT") && test enumerationPattern (trim (textContent n))
      then fixDt n
      else Element a (map rewriteLabels cs)
  | _ => n
  end.

(** The [dt] elements in and below a node. *)
Definition dtPaths (n : node) : list path := List.filter (hasTag (lit "DT") n) (paths n).

(** The body of the [forEach] of [fixEnumerationNumbering]. *)
Definition fixAt (doc : node) (dt : path) : node :=
  if hasTag (lit "DT") doc dt then updateNode dt fixDt doc else doc.

(** Running that loop over the [dt] elements of the part [n] of the page
    [R] rewrites that part. *)
Definition loopRewrites (n : node) : Prop :=
  forall pre R, lookupNode pre R = Some n ->
    fold_left fixAt (map (app pre) (dtPaths n)) R
    = updateNode pre (fun _ => rewriteLabels n) R.

(** The pixels that [getImageData(0, 0, width, height)] reads. *)
Definition pixelsIn (b : bitmap) : list pixel :=
  flat_map (fun row => map (fun col => pixelAt b col row) (seq 0 (width b)))
           (seq 0 (height b)).

(** The call ended with one message to the user and changed nothing else:
    nothing was downloaded, no mail link opened, nothing queued. *)
Definition abortsWith (message : jsstring) (w w' : world) : Prop :=
  document w' = document w /\ signatureCanvas w' = signatureCanvas w
  /\ signatureCtx w' = signatureCtx w /\ isDrawing w' = isDrawing w
  /\ localStorage w' = localStorage w /\ jsPDFLoaded w' = jsPDFLoaded w
  /\ tasks w' = tasks w /\ log w' = log w ++ [Alert message].

(** Some pixel of the bitmap is not fully transparent.  The alpha channel
    is a byte, so not zero is positive. *)
Definition hasInk (b : bitmap) : Prop :=
  exists col row, (col < width b)%nat /\ (row < height b)%nat
                  /\ (0 < alpha (pixelAt b col row))%Z.

(** The three preconditions of the export, in their order: a checkbox that
    is not checked ends [email] first, then a canvas without ink, then an
    empty date; only with all three met does [email] go on to [proceed]. *)
Definition checksInOrder (email : world -> world)
    (proceed : jsstring -> world -> world) (w : world) (b : bitmap) : Prop :=
  let doc := document w in
  (forallb id (checkboxStates doc) = false -> abortsWith msgCheckAll w (email w))
  /\ (forallb id (checkboxStates doc) = true -> ~ hasInk b ->
      abortsWith msgSignature w (email w))
  /\ (forallb id (checkboxStates doc) = true -> hasInk b ->
      dateFieldValue doc = [] -> abortsWith msgDate w (email w))
  /\ (forallb id (checkboxStates doc) = true -> hasInk b ->
      dateFieldValue doc <> [] -> email w = proceed (dateFieldValue doc) w).

(** [split] cuts a text at every code unit of the class [delimiter] and
    nowhere else: one more part than there are delimiters, no delimiter
    left in a part, and nothing but the delimiters removed. *)
Definition splitsExactlyAt (delimiter : N -> bool)
    (split : jsstring -> list jsstring) : Prop :=
  forall text,
    length (split text) = S (length (List.filter delimiter text))
    /\ Forall (fun part => forallb (fun c => negb (delimiter c)) part = true) (split text)
    /\ concat (split text) = List.filter (fun c => negb (delimiter c)) text.

(** The siblings cut at the nodes of the class [delimiter], as [splitOn]
    cuts a string. *)
Fixpoint splitNodes (delimiter : node -> bool) (nodes : list node) : list (list node) :=
  match nodes with
  | [] => [[]]
  | n :: nodes' =>
      if delimiter n then [] :: splitNodes delimiter nodes'
      else match splitNodes delimiter nodes' with
           | [] => [[n]]
           | seg :: segs => (n :: seg) :: segs
           end
  end.

(** The text that the current script gathers from one node that is not a
    checkbox: the data of a text node, the text of an element other than a
    [DIV]. *)
Definition gatheredText (n : node) : jsstring :=
  match n with
  | TextNode d => d
  | Element a _ => if jsEqb (tagName a) (lit "DIV") then [] else textContent n
  | CommentNode _ => []
  end.

Definition segmentText (seg : list node) : jsstring := flat_map gatheredText seg.

Definition longItems (texts : list jsstring) : list jsstring :=
  List.filter (fun t => (15 <? length t)%nat) (map trim texts).

(** What the selectors of the script look at. *)
Definition selectorKey (a : attrs) : jsstring * jsstring * jsstring * bool :=
  (tagName a, inputType a, eid a, hasClass (lit "interactive-checklist") a).

(** Two pages with the same nodes whose elements agree on those
    properties. *)
Definition sameSelectors (doc doc' : node) : Prop :=
  paths doc' = paths doc
  /\ forall q, selectorKey <$> attrsAt doc' q = selectorKey <$> attrsAt doc q.

(** * The rest of the script *)

(** ** formatPersonnelLists *)

(** [[\n\r]] *)
Definition isNewline (c : N) : bool := (c =? 10) || (c =? 13).

(** [s.split(re)] for a pattern [re] that matches a non-empty run of code
    units of the class [p], such as [/[\n\r]+/]: the text is cut at every
    maximal run.  [inRun] tells that the previous code unit belonged to a
    run. *)
Fixpoint splitRunsFrom (p : N -> bool) (inRun : bool) (s : jsstring) : list jsstring :=
  match s with
  | [] => [[]]
  | c :: s' =>
      if p c then (if inRun then splitRunsFrom p true s' else [] :: splitRunsFrom p true s')
      else match splitRunsFrom p false s' with
           | [] => [[c]]
           | part :: parts => (c :: part) :: parts
           end
  end.

Definition splitRuns (p : N -> bool) (s : jsstring) : list jsstring :=
  splitRunsFrom p false s.

(** [text.split(/[\n\r]+/).map(trim).filter(s => s.length > 0)] *)
Definition personnelNames (text : jsstring) : list jsstring :=
  List.filter (fun s => (0 <? length s)%nat) (map trim (splitRuns isNewline text)).

(** The [span] made for one name. *)
Definition personnelItem (name : jsstring) : node :=
  Element (withClassName [lit "personnel-item"] (createElement (lit "SPAN")))
          (setTextContent name).

(** The body of [columnsDivs.forEach] for one [div]: without a name the
    [div] is left alone, otherwise its content is cleared and one [span] is
    appended for every name. *)
Definition formatDiv (div : node) : node :=
  match div with
  | Element a _ =>
      match personnelNames (textContent div) with
      | [] => div
      | names => Element a (map personnelItem names)
      end
  | _ => div
  end.

(** The selector [div.columns-2]. *)
Definition isColumnsDiv (doc : node) (p : path) : bool :=
  match attrsAt doc p with
  | Some a => jsEqb (tagName a) (lit "DIV") && hasClass (lit "columns-2") a
  | None => false
  end.

(** The [div]s are collected first.  One that lay inside a [div] whose
    content has been cleared is no longer part of the page: its path leads
    to a [span], to a text node or to nothing, and what the loop does to it
    does not show. *)
Definition formatPersonnelLists (w : world) : world :=
  let columnsDivs := List.filter (isColumnsDiv (document w)) (paths (document w)) in
  withDocument
    (fold_left (fun doc div => if isColumnsDiv doc div then updateNode div formatDiv doc else doc)
               columnsDivs (document w))
    w.

(** The page after [formatPersonnelLists], by recursion on the tree. *)
Fixpoint formatLists (n : node) : node :=
  match n with
  | Element a cs =>
      if jsEqb (tagName a) (lit "DIV") && hasClass (lit "columns-2") a
         && negb (bool_decide (personnelNames (textContent n) = []))
      then formatDiv n
      else Element a (map formatLists cs)
  | _ => n
  end.

(** ** A loop over elements that were collected beforehand

    [sel] is the selector, [f] the body of the loop and [stops n] tells that
    [f] replaces the content of [n]. *)

Definition selectedBy (sel : attrs -> bool) (doc : node) (p : path) : bool :=
  match attrsAt doc p with
  | Some a => sel a
  | None => false
  end.

Definition loopStep (sel : attrs -> bool) (f : node -> node) (doc : node) (p : path) : node :=
  if selectedBy sel doc p then updateNode p f doc else doc.

Fixpoint loopResult (sel : attrs -> bool) (f : node -> node) (stops : node -> bool)
    (n : node) : node :=
  match n with
  | Element a cs =>
      if sel a && stops n then f n else Element a (map (loopResult sel f stops) cs)
  | _ => n
  end.

Definition loopCorrect (sel : attrs -> bool) (f : node -> node) (stops : node -> bool)
    (n : node) : Prop :=
  forall pre R, lookupNode pre R = Some n ->
    fold_left (loopStep sel f) (map (app pre) (List.filter (selectedBy sel n) (paths n))) R
    = updateNode pre (fun _ => loopResult sel f stops n) R.

(** Without white space. *)
Definition visible (s : jsstring) : jsstring :=
  List.filter (fun c => negb (isWhiteSpace c)) s.

(** No white space at either end. *)
Definition isTrimmed (s : jsstring) : Prop := trim s = s.

(** ** wrapOrphanedTextNodes: what is done after one heading *)

Section Orphans.
Context `{Host}.

(** [tagName === 'H2' || tagName === 'SECTION' || tagName === 'NAV'] *)
Definition isSectionStart (tagName : jsstring) : bool :=
  jsEqb tagName (lit "H2") || jsEqb tagName (lit "SECTION") || jsEqb tagName (lit "NAV").

(** [tagName === 'P' || tagName === 'UL' || tagName === 'OL' || tagName === 'DL'] *)
Definition isStructured (tagName : jsstring) : bool :=
  jsEqb tagName (lit "P") || jsEqb tagName (lit "UL") || jsEqb tagName (lit "OL")
  || jsEqb tagName (lit "DL").

(** The inline elements that belong to the intro text. *)
Definition isInlineTag (tagName : jsstring) : bool :=
  jsEqb tagName (lit "A") || jsEqb tagName (lit "SPAN") || jsEqb tagName (lit "LABEL")
  || jsEqb tagName (lit "INPUT") || jsEqb tagName (lit "MATH")
  || jsEqb tagName (lit "MJX-CONTAINER").

(** What one round of the [while] loop does with the sibling: it pushes it
    onto [nodesToWrap], passes over it, or leaves the loop. *)
Inductive orphanStep : Type := Wrap | Skip | Stop.

Definition orphanStepOf (sibling : node) : orphanStep :=
  match sibling with
  | Element a _ =>
      let tagName := toUpperCase (tagName a) in
      if isSectionStart tagName || isStructured tagName then Stop
      else if isInlineTag tagName then Wrap
      else Stop
  | TextNode d =>
      match trim d with
      | [] => Skip
      | _ => Wrap
      end
  | CommentNode _ => Skip
  end.

(** The [while] loop over the siblings that follow the heading: for every
    sibling it reaches, whether it has been pushed onto [nodesToWrap]. *)
Fixpoint orphanMarks (siblings : list node) : list bool :=
  match siblings with
  | [] => []
  | sibling :: more =>
      match orphanStepOf sibling with
      | Stop => []
      | Wrap => true :: orphanMarks more
      | Skip => false :: orphanMarks more
      end
  end.

(** [nodesToWrap] *)
Fixpoint marked (marks : list bool) (siblings : list node) : list node :=
  match marks, siblings with
  | true :: marks', n :: more => n :: marked marks' more
  | false :: marks', _ :: more => marked marks' more
  | _, _ => []
  end.

(** The siblings that [wrapper.appendChild] does not move. *)
Fixpoint unmarked (marks : list bool) (siblings : list node) : list node :=
  match marks, siblings with
  | true :: marks', _ :: more => unmarked marks' more
  | false :: marks', n :: more => n :: unmarked marks' more
  | _, _ => siblings
  end.

(** The wrapper, a [p] of the class [section-intro], with the nodes appended
    to it. *)
Definition sectionIntro (nodesToWrap : list node) : node :=
  Element (withClassName [lit "section-intro"] (createElement (lit "P"))) nodesToWrap.

(** [h2.parentNode.insertBefore(wrapper, nodesToWrap[0])] and the
    [appendChild] of every node: the wrapper takes the place of the first
    marked sibling, the marked siblings after it leave theirs. *)
Fixpoint insertWrapper (marks : list bool) (siblings : list node) (wrapper : node)
    : list node :=
  match marks, siblings with
  | false :: marks', n :: more => n :: insertWrapper marks' more wrapper
  | true :: _, _ :: _ => wrapper :: unmarked marks siblings
  | _, _ => siblings
  end.

(** The siblings that follow the heading, after the body of the [forEach]. *)
Definition wrapOrphans (siblings : list node) : list node :=
  let marks := orphanMarks siblings in
  match marked marks siblings with
  | [] => siblings
  | nodesToWrap => insertWrapper marks siblings (sectionIntro nodesToWrap)
  end.

(** The body of [h2s.forEach] for the heading at [h2]. *)
Definition wrapOrphansAfter (doc : node) (h2 : path) : node :=
  if isChecklistHeading doc h2 then doc
  else
    match parentPath h2 with
    | Some (parent, i) =>
        updateNode parent
          (fun n => match n with
                    | Element a cs => Element a (take (S i) cs ++ wrapOrphans (drop (S i) cs))
                    | _ => n
                    end) doc
    | None => doc
    end.

End Orphans.

(** The marks are those of a walk over [siblings]: a marked sibling is one
    that the loop pushes, the others are passed over. *)
Fixpoint marksAgree `{Host} (marks : list bool) (siblings : list node) : Prop :=
  match marks, siblings with
  | [], _ => True
  | m :: marks', n :: more =>
      orphanStepOf n = (if m then Wrap else Skip) /\ marksAgree marks' more
  | _ :: _, [] => False
  end.

(** ** The handlers of the form *)

(** [el.classList.remove(c)] *)
Definition classListRemove (c : jsstring) (a : attrs) : attrs :=
  withClassName (List.filter (fun t => negb (jsEqb c t)) (classList a)) a.

(** A mouse event and the rectangle that [getBoundingClientRect] returns,
    as far as the script reads them.  Coordinates are JavaScript numbers. *)
Record mouseEvent : Type := MouseEvent { clientX : float; clientY : float }.
Record domRect : Type := DomRect { rectLeft : float; rectTop : float }.

(** [getMousePos(canvas, e)] for a canvas whose rectangle is [rect]. *)
Definition getMousePos (rect : domRect) (e : mouseEvent) : float * float :=
  (PrimFloat.sub (clientX e) (rectLeft rect), PrimFloat.sub (clientY e) (rectTop rect)).

(** The current path of the 2D context. *)
Inductive pathCommand : Type :=
| MoveTo (x y : float)
| LineTo (x y : float).

(** The state of the page together with the current path of [signatureCtx]. *)
Record pad : Type := Pad { padWorld : world; currentPath : list pathCommand }.

Section Handlers.
Context `{Host}.

(** How the browser strokes a path onto a bitmap. *)
Variable strokePath : context2d -> list pathCommand -> bitmap -> bitmap.

(** The change listener of a checklist checkbox.  [itemDiv] is the element
    that the builder made the parent of the checkbox; nothing in the script
    moves either of them. *)
Definition toggleCompleted (checkbox : path) (w : world) : world :=
  let doc := document w in
  match parentPath checkbox with
  | Some (itemDiv, _) =>
      let mark := if checkedAt doc checkbox
                  then classListAdd (lit "completed")
                  else classListRemove (lit "completed") in
      saveChecklistState (withDocument (updateAttrs itemDiv mark doc) w)
  | None => saveChecklistState w
  end.

(** The user clicks a checkbox: the browser flips [checked] and fires
    [change]. *)
Definition clickCheckbox (checkbox : path) (w : world) : world :=
  toggleCompleted checkbox
    (withDocument (updateAttrs checkbox (fun a => withChecked (negb (checked a)) a)
                               (document w)) w).



(** [draw(e)] *)
Definition draw (rect : domRect) (e : mouseEvent) (s : pad) : pad :=
  let w := padWorld s in
  if isDrawing w then
    match signatureCanvas w, signatureCtx w with
    | Some _, Some ctx =>
        let '(x, y) := getMousePos rect e in
        let path := currentPath s ++ [LineTo x y] in
        let stroke a := withCanvas (option_map (strokePath ctx path) (canvas a)) a in
        Pad (withDocument (updateAttrs (ctxCanvas ctx) stroke (document w)) w) path
    | _, _ => s
    end
  else s.




(** Saving now would change nothing: the storage holds the state of the
    form (or cannot be written). *)
Definition inSync (w : world) : Prop := saveChecklistState w = w.

End Handlers.

(** Every checklist checkbox has a parent of its own. *)
Definition ownParents (doc : node) : Prop :=
  NoDup (map (fun cb => fst <$> parentPath cb) (checklistCheckboxes doc)).

(** The [completed] marker of the parent of every checklist checkbox tells
    whether the checkbox is checked. *)
Definition markersAgree (doc : node) : Prop :=
  forall cb r n, In cb (checklistCheckboxes doc) -> parentPath cb = Some (r, n) ->
    hasClassAt (lit "completed") doc r = checkedAt doc cb.

(** ** Vocabulary for the items *)

(** Every white space of the text is one U+0020 that is followed by
    something else than white space. *)
Fixpoint singleSpaced (s : jsstring) : bool :=
  match s with
  | [] => true
  | c :: s' =>
      (if isWhiteSpace c
       then (c =? 32) && match s' with
                         | c' :: _ => negb (isWhiteSpace c')
                         | [] => false
                         end
       else true)
      && singleSpaced s'
  end.

(** Neither white space nor a comma at either end. *)
Definition isClean (s : jsstring) : Prop :=
  dropWhile isSpaceOrComma s = s /\ dropWhileEnd isSpaceOrComma s = s.

(** Every white space of the text is one U+0020 that is followed by
    something else than white space or ends the text. *)
Fixpoint spacedUpToEnd (s : jsstring) : bool :=
  match s with
  | [] => true
  | c :: s' =>
      (if isWhiteSpace c
       then (c =? 32) && match s' with
                         | c' :: _ => negb (isWhiteSpace c')
                         | [] => true
                         end
       else true)
      && spacedUpToEnd s'
  end.

(** ** The library load of generateChecklistPDF *)

Definition msgNoLibrary : jsstring :=
  lit "Could not load PDF library. Using print dialog instead.".

(** [script.onload] and [script.onerror] of the script element that
    [generateChecklistPDF] adds to the page head. *)
Definition scriptOnload (dateValue : jsstring) (w : world) : world :=
  Current.createPDF dateValue w.

Definition scriptOnerror (dateValue : jsstring) (w : world) : world :=
  Current.fallbackToPrint dateValue (alert msgNoLibrary w).

(** The second state shows the same form as the first, over the same
    storage and with the same script variables; it differs at most by
    messages and by queued callbacks that have been added. *)
Definition onlyReports (w w' : world) : Prop :=
  checkboxStates (document w') = checkboxStates (document w)
  /\ dateFieldValue (document w') = dateFieldValue (document w)
  /\ signatureBitmap w' = signatureBitmap w
  /\ localStorage w' = localStorage w
  /\ signatureCanvas w' = signatureCanvas w /\ signatureCtx w' = signatureCtx w
  /\ isDrawing w' = isDrawing w
  /\ (exists effects, log w' = log w ++ effects)
  /\ (exists queued, tasks w' = tasks w ++ queued).

(** ** Vocabulary for the form that the builder makes *)

(** The elements in and below a node that a selector matches, in document
    order. *)
Definition selPaths (s : selector) (inside : bool) (n : node) : list path :=
  List.filter (selectedAt s inside n) (paths n).

(** ['.interactive-checklist label'] *)
Definition labelSelector : selector :=
  Selector (fun inside a => jsEqb (tagName a) (lit "LABEL") && inside)
           (fun inside a => inside || hasClass (lit "interactive-checklist") a).

(** A node without form controls of its own: no [input], no [label], and
    none of the ids that the script looks up. *)
Fixpoint inertNode (n : node) : bool :=
  match n with
  | Element a cs =>
      negb (jsEqb (tagName a) (lit "INPUT")) && negb (jsEqb (tagName a) (lit "LABEL"))
      && negb (jsEqb (eid a) (lit "signature-canvas"))
      && negb (jsEqb (eid a) (lit "signature-date"))
      && forallb inertNode cs
  | _ => true
  end.

(** A page that has no form yet: no checklist checkbox, and no element with
    the id of the signature canvas or of the date field. *)
Definition noForm (doc : node) : Prop :=
  checklistCheckboxes doc = []
  /\ elementsWithId (lit "signature-canvas") doc = []
  /\ elementsWithId (lit "signature-date") doc = [].

(** A selector that matches form controls only: an [input], a [label], or
    an element with one of the two ids. *)
Definition matchesControlsOnly (s : selector) : Prop :=
  forall inside a,
    jsEqb (tagName a) (lit "INPUT") = false -> jsEqb (tagName a) (lit "LABEL") = false ->
    jsEqb (eid a) (lit "signature-canvas") = false ->
    jsEqb (eid a) (lit "signature-date") = false ->
    selects s inside a = false.

(** A form of [n] items that nobody has touched: nothing is checked and no
    item is marked, the date field holds what the browser made of today's
    date, and the script variables refer to the blank canvas of 400 by 150
    pixels. *)
Definition freshForm `{Host} (n : nat) (f : world) : Prop :=
  checkboxStates (document f) = replicate n false
  /\ ownParents (document f) /\ markersAgree (document f)
  /\ (exists dateInput,
        getElementById (lit "signature-date") (document f) = Some dateInput)
  /\ dateFieldValue (document f) = (if isValidDateString today then today else [])
  /\ (exists ctx,
        signatureCanvas f = Some (ctxCanvas ctx) /\ signatureCtx f = Some ctx
        /\ canvasAt (document f) (ctxCanvas ctx) = Some (blankBitmap 400 150)).

(** A signature for the examples, of the size of the canvas that the
    builder makes: the top row of pixels is black. *)
Definition topLine : bitmap :=
  Bitmap 400 150 (replicate 400 (Pixel 0 0 0 255)
                  :: replicate 149 (replicate 400 transparent)).

(** A host for the examples that knows one picture: every canvas is
    written as the same data URL, and that URL is read as [topLine]. *)
Definition onePictureHost : Host :=
  {| toLowerCase := TestHost.asciiLower;
     toUpperCase := TestHost.asciiUpper;
     parseFragment := TestHost.textFragment;
     serializeFragment := flat_map TestHost.serializeNode;
     today := lit "2024-05-01";
     toDataURL := fun _ => lit "data:image/png;base64,dG9wTGluZQ==";
     decodeImage := fun src =>
       if jsEqb src (lit "data:image/png;base64,dG9wTGluZQ==") then Some topLine else None;
     sourceOver := TestHost.over;
     JSON_stringify := TestHost.stringify;
     JSON_parse := TestHost.parse;
     valueToString := TestHost.toStringOf |}.

(** The form of the example page as a user left it: the first and the last
    item checked, the day before as the date, [topLine] as the signature. *)
Definition leftBehind : world :=
  let f := @Current.convertChecklistToInteractive onePictureHost Examples.firstVisit in
  let cbs := checklistCheckboxes (document f) in
  let check doc cb := updateAttrs cb (withChecked true) doc in
  let doc1 := check (check (document f) (default [] (cbs !! 0%nat))) (default [] (cbs !! 2%nat)) in
  let doc2 := match getElementById (lit "signature-date") doc1 with
              | Some d => updateAttrs d (setValue (lit "2024-04-30")) doc1
              | None => doc1
              end in
  let doc3 := match signatureCanvas f with
              | Some p => updateAttrs p (withCanvas (Some topLine)) doc2
              | None => doc2
              end in
  withDocument doc3 f.

(** The next visit of the example page. *)
Definition nextVisit : world :=
  Examples.visit (default ∅ (localStorage (@saveChecklistState onePictureHost leftBehind))).

(** ** The checklist of the PDF *)

(** [document.querySelectorAll('.interactive-checklist label')] *)
Definition checklistLabels (doc : node) : list path :=
  List.filter (isChecklistLabel doc) (paths doc).

(** The body of [labels.forEach] in [createPDF], up to the line wrapping:
    the box symbol and the text that are written for the label. *)
Definition pdfEntry (doc : node) (index : nat) (label : path) : N * jsstring :=
  let isChecked :=
    match checklistCheckboxes doc !! index with
    | Some cb => checkedAt doc cb
    | None => false                    (* checkboxes[index] is undefined *)
    end in
  (if isChecked then ballotBoxChecked else ballotBox, trim (textContentAt doc label)).

Definition pdfEntries (doc : node) : list (N * jsstring) :=
  imap (pdfEntry doc) (checklistLabels doc).

(** The entry that a reader of the PDF expects for an item. *)
Definition itemEntry `{Host} (isChecked : bool) (item : jsstring) : N * jsstring :=
  (if isChecked then ballotBoxChecked else ballotBox,
   trim (flat_map descendantText (parseFragment item))).

(** * Properties *)

(** ** Strings *)

(** Both sides of an equation between concatenations, associated to the
    right. *)
Ltac app_norm := repeat first [progress simpl | rewrite <- app_assoc].

Lemma dropWhile_app_all (p : N -> bool) (s t : jsstring) :
  forallb p s = true -> dropWhile p (s ++ t) = dropWhile p t.
Proof.
  induction s as [|c s IH]; simpl; [done|].
  intros [Hc Hs]%andb_prop. rewrite Hc. auto.
Qed.

Lemma dropWhile_stop (p : N -> bool) (c : N) (s : jsstring) :
  p c = false -> dropWhile p (c :: s) = c :: s.
Proof. intros Hc. simpl. by rewrite Hc. Qed.

Lemma dropWhileEnd_app_all (p : N -> bool) (s t : jsstring) :
  forallb p t = true -> dropWhileEnd p (s ++ t) = dropWhileEnd p s.
Proof.
  intros Ht. unfold dropWhileEnd. rewrite rev_app_distr.
  rewrite dropWhile_app_all; [done|].
  rewrite forallb_forall in *. intros x Hx. apply Ht. by apply in_rev.
Qed.

Lemma dropWhileEnd_snoc_stop (p : N -> bool) (s : jsstring) (c : N) :
  p c = false -> dropWhileEnd p (s ++ [c]) = s ++ [c].
Proof.
  intros Hc. unfold dropWhileEnd. rewrite rev_app_distr. simpl.
  rewrite Hc. simpl. by rewrite rev_involutive.
Qed.

Lemma forallb_replicate (p : N -> bool) (k : nat) (c : N) :
  p c = true -> forallb p (replicate k c) = true.
Proof. intros Hc. induction k; simpl; [done|]. by rewrite Hc. Qed.

Lemma splitOn_not_nil (p : N -> bool) (s : jsstring) : splitOn p s <> [].
Proof.
  induction s as [|c s IH]; simpl; [done|].
  destruct (p c); [done|]. by destruct (splitOn p s).
Qed.

Lemma splitOn_free (p : N -> bool) (s : jsstring) :
  forallb (fun c => negb (p c)) s = true -> splitOn p s = [s].
Proof.
  induction s as [|c s IH]; simpl; [done|].
  intros [Hc Hs]%andb_prop. apply negb_true_iff in Hc. rewrite Hc.
  by rewrite IH.
Qed.

Lemma splitOn_app_sep (p : N -> bool) (x : jsstring) (c : N) (s : jsstring) :
  forallb (fun c => negb (p c)) x = true -> p c = true ->
  splitOn p (x ++ c :: s) = x :: splitOn p s.
Proof.
  intros Hx Hc. induction x as [|d x IH]; simpl.
  - by rewrite Hc.
  - simpl in Hx. apply andb_prop in Hx as [Hd Hx].
    apply negb_true_iff in Hd. rewrite Hd, IH; done.
Qed.

Lemma join_cons (sep x : jsstring) (l : list jsstring) :
  join sep (x :: l) = x ++ flat_map (fun y => sep ++ y) l.
Proof.
  revert x. induction l as [|y l IH]; intros x.
  - simpl. by rewrite app_nil_r.
  - change (join sep (x :: y :: l)) with (x ++ sep ++ join sep (y :: l)).
    rewrite IH. simpl. by rewrite <- !app_assoc.
Qed.

(** ** Regular expressions: the matcher decides the words of a pattern *)

Lemma Matches_nil_nullable (r : regex) (s : jsstring) :
  Matches r s -> s = [] -> nullable r = true.
Proof.
  induction 1 as [| | r1 r2 s1 s2 _ IH1 _ IH2 | r1 r2 s _ IH | r1 r2 s _ IH | |];
    intros Hs; simpl; try done.
  - apply app_eq_nil in Hs as [-> ->]. by rewrite IH1, IH2.
  - by rewrite IH.
  - rewrite IH; [|done]. by destruct (nullable r1).
Qed.

Lemma nullable_Matches (r : regex) : nullable r = true -> Matches r [].
Proof.
  induction r as [| | p | r1 IH1 r2 IH2 | r1 IH1 r2 IH2 | r IH]; simpl; try done.
  - intros _. constructor.
  - intros [H1 H2]%andb_prop. apply (MCat r1 r2 [] []); auto.
  - intros [H1|H2]%orb_prop; [apply MAltL | apply MAltR]; auto.
  - intros _. constructor.
Qed.

Lemma deriv_sound (c : N) (r : regex) :
  forall s, Matches (deriv c r) s -> Matches r (c :: s).
Proof.
  induction r as [| | p | r1 IH1 r2 IH2 | r1 IH1 r2 IH2 | r IH]; simpl; intros s Hm.
  - inversion Hm.
  - inversion Hm.
  - destruct (p c) eqn:Hp; inversion Hm; subst. by constructor.
  - destruct (nullable r1) eqn:Hn.
    + inversion Hm as [| | | ? ? ? Hl | ? ? ? Hr | |]; subst.
      * inversion Hl; subst. apply (MCat r1 r2 (c :: _)); auto.
      * apply (MCat r1 r2 [] (c :: s)); auto using nullable_Matches.
    + inversion Hm; subst. apply (MCat r1 r2 (c :: _)); auto.
  - inversion Hm; subst; [apply MAltL | apply MAltR]; auto.
  - inversion Hm; subst. apply (MStarApp r (c :: _)); auto.
Qed.

Lemma deriv_complete (c : N) (r : regex) (t : jsstring) :
  Matches r t -> forall s, t = c :: s -> Matches (deriv c r) s.
Proof.
  induction 1 as [| p d Hp | r1 r2 s1 s2 H1 IH1 H2 IH2 | r1 r2 t H1 IH
                 | r1 r2 t H1 IH | r | r s1 s2 H1 IH1 H2 IH2];
    intros s Hs; simpl.
  - done.
  - injection Hs as -> <-. rewrite Hp. constructor.
  - destruct s1 as [|d s1].
    + simpl in Hs. subst s2.
      rewrite (Matches_nil_nullable r1 [] H1 eq_refl). apply MAltR. auto.
    + injection Hs as -> <-.
      destruct (nullable r1); [apply MAltL|]; apply MCat; auto.
  - apply MAltL. auto.
  - apply MAltR. auto.
  - done.
  - destruct s1 as [|d s1].
    + simpl in Hs. auto.
    + injection Hs as -> <-. apply MCat; auto.
Qed.

Lemma test_Matches (r : regex) (s : jsstring) : test r s = true <-> Matches r s.
Proof.
  revert r. induction s as [|c s IH]; intros r; simpl.
  - split; [apply nullable_Matches | intros Hm; by eapply Matches_nil_nullable].
  - rewrite IH. split; [apply deriv_sound | intros Hm; by eapply deriv_complete].
Qed.

Lemma Matches_star_pieces (r : regex) (t : jsstring) :
  Matches (Star r) t <->
  exists pieces, Forall (Matches r) pieces /\ t = concat pieces.
Proof.
  split.
  - intros Hm. remember (Star r) as r' eqn:Hr.
    induction Hm as [| | | | | r0 | r0 s1 s2 H1 _ H2 IH2]; try done.
    + exists []. by split.
    + injection Hr as ->. destruct (IH2 eq_refl) as (pieces & Hp & ->).
      exists (s1 :: pieces). split; [by constructor | done].
  - intros (pieces & Hp & ->). induction Hp; simpl; constructor; auto.
Qed.

Lemma Matches_star_class (p : N -> bool) (s : jsstring) :
  Matches (Star (Class p)) s <-> forallb p s = true.
Proof.
  rewrite Matches_star_pieces. split.
  - intros (pieces & Hp & ->). induction Hp as [|x l Hx _ IH]; simpl; [done|].
    inversion Hx; subst. simpl. by rewrite IH, andb_true_r.
  - intros Hs. exists (map (fun c => [c]) s). split.
    + induction s as [|c s IH]; simpl in *; constructor.
      * apply andb_prop in Hs as [Hc _]. by constructor.
      * apply IH. by apply andb_prop in Hs as [_ ?].
    + clear Hs. induction s as [|c s IH]; simpl; [done|]. by rewrite <- IH.
Qed.

Lemma Matches_plus_class (p : N -> bool) (s : jsstring) :
  Matches (Plus (Class p)) s <-> s <> [] /\ forallb p s = true.
Proof.
  unfold Plus. split.
  - intros Hm. inversion Hm as [| | ? ? s1 s2 H1 H2 | | | |]; subst.
    inversion H1; subst. apply Matches_star_class in H2. simpl.
    split; [done|]. by rewrite H2, andb_true_r.
  - intros [Hne Hs]. destruct s as [|c s]; [done|]. simpl in Hs.
    apply andb_prop in Hs as [Hc Hs].
    apply (MCat _ _ [c] s); [by constructor | by apply Matches_star_class].
Qed.

Lemma isNumber_spec (s : jsstring) :
  isNumber s = true <-> s <> [] /\ forallb isDigit s = true.
Proof.
  destruct s as [|c s]; simpl.
  - split; [done | by intros [? _]].
  - split; [by intros ? | by intros [_ ?]].
Qed.

Lemma Matches_dot_number (s : jsstring) :
  Matches (Cat (Class isDot) (Plus (Class isDigit))) s <->
  exists n, isNumber n = true /\ s = 46 :: n.
Proof.
  split.
  - intros Hm. inversion Hm as [| | ? ? s1 s2 H1 H2 | | | |]; subst.
    inversion H1 as [| p c Hc | | | | |]; subst.
    apply Matches_plus_class in H2. exists s2. split; [by apply isNumber_spec|].
    unfold isDot in Hc. apply N.eqb_eq in Hc. by subst.
  - intros (n & Hn & ->). apply (MCat _ _ [46] n); [by constructor|].
    apply Matches_plus_class. by apply isNumber_spec.
Qed.

Lemma Matches_dot_numbers (s : jsstring) :
  Matches (Star (Cat (Class isDot) (Plus (Class isDigit)))) s <->
  exists comps, forallb isNumber comps = true
                /\ s = flat_map (fun n => [46] ++ n) comps.
Proof.
  rewrite Matches_star_pieces. split.
  - intros (pieces & Hp & ->). induction Hp as [|x l Hx _ (comps & Hc & IH)].
    + by exists [].
    + apply Matches_dot_number in Hx as (n & Hn & ->).
      exists (n :: comps). simpl. rewrite Hn, Hc. simpl in IH. by rewrite IH.
  - intros (comps & Hc & ->). exists (map (fun n => 46 :: n) comps). split.
    + induction comps as [|n comps IH]; simpl in *; constructor.
      * apply Matches_dot_number. exists n. by apply andb_prop in Hc as [? _].
      * apply IH. by apply andb_prop in Hc as [_ ?].
    + clear Hc. induction comps as [|n comps IH]; [done|].
      simpl. simpl in IH. by rewrite IH.
Qed.

(** ** fixEnumerationNumbering *)

Lemma Matches_cat (r1 r2 : regex) (s : jsstring) :
  Matches (Cat r1 r2) s <->
  exists s1 s2, s = s1 ++ s2 /\ Matches r1 s1 /\ Matches r2 s2.
Proof.
  split.
  - intros Hm. inversion Hm; subst. eauto.
  - intros (s1 & s2 & -> & H1 & H2). by constructor.
Qed.

Lemma forallb_isDot_replicate (d : jsstring) :
  forallb isDot d = true -> d = replicate (length d) 46.
Proof.
  induction d as [|c d IH]; simpl; [done|].
  intros [Hc Hd]%andb_prop. unfold isDot in Hc. apply N.eqb_eq in Hc.
  subst c. by rewrite <- IH.
Qed.

Lemma isDigit_not_dot (c : N) : isDigit c = true -> isDot c = false.
Proof.
  unfold isDigit, isDot. intros [H1 H2]%andb_prop.
  apply N.leb_le in H1. apply N.eqb_neq. lia.
Qed.

Lemma isNumber_no_dot (n : jsstring) :
  isNumber n = true -> forallb (fun c => negb (isDot c)) n = true.
Proof.
  intros [_ Hn]%isNumber_spec. rewrite forallb_forall in *.
  intros c Hc. by rewrite (isDigit_not_dot c (Hn c Hc)).
Qed.

Lemma isNumber_snoc (n : jsstring) :
  isNumber n = true -> exists s c, n = s ++ [c] /\ isDot c = false.
Proof.
  intros [Hne Hn]%isNumber_spec.
  destruct (exists_last Hne) as (s & c & ->). exists s, c. split; [done|].
  apply isDigit_not_dot. rewrite forallb_app in Hn. simpl in Hn.
  apply andb_prop in Hn as [_ Hc]. by apply andb_prop in Hc as [? _].
Qed.

Lemma join_numbers_snoc (comps : list jsstring) :
  comps <> [] -> forallb isNumber comps = true ->
  exists s c, join [46] comps = s ++ [c] /\ isDot c = false.
Proof.
  induction comps as [|n comps IH]; [done|]. intros _ Hc. simpl in Hc.
  apply andb_prop in Hc as [Hn Hc]. destruct comps as [|m comps].
  - simpl. by apply isNumber_snoc.
  - destruct (IH ltac:(done) Hc) as (s & c & Hs & Hdot).
    exists (n ++ [46] ++ s), c. split; [|done].
    change (join [46] (n :: m :: comps)) with (n ++ [46] ++ join [46] (m :: comps)).
    rewrite Hs. by rewrite <- !app_assoc.
Qed.

Lemma splitOn_join_numbers (comps : list jsstring) :
  comps <> [] -> forallb isNumber comps = true ->
  splitOn isDot (join [46] comps) = comps.
Proof.
  induction comps as [|n comps IH]; [done|]. intros _ Hc. simpl in Hc.
  apply andb_prop in Hc as [Hn Hc]. destruct comps as [|m comps].
  - simpl. apply splitOn_free. by apply isNumber_no_dot.
  - change (join [46] (n :: m :: comps)) with (n ++ 46 :: join [46] (m :: comps)).
    rewrite splitOn_app_sep; [|by apply isNumber_no_dot|done].
    by rewrite IH.
Qed.

(** The pattern of the script accepts exactly the labels that the
    specification describes. *)
Lemma enumerationPattern_spec (text : jsstring) :
  test enumerationPattern text = true <->
  exists comps dots, isEnumeration comps dots text.
Proof.
  rewrite test_Matches. unfold enumerationPattern, AtLeast2. split.
  - intros (n0 & t1 & -> & H0 & (t2 & d & -> & H2 & Hd)%Matches_cat)%Matches_cat.
    apply Matches_cat in H2 as (x1 & t3 & -> & Hx1 & H3).
    apply Matches_cat in H3 as (x2 & xs & -> & Hx2 & Hxs).
    apply Matches_plus_class, isNumber_spec in H0.
    apply Matches_dot_number in Hx1 as (n1 & Hn1 & ->).
    apply Matches_dot_number in Hx2 as (n2 & Hn2 & ->).
    apply Matches_dot_numbers in Hxs as (ns & Hns & ->).
    apply Matches_star_class, forallb_isDot_replicate in Hd.
    exists (n0 :: n1 :: n2 :: ns), (length d). repeat split.
    + simpl. lia.
    + simpl. by rewrite H0, Hn1, Hn2, Hns.
    + rewrite join_cons, <- Hd. by app_norm.
  - intros (comps & dots & Hlen & Hc & ->).
    destruct comps as [|n0 [|n1 [|n2 ns]]]; simpl in Hlen; try lia.
    simpl in Hc.
    apply andb_prop in Hc as [H0 Hc]. apply andb_prop in Hc as [H1 Hc].
    apply andb_prop in Hc as [H2 Hns].
    rewrite join_cons.
    apply Matches_cat.
    exists n0, (flat_map (fun y => [46] ++ y) (n1 :: n2 :: ns) ++ replicate dots 46).
    split; [by rewrite <- app_assoc|].
    split; [by apply Matches_plus_class, isNumber_spec|].
    apply MCat; [|by apply Matches_star_class, forallb_replicate].
    simpl. apply (MCat _ _ (46 :: n1)); [apply Matches_dot_number; eauto|].
    apply (MCat _ _ (46 :: n2)); [apply Matches_dot_number; eauto|].
    apply Matches_dot_numbers. eauto.
Qed.

(** What the script computes for such a label: its last component and one
    period. *)
Lemma fixedEnumerationText_last (comps : list jsstring) (dots : nat) (tc : jsstring) :
  isEnumeration comps dots (trim tc) ->
  fixedEnumerationText tc = Some (default [] (last comps) ++ lit ".").
Proof.
  intros Hshape. unfold fixedEnumerationText.
  assert (Ht : test enumerationPattern (trim tc) = true)
    by (apply enumerationPattern_spec; eauto).
  rewrite Ht. destruct Hshape as (Hlen & Hc & ->).
  assert (Hne : comps <> []) by (intros ->; simpl in Hlen; lia).
  rewrite dropWhileEnd_app_all by (by apply forallb_replicate).
  destruct (join_numbers_snoc comps Hne Hc) as (s & c & Hs & Hdot).
  rewrite Hs, dropWhileEnd_snoc_stop, <- Hs by done.
  rewrite splitOn_join_numbers by done.
  unfold lastPart. destruct (last comps) eqn:Hl; [done|].
  apply last_None in Hl. done.
Qed.

(** What one [dt] becomes: a label of three or more dot-separated numbers is
    replaced by its last number and a period, any other text stays. *)
Lemma fixDt_cases (a : attrs) (cs : list node) :
  let text := trim (textContent (Element a cs)) in
  (forall comps dots, isEnumeration comps dots text ->
     fixDt (Element a cs) = Element a [TextNode (default [] (last comps) ++ lit ".")])
  /\ ((forall comps dots, ~ isEnumeration comps dots text) ->
      fixDt (Element a cs) = Element a cs).
Proof.
  intros text. split.
  - intros comps dots Hshape. unfold fixDt.
    rewrite (fixedEnumerationText_last comps dots) by done.
    by destruct (default [] (last comps)).
  - intros Hno. unfold fixDt, fixedEnumerationText. fold text.
    destruct (test enumerationPattern text) eqn:Ht; [|done].
    apply enumerationPattern_spec in Ht as (comps & dots & Hshape).
    by destruct (Hno comps dots).
Qed.

(** ** The page: lookups after updates *)

Lemma lookupNode_updateNode (p : path) (f : node -> node) (n : node) :
  lookupNode p (updateNode p f n) = f <$> lookupNode p n.
Proof.
  revert n. induction p as [|i p IH]; intros n; simpl; [done|].
  destruct n as [d|d|a cs]; simpl; try done.
  rewrite list_lookup_alter_eq. destruct (cs !! i) as [c|]; simpl; auto.
Qed.

Lemma lookupNode_app (p q : path) (n : node) :
  lookupNode (p ++ q) n =
  match lookupNode p n with
  | Some m => lookupNode q m
  | None => None
  end.
Proof.
  revert n. induction p as [|i p IH]; intros n; simpl; [done|].
  destruct n as [d|d|a cs]; try done. destruct (cs !! i); auto.
Qed.

Lemma attrsAt_cons (a : attrs) (cs : list node) (i : nat) (q : path) :
  attrsAt (Element a cs) (i :: q) =
  match cs !! i with
  | Some c => attrsAt c q
  | None => None
  end.
Proof. unfold attrsAt. simpl. by destruct (cs !! i). Qed.

Lemma attrsAt_updateAttrs (p q : path) (f : attrs -> attrs) (doc : node) :
  attrsAt (updateAttrs p f doc) q =
  if decide (q = p) then f <$> attrsAt doc q else attrsAt doc q.
Proof.
  unfold attrsAt, updateAttrs. revert p doc.
  induction q as [|j q IH]; intros p doc.
  - destruct p as [|i p]; simpl.
    + by destruct doc.
    + by destruct doc.
  - destruct p as [|i p].
    + destruct doc as [d|d|a cs]; simpl; try done.
    + destruct doc as [d|d|a cs]; simpl; try (by case_decide).
      destruct (decide (j = i)) as [->|Hne].
      * rewrite list_lookup_alter_eq. destruct (cs !! i) as [c|]; simpl.
        -- rewrite IH. repeat case_decide; congruence.
        -- by case_decide.
      * rewrite list_lookup_alter_ne by done.
        case_decide; [congruence|done].
Qed.

Lemma attrsAt_updateAttrs_eq (p : path) (f : attrs -> attrs) (doc : node) :
  attrsAt (updateAttrs p f doc) p = f <$> attrsAt doc p.
Proof. rewrite attrsAt_updateAttrs. by case_decide. Qed.

Lemma attrsAt_updateAttrs_ne (p q : path) (f : attrs -> attrs) (doc : node) :
  q <> p -> attrsAt (updateAttrs p f doc) q = attrsAt doc q.
Proof. intros Hne. rewrite attrsAt_updateAttrs. by case_decide. Qed.

Lemma childPaths_alter (h : node -> node) (i k : nat) (cs : list node) :
  (forall c, cs !! i = Some c -> paths (h c) = paths c) ->
  childPaths paths k (alter h i cs) = childPaths paths k cs.
Proof.
  revert i k. induction cs as [|c cs IH]; intros i k Hh; [done|].
  destruct i as [|i]; simpl.
  - by rewrite (Hh c).
  - f_equal. apply IH. intros c' Hc'. by apply Hh.
Qed.

Lemma paths_updateAttrs (p : path) (f : attrs -> attrs) (doc : node) :
  paths (updateAttrs p f doc) = paths doc.
Proof.
  unfold updateAttrs. revert doc. induction p as [|i p IH]; intros doc.
  - by destruct doc.
  - destruct doc as [d|d|a cs]; simpl; try done.
    f_equal. apply childPaths_alter. intros c _. apply IH.
Qed.

Lemma childPaths_In (k : nat) (cs : list node) (q : path) :
  In q (childPaths paths k cs) ->
  exists i c q', q = i :: q' /\ (k <= i)%nat /\ cs !! (i - k)%nat = Some c /\ In q' (paths c).
Proof.
  revert k. induction cs as [|c cs IH]; intros k; simpl; [done|].
  rewrite in_app_iff, in_map_iff. intros [(q' & <- & Hq')|Hin].
  - exists k, c, q'. rewrite Nat.sub_diag. auto.
  - destruct (IH _ Hin) as (i & c' & q' & -> & Hle & Hc' & Hq').
    exists i, c', q'. repeat split; [lia| |done].
    replace (i - k)%nat with (S (i - S k)) by lia. done.
Qed.

(** Induction over a page, children included. *)
Lemma node_ind_children (P : node -> Prop)
    (Ht : forall d, P (TextNode d)) (Hc : forall d, P (CommentNode d))
    (He : forall a cs, Forall P cs -> P (Element a cs)) : forall n, P n.
Proof.
  exact (fix IH (n : node) : P n :=
    match n with
    | TextNode d => Ht d
    | CommentNode d => Hc d
    | Element a cs =>
        He a cs ((fix go (l : list node) : Forall P l :=
                    match l with
                    | [] => List.Forall_nil P
                    | c :: l' => @List.Forall_cons _ P c l' (IH c) (go l')
                    end) cs)
    end).
Qed.

Lemma paths_NoDup (n : node) : NoDup (paths n).
Proof.
  induction n as [d|d|a cs IH] using node_ind_children; simpl.
  1,2: apply NoDup_singleton.
  apply NoDup_cons. split.
  - rewrite list_elem_of_In. intros Hin.
    by destruct (childPaths_In _ _ _ Hin) as (i & c & q' & ? & _).
  - generalize 0%nat as k. induction IH as [|c cs Hc _ IHcs]; intros k; simpl.
    + constructor.
    + apply NoDup_app. split; [|split].
      * change (NoDup (cons k <$> paths c)). apply NoDup_fmap; [|done].
        by intros ?? [= ->].
      * intros q Hq1 Hq2. rewrite list_elem_of_In in Hq1, Hq2.
        apply in_map_iff in Hq1 as (q' & <- & _).
        apply childPaths_In in Hq2 as (i & c' & q'' & [= -> ->] & Hle & _). lia.
      * apply IHcs.
Qed.

(** ** The signature bitmap *)

Lemma pixelAt_clearRect (x y w h : nat) (b : bitmap) (col row : nat) :
  pixelAt (clearRect x y w h b) col row =
  if inRect x y w h col row then transparent else pixelAt b col row.
Proof.
  unfold pixelAt, clearRect. simpl. rewrite list_lookup_imap.
  destruct (rows b !! row) as [r|]; simpl.
  - rewrite list_lookup_imap. destruct (r !! col); simpl; by destruct (inRect _ _ _ _ _ _).
  - by destruct (inRect _ _ _ _ _ _).
Qed.

Lemma flat_map_map {A B C : Type} (f : B -> list C) (g : A -> B) (l : list A) :
  flat_map f (map g l) = flat_map (fun x => f (g x)) l.
Proof. induction l as [|x l IH]; simpl; [done|]. by rewrite IH. Qed.

Lemma flat_map_flat_map {A B C : Type} (f : B -> list C) (g : A -> list B) (l : list A) :
  flat_map f (flat_map g l) = flat_map (fun x => flat_map f (g x)) l.
Proof.
  induction l as [|x l IH]; simpl; [done|]. by rewrite flat_map_app, IH.
Qed.

Lemma getImageData_pixels (b : bitmap) :
  getImageData 0 0 (width b) (height b) b = flat_map pixelBytes (pixelsIn b).
Proof.
  unfold getImageData, pixelsIn. rewrite flat_map_flat_map.
  apply flat_map_ext. intros row. by rewrite flat_map_map.
Qed.

Lemma In_pixelsIn (b : bitmap) (px : pixel) :
  In px (pixelsIn b) <->
  exists col row, (col < width b)%nat /\ (row < height b)%nat /\ px = pixelAt b col row.
Proof.
  unfold pixelsIn. rewrite in_flat_map. split.
  - intros (row & Hrow & (col & <- & Hcol)%in_map_iff).
    apply in_seq in Hrow, Hcol. exists col, row. repeat split; lia.
  - intros (col & row & Hc & Hr & ->). exists row. split; [apply in_seq; lia|].
    apply in_map_iff. exists col. split; [done|]. apply in_seq. lia.
Qed.

Lemma length_pixel_bytes (pxs : list pixel) :
  length (flat_map pixelBytes pxs) = (4 * length pxs)%nat.
Proof. induction pxs as [|p pxs IH]; simpl; [done|]. rewrite IH. lia. Qed.

Lemma lookup_alpha_byte (pxs : list pixel) (k : nat) :
  flat_map pixelBytes pxs !! (4 * k + 3)%nat = alpha <$> pxs !! k.
Proof.
  revert k. induction pxs as [|p pxs IH]; intros k; [done|].
  destruct k as [|k]; [done|].
  replace (4 * S k + 3)%nat with (S (S (S (S (4 * k + 3))))) by lia.
  simpl. apply IH.
Qed.

(** The loop looks at the alpha byte of every pixel, in order, until one is
    positive. *)
Lemma alphaLoop_existsb (pxs : list pixel) (fuel k : nat) :
  (length pxs <= k + fuel)%nat ->
  alphaLoop fuel (flat_map pixelBytes pxs) (4 * k + 3) =
  existsb (fun p => (alpha p >? 0)%Z) (drop k pxs).
Proof.
  revert k. induction fuel as [|fuel IH]; intros k Hlen; cbn [alphaLoop].
  - by rewrite drop_ge by lia.
  - rewrite length_pixel_bytes, lookup_alpha_byte.
    destruct (pxs !! k) as [p|] eqn:Hp.
    + assert (k < length pxs)%nat by (by eapply lookup_lt_Some).
      replace (4 * k + 3 <? 4 * length pxs)%nat with true
        by (symmetry; apply Nat.ltb_lt; lia).
      rewrite (drop_S _ _ _ Hp).
      cbn [existsb fmap option_fmap option_map default from_option]. unfold id.
      destruct (alpha p >? 0)%Z; [done|]. cbn [orb].
      replace (4 * k + 3 + 4)%nat with (4 * S k + 3)%nat by lia.
      apply IH. lia.
    + apply lookup_ge_None in Hp.
      replace (4 * k + 3 <? 4 * length pxs)%nat with false
        by (symmetry; apply Nat.ltb_ge; lia).
      by rewrite drop_ge by lia.
Qed.

(** The check of [emailChecklist] finds a signature exactly when some pixel
    of the canvas is not fully transparent. *)
Lemma hasSignature_spec (b : bitmap) :
  hasSignature b = true <->
  exists col row, (col < width b)%nat /\ (row < height b)%nat
                  /\ (0 < alpha (pixelAt b col row))%Z.
Proof.
  unfold hasSignature. rewrite getImageData_pixels.
  change 3%nat with (4 * 0 + 3)%nat.
  rewrite alphaLoop_existsb by (rewrite length_pixel_bytes; lia).
  rewrite drop_0, existsb_exists. split.
  - intros (px & (col & row & Hc & Hr & ->)%In_pixelsIn & Ha).
    exists col, row. repeat split; try done. by apply Z.gtb_lt in Ha.
  - intros (col & row & Hc & Hr & Ha). exists (pixelAt b col row). split.
    + apply In_pixelsIn. eauto.
    + by apply Z.gtb_lt.
Qed.

Lemma hasSignature_clearRect (b : bitmap) :
  hasSignature (clearRect 0 0 (width b) (height b) b) = false.
Proof.
  apply not_true_is_false. intros (col & row & Hc & Hr & Ha)%hasSignature_spec.
  simpl in Hc, Hr. rewrite pixelAt_clearRect in Ha.
  replace (inRect 0 0 (width b) (height b) col row) with true in Ha; [done|].
  symmetry. unfold inRect. rewrite !andb_true_iff.
  repeat split; try done; apply Nat.ltb_lt; lia.
Qed.

(** ** emailChecklist: the three checks *)

Lemma forallb_id_map {A : Type} (f : A -> bool) (l : list A) :
  forallb id (map f l) = forallb f l.
Proof. induction l as [|x l IH]; simpl; [done|]. by rewrite IH. Qed.

Lemma alert_abortsWith (message : jsstring) (w : world) :
  abortsWith message w (alert message w).
Proof. by repeat split. Qed.

Lemma emailChecklistWith_checks (proceed : jsstring -> world -> world)
    (w : world) (p : path) (b : bitmap) :
  signatureCanvas w = Some p -> canvasAt (document w) p = Some b ->
  checksInOrder (emailChecklistWith proceed) proceed w b.
Proof.
  intros Hcanvas Hbitmap. unfold checksInOrder, emailChecklistWith, checkboxStates.
  rewrite forallb_id_map, Hcanvas, Hbitmap.
  destruct (forallb _ _) eqn:Hall; simpl.
  2: { split_and!; intros; first [done | apply alert_abortsWith]. }
  destruct (hasSignature b) eqn:Hsig; simpl.
  - apply hasSignature_spec in Hsig. fold (hasInk b) in Hsig.
    unfold dateFieldValue.
    split_and!; try done.
    + intros _ _ Hdate.
      destruct (getElementById _ _); [rewrite Hdate|]; apply alert_abortsWith.
    + intros _ _ Hdate.
      destruct (getElementById _ _); [|done]. by destruct (valueAt _ _).
  - assert (~ hasInk b).
    { intros Hink. apply hasSignature_spec in Hink. congruence. }
    split_and!; intros; first [done | apply alert_abortsWith].
Qed.

(** C2.  In each version of [emailChecklist], on a page whose signature pad
    has been set up, the checks run in the order checkboxes, signature,
    date; the first that fails shows its message and ends the export with
    nothing else changed, and only when all three hold does the export go
    on. *)
Theorem emailChecklist_checks_in_order `{Host} (w : world) (p : path) (b : bitmap) :
  signatureCanvas w = Some p -> canvasAt (document w) p = Some b ->
  checksInOrder Current.emailChecklist Current.generateChecklistPDF w b
  /\ checksInOrder ParagraphVariant.emailChecklist mailAndPrint w b
  /\ checksInOrder FullTextVariant.emailChecklist mailAndPrint w b.
Proof.
  intros Hcanvas Hbitmap.
  split; [|split]; exact (emailChecklistWith_checks _ w p b Hcanvas Hbitmap).
Qed.

(** The export itself: with the library loaded the PDF is downloaded; the
    earlier versions open the mail link. *)
Lemma proceed_effects `{Host} (dateValue : jsstring) (w : world) :
  (jsPDFLoaded w = true ->
   log (Current.generateChecklistPDF dateValue w) =
   log w ++ [Download (lit "lab-manual-checklist-" ++ dateValue ++ lit ".pdf")])
  /\ log (mailAndPrint dateValue w) = log w ++ [MailTo mailSubject (printInstructions dateValue)].
Proof.
  split; [|done]. intros Hlib. unfold Current.generateChecklistPDF. by rewrite Hlib.
Qed.

(** ** clearSignature *)

Lemma saveChecklistState_frame `{Host} (w : world) :
  document (saveChecklistState w) = document w
  /\ signatureCanvas (saveChecklistState w) = signatureCanvas w
  /\ signatureCtx (saveChecklistState w) = signatureCtx w
  /\ log (saveChecklistState w) = log w
  /\ tasks (saveChecklistState w) = tasks w.
Proof.
  unfold saveChecklistState.
  destruct (signatureCanvas w) as [p|] eqn:Hp; simpl.
  - destruct (canvasAt (document w) p); simpl; [|by rewrite Hp].
    destruct (localStorage w); simpl; by rewrite ?Hp.
  - destruct (localStorage w); simpl; by rewrite ?Hp.
Qed.

Lemma canvasAt_updateAttrs_withCanvas (p : path) (g : bitmap -> bitmap) (doc : node) :
  canvasAt (updateAttrs p (fun a => withCanvas (option_map g (canvas a)) a) doc) p =
  option_map g (canvasAt doc p).
Proof.
  unfold canvasAt. rewrite attrsAt_updateAttrs_eq. by destruct (attrsAt doc p).
Qed.

(** After [clearSignature] the canvas is the cleared bitmap. *)
Lemma clearSignature_bitmap `{Host} (w : world) (ctx : context2d) (b : bitmap) :
  signatureCtx w = Some ctx -> signatureCanvas w = Some (ctxCanvas ctx) ->
  canvasAt (document w) (ctxCanvas ctx) = Some b ->
  signatureCanvas (clearSignature w) = Some (ctxCanvas ctx)
  /\ canvasAt (document (clearSignature w)) (ctxCanvas ctx)
     = Some (clearRect 0 0 (width b) (height b) b).
Proof.
  intros Hctx Hcanvas Hb. unfold clearSignature, signatureBitmap.
  rewrite Hctx, Hcanvas, Hb.
  destruct (saveChecklistState_frame
              (withDocument (updateAttrs (ctxCanvas ctx)
                 (fun a => withCanvas (option_map (clearRect 0 0 (width b) (height b)) (canvas a)) a)
                 (document w)) w)) as (Hdoc & Hsc & _).
  rewrite Hdoc, Hsc. simpl. split; [done|].
  by rewrite canvasAt_updateAttrs_withCanvas, Hb.
Qed.

(** C7.  After [clearSignature] the canvas has no pixel with a positive
    alpha byte, the check of [emailChecklist] (true exactly for a bitmap
    with such a pixel) is false on it, and every version of the export stops
    at a message: at the signature message when all checkboxes are
    checked. *)
Theorem clearSignature_leaves_no_signature `{Host}
    (w : world) (ctx : context2d) (b : bitmap) :
  signatureCtx w = Some ctx -> signatureCanvas w = Some (ctxCanvas ctx) ->
  canvasAt (document w) (ctxCanvas ctx) = Some b ->
  let w' := clearSignature w in
  (forall b0, hasSignature b0 = true <-> hasInk b0)
  /\ exists cleared,
       signatureBitmap w' = Some cleared /\ hasSignature cleared = false
       /\ ~ hasInk cleared
       /\ forall email,
            In email [Current.emailChecklist; ParagraphVariant.emailChecklist;
                      FullTextVariant.emailChecklist] ->
            (exists message, abortsWith message w' (email w'))
            /\ (forallb id (checkboxStates (document w')) = true ->
                abortsWith msgSignature w' (email w')).
Proof.
  intros Hctx Hcanvas Hb w'. split; [apply hasSignature_spec|].
  destruct (clearSignature_bitmap w ctx b Hctx Hcanvas Hb) as [Hsc Hcleared].
  fold w' in Hsc, Hcleared.
  exists (clearRect 0 0 (width b) (height b) b).
  assert (Hno : ~ hasInk (clearRect 0 0 (width b) (height b) b)).
  { intros Hink%hasSignature_spec. by rewrite hasSignature_clearRect in Hink. }
  split; [by unfold signatureBitmap; rewrite Hsc|].
  split; [apply hasSignature_clearRect|]. split; [done|].
  intros email Hemail.
  assert (Hchecks : exists proceed, checksInOrder email proceed w'
                      (clearRect 0 0 (width b) (height b) b)).
  { simpl in Hemail.
    destruct Hemail as [<-|[<-|[<-|[]]]]; eexists;
      by eapply emailChecklistWith_checks. }
  destruct Hchecks as (proceed & Hall & Hsig & _). split; [|by intros ?; apply Hsig].
  destruct (forallb id (checkboxStates (document w'))) eqn:Hc; eauto.
Qed.

(** ** The checklist heading *)

Lemma fold_left_last_match {A : Type} (m : A -> bool) (l : list A) (init : option A) :
  fold_left (fun acc h => if m h then Some h else acc) l init =
  match last (List.filter m l) with
  | Some h => Some h
  | None => init
  end.
Proof.
  revert init. induction l as [|x l IH]; intros init; simpl; [done|].
  rewrite IH. destruct (m x) eqn:Hx; [|done].
  change (x :: List.filter m l) with ([x] ++ List.filter m l).
  destruct (List.filter m l) as [|y l'] eqn:Hl; [done|].
  rewrite last_app. by destruct (last (y :: l')).
Qed.

Lemma filter_none {A : Type} (m : A -> bool) (l : list A) :
  (forall x, In x l -> m x = false) -> List.filter m l = [].
Proof.
  induction l as [|x l IH]; simpl; [done|]. intros Hno.
  rewrite (Hno x) by (by left). apply IH. intros y Hy. apply Hno. by right.
Qed.

(** C8.  The heading that the three versions select is the last one, in
    document order, of the [h2] elements whose lower-cased text contains
    both words; so of several matching headings the last one is taken. *)
Theorem findChecklistHeading_last_match `{Host} (doc : node) :
  findChecklistHeading doc =
  last (List.filter (isChecklistHeading doc) (querySelectorAllTag (lit "H2") doc))
  /\ forall before h after,
       querySelectorAllTag (lit "H2") doc = before ++ h :: after ->
       isChecklistHeading doc h = true ->
       (forall h', In h' after -> isChecklistHeading doc h' = false) ->
       findChecklistHeading doc = Some h.
Proof.
  assert (Heq : findChecklistHeading doc =
                last (List.filter (isChecklistHeading doc)
                                  (querySelectorAllTag (lit "H2") doc))).
  { unfold findChecklistHeading. rewrite fold_left_last_match.
    by destruct (last _). }
  split; [done|]. intros before h after Hh2 Hh Hafter.
  rewrite Heq, Hh2, List.filter_app. simpl. rewrite Hh.
  rewrite (filter_none _ after) by done. by rewrite last_snoc.
Qed.

Lemma findChecklistHeading_None `{Host} (doc : node) :
  (forall h, In h (querySelectorAllTag (lit "H2") doc) ->
             isChecklistHeading doc h = false) ->
  findChecklistHeading doc = None.
Proof.
  intros Hno. unfold findChecklistHeading. rewrite fold_left_last_match.
  by rewrite filter_none.
Qed.

(** C6.  On a page without an [h2] whose text contains both words, each
    version of the builder returns the state it was given: the page, the
    script variables, the storage, the queue and the messages are the
    same. *)
Theorem convertChecklistToInteractive_without_heading `{Host} (w : world) :
  (forall h, In h (querySelectorAllTag (lit "H2") (document w)) ->
             isChecklistHeading (document w) h = false) ->
  Current.convertChecklistToInteractive w = w
  /\ ParagraphVariant.convertChecklistToInteractive w = w
  /\ FullTextVariant.convertChecklistToInteractive w = w.
Proof.
  intros Hno%findChecklistHeading_None.
  unfold Current.convertChecklistToInteractive,
    ParagraphVariant.convertChecklistToInteractive,
    FullTextVariant.convertChecklistToInteractive.
  by rewrite Hno.
Qed.

(** ** The delimiters of the item extractors *)

Lemma splitOn_splitsExactlyAt (p : N -> bool) : splitsExactlyAt p (splitOn p).
Proof.
  intros text. induction text as [|c s (IHlen & IHfree & IHcat)]; simpl.
  - repeat split. by constructor.
  - destruct (p c) eqn:Hc; simpl.
    + rewrite IHlen. repeat split; [by constructor|done].
    + destruct (splitOn p s) as [|part parts] eqn:Hs; [done|].
      simpl in *. rewrite <- IHcat. repeat split; [done|].
      inversion IHfree; subst. constructor; [simpl; by rewrite Hc|done].
Qed.

Lemma pushItem_longItems (cur : jsstring) (items : list jsstring) :
  Current.pushItem cur items = items ++ longItems [cur].
Proof.
  unfold Current.pushItem, longItems. simpl.
  destruct (15 <? length (trim cur))%nat; [done|by rewrite app_nil_r].
Qed.

Lemma longItems_app (s t : list jsstring) :
  longItems (s ++ t) = longItems s ++ longItems t.
Proof. unfold longItems. by rewrite List.map_app, List.filter_app. Qed.

Lemma splitNodes_not_nil (delimiter : node -> bool) (nodes : list node) :
  splitNodes delimiter nodes <> [].
Proof.
  induction nodes as [|n nodes IH]; simpl; [done|].
  destruct (delimiter n); [done|]. by destruct (splitNodes delimiter nodes).
Qed.

Section CurrentWalk.
Context `{Host}.

(** Once a checkbox has been met, the walk holds the finished segments in
    [items] and the text of the open segment in [currentItem]. *)
Lemma walk_found (nodes : list node) (items : list jsstring) (cur : jsstring) :
  exists seg segs,
    splitNodes Current.isCheckbox nodes = seg :: segs
    /\ fold_left Current.walkStep nodes (Current.Walk items cur true) =
       let texts := (cur ++ segmentText seg) :: map segmentText segs in
       Current.Walk (items ++ longItems (removelast texts)) (List.last texts []) true.
Proof.
  revert items cur. induction nodes as [|n nodes IH]; intros items cur.
  - exists [], []. split; [done|]. simpl. by rewrite !app_nil_r.
  - simpl. unfold Current.walkStep at 2. simpl.
    destruct (Current.isCheckbox n) eqn:Hn.
    + destruct (IH (Current.pushItem cur items) []) as (seg & segs & Hsplit & Hwalk).
      exists [], (seg :: segs). split; [by rewrite Hsplit|].
      rewrite Hwalk. cbv zeta. f_equal.
      rewrite pushItem_longItems, <- app_assoc, <- longItems_app.
      do 2 f_equal. simpl. by rewrite app_nil_r.
    + assert (Hstep : (match n with
                       | TextNode d => Current.Walk items (cur ++ d) true
                       | CommentNode _ => Current.Walk items cur true
                       | Element a _ =>
                           if jsEqb (tagName a) (lit "DIV") then Current.Walk items cur true
                           else Current.Walk items (cur ++ textContent n) true
                       end) = Current.Walk items (cur ++ gatheredText n) true).
      { destruct n as [d|d|a cs]; simpl; [done|by rewrite app_nil_r|].
        destruct (jsEqb (tagName a) (lit "DIV")); [by rewrite app_nil_r|done]. }
      rewrite Hstep.
      destruct (IH items (cur ++ gatheredText n)) as (seg & segs & Hsplit & Hwalk).
      exists (n :: seg), segs. split; [by rewrite Hsplit|].
      rewrite Hwalk. unfold segmentText. simpl. by rewrite <- !app_assoc.
Qed.

(** The current extractor cuts the siblings at the checkbox elements
    ([MJX-CONTAINER] or [MATH]): every segment after such an element is a
    candidate, and those whose trimmed text is longer than 15 are kept. *)
Lemma extractItems_segments (nodesToHide : list node) :
  Current.extractItems nodesToHide =
  map (fun item => trim (collapseWhiteSpace item))
      (longItems (map segmentText (tail (splitNodes Current.isCheckbox nodesToHide)))).
Proof.
  unfold Current.extractItems. f_equal.
  induction nodesToHide as [|n nodes IH]; [done|].
  cbn [fold_left splitNodes].
  assert (Hstep : Current.walkStep (Current.Walk [] [] false) n =
                  Current.Walk [] [] (Current.isCheckbox n)).
  { unfold Current.walkStep. simpl. by destruct (Current.isCheckbox n). }
  rewrite Hstep. destruct (Current.isCheckbox n) eqn:Hn.
  - destruct (walk_found nodes [] []) as (seg & segs & Hsplit & Hwalk).
    rewrite Hwalk, Hsplit. cbv zeta. cbn [Current.currentItem Current.items tail app].
    rewrite pushItem_longItems, <- longItems_app. f_equal.
    symmetry. apply (app_removelast_last (l := map segmentText (seg :: segs))). done.
  - rewrite IH. destruct (splitNodes Current.isCheckbox nodes) eqn:Hs; [|done].
    by apply splitNodes_not_nil in Hs.
Qed.

End CurrentWalk.

(** C4, as the code has it.  Only the version that splits the markup of the
    paragraph cuts at the four glyphs of the checkbox family; the version
    that splits the concatenated text cuts at the white square and the empty
    ballot box only; the current version cuts the sibling nodes at the
    [MJX-CONTAINER] and [MATH] elements and treats no character as a
    delimiter. *)
Theorem delimiters_of_each_version `{Host} :
  splitsExactlyAt isCheckboxGlyph ParagraphVariant.splitParts
  /\ splitsExactlyAt (fun c => (c =? whiteSquare) || (c =? ballotBox))
                     FullTextVariant.splitParts
  /\ forall nodesToHide,
       Current.extractItems nodesToHide =
       map (fun item => trim (collapseWhiteSpace item))
           (longItems (map segmentText
                           (tail (splitNodes Current.isCheckbox nodesToHide)))).
Proof.
  split; [|split].
  - apply splitOn_splitsExactlyAt.
  - apply splitOn_splitsExactlyAt.
  - apply extractItems_segments.
Qed.

(** In the text-splitting version a checked ballot box does not start a new
    candidate: the text "☐A☑B" has two glyphs of the family and is cut once
    only. *)
Lemma checked_box_is_no_delimiter_in_full_text :
  FullTextVariant.splitParts [ballotBox; 65; ballotBoxChecked; 66]
  = [[]; [65; ballotBoxChecked; 66]]
  /\ ~ splitsExactlyAt isCheckboxGlyph FullTextVariant.splitParts.
Proof.
  split; [reflexivity|]. intros Hsplit.
  destruct (Hsplit [ballotBox; 65; ballotBoxChecked; 66]) as [Hlen _].
  vm_compute in Hlen. discriminate.
Qed.

(** ** The page under changes of properties *)

Lemma existsb_ext_in {A : Type} (f g : A -> bool) (l : list A) :
  (forall x, f x = g x) -> existsb f l = existsb g l.
Proof. intros Hfg. induction l as [|x l IH]; simpl; [done|]. by rewrite Hfg, IH. Qed.

Lemma filter_ext_all {A : Type} (f g : A -> bool) (l : list A) :
  (forall x, f x = g x) -> List.filter f l = List.filter g l.
Proof. intros Hfg. induction l as [|x l IH]; simpl; [done|]. by rewrite Hfg, IH. Qed.

Lemma sameSelectors_refl (doc : node) : sameSelectors doc doc.
Proof. by split. Qed.

Lemma sameSelectors_trans (d1 d2 d3 : node) :
  sameSelectors d1 d2 -> sameSelectors d2 d3 -> sameSelectors d1 d3.
Proof.
  intros [Hp1 Hk1] [Hp2 Hk2]. split; [congruence|].
  intros q. by rewrite Hk2, Hk1.
Qed.

Lemma field_updateAttrs {B : Type} (g : attrs -> B) (f : attrs -> attrs)
    (p q : path) (doc : node) :
  (forall a, g (f a) = g a) ->
  g <$> attrsAt (updateAttrs p f doc) q = g <$> attrsAt doc q.
Proof.
  intros Hg. rewrite attrsAt_updateAttrs. case_decide; [|done].
  destruct (attrsAt doc q); simpl; [by rewrite Hg|done].
Qed.

Lemma sameSelectors_updateAttrs (f : attrs -> attrs) (p : path) (doc : node) :
  (forall a, selectorKey (f a) = selectorKey a) ->
  sameSelectors doc (updateAttrs p f doc).
Proof.
  intros Hf. split; [apply paths_updateAttrs|].
  intros q. by apply field_updateAttrs.
Qed.

Lemma sameSelectors_checkbox (doc doc' : node) (q : path) :
  sameSelectors doc doc' -> isChecklistCheckbox doc' q = isChecklistCheckbox doc q.
Proof.
  intros [_ Hk]. unfold isChecklistCheckbox.
  assert (Hanc : forall r,
            match attrsAt doc' r with
            | Some b => hasClass (lit "interactive-checklist") b
            | None => false
            end =
            match attrsAt doc r with
            | Some b => hasClass (lit "interactive-checklist") b
            | None => false
            end).
  { intros r. specialize (Hk r).
    destruct (attrsAt doc' r), (attrsAt doc r); simpl in Hk; try done.
    unfold selectorKey in Hk. congruence. }
  rewrite (existsb_ext_in _ _ _ Hanc). specialize (Hk q).
  destruct (attrsAt doc' q), (attrsAt doc q); simpl in Hk; try done.
  unfold selectorKey in Hk. by injection Hk as -> -> _ _.
Qed.

Lemma sameSelectors_checkboxes (doc doc' : node) :
  sameSelectors doc doc' -> checklistCheckboxes doc' = checklistCheckboxes doc.
Proof.
  intros Hs. unfold checklistCheckboxes. rewrite (proj1 Hs).
  apply filter_ext_all. intros q. by apply sameSelectors_checkbox.
Qed.

Lemma sameSelectors_getElementById (i : jsstring) (doc doc' : node) :
  sameSelectors doc doc' -> getElementById i doc' = getElementById i doc.
Proof.
  intros [Hp Hk]. unfold getElementById, elementsWithId. rewrite Hp. f_equal.
  apply filter_ext_all. intros q. unfold hasId. specialize (Hk q).
  destruct (attrsAt doc' q), (attrsAt doc q); simpl in Hk; try done.
  unfold selectorKey in Hk. by injection Hk as _ _ -> _.
Qed.

(** The changes that the script makes to elements of the form. *)
Lemma selectorKey_withChecked (b : bool) (a : attrs) :
  selectorKey (withChecked b a) = selectorKey a.
Proof. done. Qed.

Lemma hasClass_classListAdd (c d : jsstring) (a : attrs) :
  hasClass c (classListAdd d a) = hasClass c a || jsEqb c d.
Proof.
  unfold classListAdd. destruct (hasClass d a) eqn:Hd.
  - destruct (jsEqb c d) eqn:Hcd; [|by rewrite orb_false_r].
    apply bool_decide_eq_true in Hcd. subst. by rewrite Hd.
  - unfold hasClass. simpl. rewrite existsb_app. simpl. by rewrite orb_false_r.
Qed.

Lemma selectorKey_classListAdd_completed (a : attrs) :
  selectorKey (classListAdd (lit "completed") a) = selectorKey a.
Proof.
  unfold selectorKey. rewrite hasClass_classListAdd.
  replace (jsEqb (lit "interactive-checklist") (lit "completed")) with false
    by reflexivity.
  rewrite orb_false_r. unfold classListAdd. by destruct (hasClass _ a).
Qed.

Lemma selectorKey_setValue (v : jsstring) (a : attrs) :
  selectorKey (setValue v a) = selectorKey a.
Proof. unfold setValue. by destruct (jsEqb _ _). Qed.

Lemma selectorKey_withCanvas (b : option bitmap) (a : attrs) :
  selectorKey (withCanvas b a) = selectorKey a.
Proof. done. Qed.

(** ** loadChecklistState: the checkboxes *)

Lemma restoreCheckbox_sameSelectors (v : jsval) (i : nat) (cb : path) (doc : node) :
  sameSelectors doc (restoreCheckbox v i cb doc).
Proof.
  unfold restoreCheckbox. destruct (_ && _); [|apply sameSelectors_refl].
  assert (H1 : sameSelectors doc (updateAttrs cb (withChecked true) doc))
    by (by apply sameSelectors_updateAttrs).
  destruct (parentPath cb) as [[parent n]|]; [|done].
  eapply sameSelectors_trans; [exact H1|].
  apply sameSelectors_updateAttrs, selectorKey_classListAdd_completed.
Qed.

Lemma restoreCheckboxes_sameSelectors (v : jsval) (k : nat) (cbs : list path) (doc : node) :
  sameSelectors doc (restoreCheckboxes v k cbs doc).
Proof.
  revert k doc. induction cbs as [|cb cbs IH]; intros k doc; simpl.
  - apply sameSelectors_refl.
  - eapply sameSelectors_trans; [apply restoreCheckbox_sameSelectors|apply IH].
Qed.

(** A property that neither [checked = true] nor [classList.add] changes is
    left as it was. *)
Lemma field_restoreCheckboxes {B : Type} (g : attrs -> B)
    (v : jsval) (k : nat) (cbs : list path) (doc : node) (q : path) :
  (forall a, g (withChecked true a) = g a) ->
  (forall a, g (classListAdd (lit "completed") a) = g a) ->
  g <$> attrsAt (restoreCheckboxes v k cbs doc) q = g <$> attrsAt doc q.
Proof.
  intros Hchecked Hclass. revert k doc.
  induction cbs as [|cb cbs IH]; intros k doc; simpl; [done|].
  rewrite IH. unfold restoreCheckbox. destruct (_ && _); [|done].
  destruct (parentPath cb) as [[parent n]|].
  - rewrite (field_updateAttrs g) by done. by apply field_updateAttrs.
  - by apply field_updateAttrs.
Qed.

Lemma sameSelectors_is_Some (doc doc' : node) (q : path) :
  sameSelectors doc doc' -> is_Some (attrsAt doc q) -> is_Some (attrsAt doc' q).
Proof.
  intros [_ Hk] [a Ha]. specialize (Hk q). rewrite Ha in Hk.
  destruct (attrsAt doc' q); [eauto|done].
Qed.

Lemma checked_classListAdd (c : jsstring) (a : attrs) :
  checked (classListAdd c a) = checked a.
Proof. unfold classListAdd. by destruct (hasClass c a). Qed.

Lemma checkedAt_restoreCheckbox (v : jsval) (i : nat) (cb q : path) (doc : node) :
  is_Some (attrsAt doc cb) ->
  checkedAt (restoreCheckbox v i cb doc) q =
  checkedAt doc q || (bool_decide (cb = q) && entryTruthy v i).
Proof.
  intros [a Ha]. unfold restoreCheckbox. fold (entryTruthy v i).
  destruct (entryTruthy v i); [|by rewrite andb_false_r, orb_false_r].
  rewrite andb_true_r.
  assert (Hstep : checkedAt (updateAttrs cb (withChecked true) doc) q =
                  checkedAt doc q || bool_decide (cb = q)).
  { unfold checkedAt. rewrite attrsAt_updateAttrs.
    case_decide as Hq.
    - subst q. rewrite Ha. simpl. by rewrite bool_decide_eq_true_2, orb_true_r.
    - rewrite bool_decide_eq_false_2 by congruence. by rewrite orb_false_r. }
  destruct (parentPath cb) as [[parent n]|]; [|done].
  rewrite <- Hstep. unfold checkedAt.
  pose proof (field_updateAttrs checked (classListAdd (lit "completed")) parent q
                (updateAttrs cb (withChecked true) doc)
                (checked_classListAdd _)) as Hf.
  destruct (attrsAt (updateAttrs parent _ _) q), (attrsAt (updateAttrs cb _ doc) q);
    simpl in Hf; congruence.
Qed.

Lemma checkedAt_restoreCheckboxes (v : jsval) (k : nat) (cbs : list path)
    (doc : node) (q : path) :
  Forall (fun cb => is_Some (attrsAt doc cb)) cbs ->
  checkedAt (restoreCheckboxes v k cbs doc) q =
  checkedAt doc q || restoredAt v k cbs q.
Proof.
  revert k doc. induction cbs as [|cb cbs IH]; intros k doc Hel; simpl.
  - by rewrite orb_false_r.
  - inversion Hel as [|? ? Hcb Hcbs]; subst.
    rewrite IH, checkedAt_restoreCheckbox, orb_assoc; [done|done|].
    eapply Forall_impl; [exact Hcbs|]. intros cb'.
    apply sameSelectors_is_Some, restoreCheckbox_sameSelectors.
Qed.

Lemma restoredAt_absent (v : jsval) (k : nat) (cbs : list path) (q : path) :
  ~ In q cbs -> restoredAt v k cbs q = false.
Proof.
  revert k. induction cbs as [|cb cbs IH]; intros k Hq; simpl; [done|].
  rewrite IH by (intros ?; apply Hq; by right).
  rewrite bool_decide_eq_false_2; [done|]. intros ->. apply Hq. by left.
Qed.

Lemma restoredAt_index (F : path -> bool) (v : jsval) (k : nat) (cbs : list path) :
  NoDup cbs ->
  map (fun q => F q || restoredAt v k cbs q) cbs =
  imap (fun i b => b || entryTruthy v (k + i)) (map F cbs).
Proof.
  revert k. induction cbs as [|cb cbs IH]; intros k Hnd; [done|].
  apply NoDup_cons in Hnd as [Hcb Hnd]. rewrite list_elem_of_In in Hcb.
  cbn [map imap restoredAt]. rewrite bool_decide_eq_true_2 by done.
  rewrite (restoredAt_absent _ _ _ _ Hcb), Nat.add_0_r, orb_false_r. simpl.
  f_equal.
  rewrite (imap_ext _ (fun i b => b || entryTruthy v (S k + i))).
  2: { intros i b _. simpl. do 2 f_equal. lia. }
  rewrite <- IH by done. apply map_ext_in. intros q Hq.
  rewrite bool_decide_eq_false_2; [done|]. intros ->. done.
Qed.

Lemma checklistCheckboxes_NoDup (doc : node) : NoDup (checklistCheckboxes doc).
Proof.
  unfold checklistCheckboxes. apply NoDup_ListNoDup, List.NoDup_filter.
  apply NoDup_ListNoDup, paths_NoDup.
Qed.

Lemma checklistCheckboxes_elements (doc : node) :
  Forall (fun cb => is_Some (attrsAt doc cb)) (checklistCheckboxes doc).
Proof.
  apply Forall_forall. intros cb Hcb. apply list_elem_of_In in Hcb.
  apply filter_In in Hcb as [_ Hcb]. unfold isChecklistCheckbox in Hcb.
  destruct (attrsAt doc cb); [eauto|done].
Qed.

(** The checkboxes after the [forEach] of [loadChecklistState]: the same
    controls, each checked if it was checked or its stored entry is
    truthy. *)
Lemma checkboxStates_restoreCheckboxes (v : jsval) (doc : node) :
  let doc' := restoreCheckboxes v 0 (checklistCheckboxes doc) doc in
  checklistCheckboxes doc' = checklistCheckboxes doc
  /\ checkboxStates doc' = imap (fun i b => b || entryTruthy v i) (checkboxStates doc).
Proof.
  intros doc'.
  assert (Hsel : checklistCheckboxes doc' = checklistCheckboxes doc)
    by apply sameSelectors_checkboxes, restoreCheckboxes_sameSelectors.
  split; [done|]. unfold checkboxStates. rewrite Hsel.
  rewrite <- (restoredAt_index _ v 0) by apply checklistCheckboxes_NoDup.
  apply map_ext. intros q. apply checkedAt_restoreCheckboxes, checklistCheckboxes_elements.
Qed.

(** ** loadChecklistState: the completed marker *)

Lemma hasClassAt_updateAttrs_same (c : jsstring) (f : attrs -> attrs)
    (p r : path) (doc : node) :
  (forall a, hasClass c (f a) = hasClass c a) ->
  hasClassAt c (updateAttrs p f doc) r = hasClassAt c doc r.
Proof.
  intros Hf. unfold hasClassAt.
  pose proof (field_updateAttrs (hasClass c) f p r doc Hf) as Hfield.
  destruct (attrsAt (updateAttrs p f doc) r), (attrsAt doc r); simpl in Hfield; congruence.
Qed.

Lemma hasClassAt_restoreCheckbox (c : jsstring) (v : jsval) (i : nat)
    (cb r : path) (doc : node) :
  hasClassAt c (restoreCheckbox v i cb doc) r =
  hasClassAt c doc r
  || (bool_decide (fst <$> parentPath cb = Some r) && entryTruthy v i
      && jsEqb c (lit "completed") && bool_decide (is_Some (attrsAt doc r))).
Proof.
  unfold restoreCheckbox. fold (entryTruthy v i).
  destruct (entryTruthy v i); [|by rewrite andb_false_r, orb_false_r].
  rewrite andb_true_r.
  pose proof (hasClassAt_updateAttrs_same c (withChecked true) cb r doc
                (fun _ => eq_refl)) as Hsame.
  destruct (parentPath cb) as [[parent n]|]; cbn [fmap option_fmap option_map fst].
  2: { rewrite bool_decide_eq_false_2 by done. by rewrite orb_false_r. }
  pose proof (field_updateAttrs (fun _ => tt) (withChecked true) cb r doc
                (fun _ => eq_refl)) as Hsome.
  unfold hasClassAt in *. rewrite attrsAt_updateAttrs.
  destruct (decide (r = parent)) as [->|Hr].
  - rewrite (bool_decide_eq_true_2 (Some parent = Some parent)) by done.
    destruct (attrsAt (updateAttrs cb (withChecked true) doc) parent) as [a'|];
      destruct (attrsAt doc parent) as [a|]; simpl in *; try done.
    + rewrite hasClass_classListAdd, Hsame.
      rewrite ?bool_decide_eq_true_2 by eauto. by rewrite ?andb_true_r.
    + by rewrite ?andb_false_r.
  - rewrite (bool_decide_eq_false_2 (Some parent = Some r)) by congruence.
    by rewrite orb_false_r.
Qed.

Lemma hasClassAt_restoreCheckboxes (c : jsstring) (v : jsval) (k : nat)
    (cbs : list path) (doc : node) (r : path) :
  hasClassAt c (restoreCheckboxes v k cbs doc) r =
  hasClassAt c doc r
  || (completedAt v k cbs r && jsEqb c (lit "completed")
      && bool_decide (is_Some (attrsAt doc r))).
Proof.
  revert k doc. induction cbs as [|cb cbs IH]; intros k doc; simpl.
  - by rewrite orb_false_r.
  - rewrite IH, hasClassAt_restoreCheckbox.
    assert (Hel : bool_decide (is_Some (attrsAt (restoreCheckbox v k cb doc) r))
                  = bool_decide (is_Some (attrsAt doc r))).
    { apply bool_decide_ext. split.
      - intros [a Ha]. pose proof (restoreCheckbox_sameSelectors v k cb doc) as [_ Hk].
        specialize (Hk r). rewrite Ha in Hk. destruct (attrsAt doc r); [eauto|done].
      - apply sameSelectors_is_Some, restoreCheckbox_sameSelectors. }
    rewrite Hel.
    destruct (hasClassAt c doc r), (bool_decide (fst <$> parentPath cb = Some r)),
      (entryTruthy v k), (jsEqb c (lit "completed")),
      (bool_decide (is_Some (attrsAt doc r))), (completedAt v (S k) cbs r); done.
Qed.

Lemma completedAt_spec (v : jsval) (k : nat) (cbs : list path) (r : path) :
  completedAt v k cbs r = true <->
  exists i cb n, cbs !! i = Some cb /\ parentPath cb = Some (r, n)
                 /\ entryTruthy v (k + i) = true.
Proof.
  revert k. induction cbs as [|cb cbs IH]; intros k; simpl.
  - split; [done|]. by intros (i & cb & n & Hcb & _).
  - rewrite orb_true_iff, andb_true_iff, bool_decide_eq_true, IH. split.
    + intros [[Hp He]|(i & cb' & n & Hcb & Hp & He)].
      * destruct (parentPath cb) as [[r' n]|] eqn:Hpp; [|done]. simpl in Hp.
        injection Hp as ->. exists 0%nat, cb, n. by rewrite Nat.add_0_r.
      * exists (S i), cb', n. repeat split; try done.
        by replace (k + S i)%nat with (S k + i)%nat by lia.
    + intros (i & cb' & n & Hcb & Hp & He). destruct i as [|i].
      * injection Hcb as <-. left. rewrite Hp. by rewrite Nat.add_0_r in He.
      * right. exists i, cb', n. repeat split; try done.
        by replace (S k + i)%nat with (k + S i)%nat by lia.
Qed.

(** ** loadChecklistState: the date, and the whole function *)

Lemma restoreDate_cases `{Host} (date : jsval) (doc : node) :
  default doc (restoreDate date doc) = doc
  \/ exists p s, default doc (restoreDate date doc) = updateAttrs p (setValue s) doc.
Proof.
  unfold restoreDate. destruct (truthy date); [|by left].
  destruct (getElementById _ doc) as [p|]; [|by left].
  destruct (toDOMString date) as [s|]; [|by left]. right. by exists p, s.
Qed.

Lemma checked_setValue (v : jsstring) (a : attrs) : checked (setValue v a) = checked a.
Proof. unfold setValue. by destruct (jsEqb _ _). Qed.

Lemma hasClass_setValue (c v : jsstring) (a : attrs) :
  hasClass c (setValue v a) = hasClass c a.
Proof. unfold setValue. by destruct (jsEqb _ _). Qed.

Lemma getProperty_total (state : jsval) (k1 k2 : jsstring) :
  is_Some (getProperty state k1) -> is_Some (getProperty state k2).
Proof. destruct state; simpl; intros [? ?]; eauto; done. Qed.

(** The page after [loadChecklistState]. *)
Lemma loadChecklistState_document `{Host} (w : world) :
  document (loadChecklistState w) =
  match storedState w with
  | Some state =>
      match getProperty state (lit "checkboxes"), getProperty state (lit "date") with
      | Some checkboxes, Some date =>
          let doc1 := restoreCheckboxes checkboxes 0
                        (checklistCheckboxes (document w)) (document w) in
          default doc1 (restoreDate date doc1)
      | _, _ => document w
      end
  | None => document w
  end.
Proof.
  unfold loadChecklistState, storedState.
  destruct (localStorage w) as [store|]; [|done].
  destruct (store !! storageKey) as [[|c saved]|]; try done.
  destruct (JSON_parse (c :: saved)) as [state|]; [|done].
  destruct (getProperty state (lit "checkboxes")) as [cbs|] eqn:Hcbs; [|done].
  destruct (getProperty_total state _ (lit "date") (mk_is_Some _ _ Hcbs)) as [date Hdate].
  destruct (getProperty_total state _ (lit "signature") (mk_is_Some _ _ Hcbs)) as [sig Hsig].
  rewrite Hdate, Hsig. simpl.
  destruct (restoreDate date _) as [doc2|]; simpl; [|done].
  destruct (signatureCanvas w); [|done].
  destruct (truthy sig); [|done]. by destruct (toDOMString sig).
Qed.

(** Nothing is shown to the user, whatever is stored. *)
Lemma loadChecklistState_log `{Host} (w : world) :
  log (loadChecklistState w) = log w.
Proof.
  unfold loadChecklistState.
  destruct (localStorage w) as [store|]; [|done].
  destruct (store !! storageKey) as [[|c saved]|]; try done.
  destruct (JSON_parse (c :: saved)) as [state|]; [|done].
  destruct (getProperty state (lit "checkboxes")) as [cbs|]; [|done].
  destruct (getProperty state (lit "date")) as [date|]; [|done].
  destruct (getProperty state (lit "signature")) as [sig|]; [|done].
  destruct (restoreDate date _) as [doc2|]; simpl; [|done].
  destruct (signatureCanvas w); [|done].
  destruct (truthy sig); [|done]. by destruct (toDOMString sig).
Qed.

Lemma parentPath_spec (p r : path) (n : nat) :
  parentPath p = Some (r, n) <-> p = r ++ [n].
Proof.
  unfold parentPath. split.
  - destruct (rev p) as [|i q] eqn:Hrev; [done|]. intros [= <- <-].
    rewrite <- (rev_involutive p), Hrev. done.
  - intros ->. rewrite rev_app_distr. simpl. by rewrite rev_involutive.
Qed.

Lemma parent_is_element (doc : node) (cb r : path) (n : nat) :
  is_Some (attrsAt doc cb) -> parentPath cb = Some (r, n) -> is_Some (attrsAt doc r).
Proof.
  intros [a Ha] ->%parentPath_spec. unfold attrsAt in *.
  rewrite lookupNode_app in Ha.
  destruct (lookupNode r doc) as [[d|d|b cs]|]; simpl in *; by eauto.
Qed.

Lemma restoredAt_true (v : jsval) (k i : nat) (cbs : list path) (q : path) :
  cbs !! i = Some q -> entryTruthy v (k + i) = true -> restoredAt v k cbs q = true.
Proof.
  revert k i. induction cbs as [|cb cbs IH]; intros k i Hq He; [done|].
  destruct i as [|i]; simpl.
  - injection Hq as ->. rewrite Nat.add_0_r in He.
    by rewrite bool_decide_eq_true_2, He.
  - rewrite (IH (S k) i); [by rewrite orb_true_r|done|].
    by replace (S k + i)%nat with (k + S i)%nat by lia.
Qed.

(** The date step changes neither a [checked] flag nor a class. *)
Lemma restoreDate_frame `{Host} (date : jsval) (doc : node) :
  let doc' := default doc (restoreDate date doc) in
  sameSelectors doc doc'
  /\ (forall q, checkedAt doc' q = checkedAt doc q)
  /\ (forall c r, hasClassAt c doc' r = hasClassAt c doc r).
Proof.
  intros doc'. subst doc'.
  destruct (restoreDate_cases date doc) as [->|(p & s & ->)].
  - split; [apply sameSelectors_refl|done].
  - split; [apply sameSelectors_updateAttrs, selectorKey_setValue|]. split.
    + intros q. unfold checkedAt.
      pose proof (field_updateAttrs checked (setValue s) p q doc (checked_setValue s)) as Hf.
      destruct (attrsAt (updateAttrs p _ doc) q), (attrsAt doc q); simpl in Hf; congruence.
    + intros c r. apply hasClassAt_updateAttrs_same. intros a. apply hasClass_setValue.
Qed.

Lemma imap_orb_false (l : list bool) : imap (fun _ b => b || false) l = l.
Proof.
  induction l as [|b l IH]; [done|]. cbn [imap]. rewrite orb_false_r. f_equal.
  rewrite <- IH at 2. by apply imap_ext.
Qed.

(** The checkboxes after [loadChecklistState]. *)
Lemma loadChecklistState_states `{Host} (w : world) :
  checklistCheckboxes (document (loadChecklistState w)) = checklistCheckboxes (document w)
  /\ checkboxStates (document (loadChecklistState w))
     = imap (fun i b => b || storedEntry w i) (checkboxStates (document w)).
Proof.
  rewrite loadChecklistState_document. unfold storedEntry.
  destruct (storedState w) as [state|]; [|by rewrite imap_orb_false].
  destruct (getProperty state (lit "checkboxes")) as [cbs|] eqn:Hcbs;
    [|by rewrite imap_orb_false].
  destruct (getProperty_total state _ (lit "date") (mk_is_Some _ _ Hcbs)) as [date ->].
  cbv zeta.
  set (doc1 := restoreCheckboxes cbs 0 (checklistCheckboxes (document w)) (document w)).
  destruct (restoreDate_frame date doc1) as (Hsel & Hchecked & _).
  destruct (checkboxStates_restoreCheckboxes cbs (document w)) as [Hboxes Hstates].
  fold doc1 in Hboxes, Hstates.
  split; [by rewrite (sameSelectors_checkboxes _ _ Hsel)|].
  unfold checkboxStates at 1. rewrite (sameSelectors_checkboxes _ _ Hsel).
  rewrite (map_ext _ _ Hchecked). apply Hstates.
Qed.

(** C9.  [loadChecklistState] only ever checks: the checklist checkboxes
    stay the same controls, checkbox [i] is checked afterwards exactly when
    it was checked before or the stored entry [i] is truthy, no class is
    removed from any element, and a [completed] marker that was not there
    before sits on the parent of a checkbox whose stored entry is truthy. *)
Theorem loadChecklistState_only_checks `{Host} (w : world) :
  let doc := document w in
  let doc' := document (loadChecklistState w) in
  checklistCheckboxes doc' = checklistCheckboxes doc
  /\ checkboxStates doc' = imap (fun i b => b || storedEntry w i) (checkboxStates doc)
  /\ (forall q, checkedAt doc q = true -> checkedAt doc' q = true)
  /\ (forall c r, hasClassAt c doc r = true -> hasClassAt c doc' r = true)
  /\ (forall r, hasClassAt (lit "completed") doc' r = true ->
        hasClassAt (lit "completed") doc r = true
        \/ exists i cb n, checklistCheckboxes doc !! i = Some cb
                          /\ parentPath cb = Some (r, n) /\ storedEntry w i = true)
  /\ (forall i cb r n,
        checklistCheckboxes doc !! i = Some cb -> parentPath cb = Some (r, n) ->
        storedEntry w i = true ->
        checkedAt doc' cb = true /\ hasClassAt (lit "completed") doc' r = true).
Proof.
  intros doc doc'. subst doc'. rewrite loadChecklistState_document.
  unfold storedEntry.
  destruct (storedState w) as [state|].
  2: { rewrite imap_orb_false. split_and!; auto. by intros. }
  destruct (getProperty state (lit "checkboxes")) as [cbs|] eqn:Hcbs.
  2: { rewrite imap_orb_false. split_and!; auto. by intros. }
  destruct (getProperty_total state _ (lit "date") (mk_is_Some _ _ Hcbs)) as [date ->].
  cbv zeta. fold doc.
  set (doc1 := restoreCheckboxes cbs 0 (checklistCheckboxes doc) doc).
  destruct (restoreDate_frame date doc1) as (Hsel & Hchecked & Hclass).
  destruct (checkboxStates_restoreCheckboxes cbs doc) as [Hboxes Hstates].
  fold doc1 in Hboxes, Hstates.
  assert (Hchk1 : forall q, checkedAt doc1 q = checkedAt doc q || restoredAt cbs 0 (checklistCheckboxes doc) q)
    by (intros q; apply checkedAt_restoreCheckboxes, checklistCheckboxes_elements).
  split_and!.
  - by rewrite (sameSelectors_checkboxes _ _ Hsel).
  - unfold checkboxStates at 1. rewrite (sameSelectors_checkboxes _ _ Hsel).
    rewrite (map_ext _ _ Hchecked). apply Hstates.
  - intros q Hq. by rewrite Hchecked, Hchk1, Hq.
  - intros c r Hc. rewrite Hclass. unfold doc1.
    by rewrite hasClassAt_restoreCheckboxes, Hc.
  - intros r. rewrite Hclass. unfold doc1. rewrite hasClassAt_restoreCheckboxes.
    intros [Hc|Hc]%orb_prop; [by left|right].
    apply andb_prop in Hc as [Hc _]. apply andb_prop in Hc as [Hc _].
    by apply completedAt_spec in Hc.
  - intros i cb r n Hcb Hp He. split.
    + rewrite Hchecked, Hchk1, (restoredAt_true cbs 0 i); [by rewrite orb_true_r|done|done].
    + rewrite Hclass. unfold doc1. rewrite hasClassAt_restoreCheckboxes.
      assert (Hel : is_Some (attrsAt doc r)).
      { eapply parent_is_element; [|exact Hp].
        pose proof (checklistCheckboxes_elements doc) as Hall.
        rewrite Forall_forall in Hall. apply Hall. by eapply list_elem_of_lookup_2. }
      rewrite (bool_decide_eq_true_2 _ Hel).
      replace (completedAt cbs 0 (checklistCheckboxes doc) r) with true.
      * replace (jsEqb (lit "completed") (lit "completed")) with true by reflexivity.
        by rewrite orb_true_r.
      * symmetry. apply completedAt_spec. by exists i, cb, n.
Qed.

(** ** fixEnumerationNumbering on the whole page *)

Lemma updateNode_same (p : path) (f : node -> node) (R n : node) :
  lookupNode p R = Some n -> f n = n -> updateNode p f R = R.
Proof.
  revert R. induction p as [|i p IH]; intros R; simpl.
  - by intros [= ->].
  - destruct R as [d|d|a cs]; try done.
    destruct (cs !! i) as [c|] eqn:Hc; [|done]. intros Hl Hf. f_equal.
    apply list_eq. intros j. destruct (decide (j = i)) as [->|Hne].
    + rewrite list_lookup_alter_eq, Hc. simpl. f_equal. by apply IH.
    + by rewrite list_lookup_alter_ne.
Qed.

Lemma updateNode_app (p q : path) (f : node -> node) (R : node) :
  updateNode (p ++ q) f R = updateNode p (updateNode q f) R.
Proof.
  revert R. induction p as [|i p IH]; intros R; simpl; [done|].
  destruct R as [d|d|a cs]; try done. f_equal.
  apply list_alter_ext; [|done]. intros c _. apply IH.
Qed.

Lemma updateNode_updateNode (p : path) (f g : node -> node) (R : node) :
  updateNode p f (updateNode p g R) = updateNode p (fun n => f (g n)) R.
Proof.
  revert R. induction p as [|i p IH]; intros R; simpl; [done|].
  destruct R as [d|d|a cs]; try done. f_equal.
  rewrite list_alter_alter_eq. apply list_alter_ext; [|done]. intros c _. apply IH.
Qed.

Lemma updateNode_ext (p : path) (f g : node -> node) (R n : node) :
  lookupNode p R = Some n -> f n = g n -> updateNode p f R = updateNode p g R.
Proof.
  revert R. induction p as [|i p IH]; intros R; simpl.
  - by intros [= ->].
  - destruct R as [d|d|a cs]; try done.
    destruct (cs !! i) as [c|] eqn:Hc; [|done]. intros Hl Hfg. f_equal.
    apply list_alter_ext; [|done]. intros c' Hc'. rewrite Hc in Hc'. injection Hc' as <-.
    by apply IH.
Qed.

Lemma fixAt_skip (l : list path) (R : node) :
  Forall (fun p => hasTag (lit "DT") R p = false) l -> fold_left fixAt l R = R.
Proof.
  induction 1 as [|p l Hp _ IH]; simpl; [done|]. unfold fixAt at 2. by rewrite Hp.
Qed.

Lemma filter_childPaths (a : attrs) (all cs : list node) (k : nat) :
  (forall j c, cs !! j = Some c -> all !! (k + j)%nat = Some c) ->
  List.filter (hasTag (lit "DT") (Element a all)) (childPaths paths k cs)
  = childPaths dtPaths k cs.
Proof.
  revert k. induction cs as [|c cs IH]; intros k Hall; simpl; [done|].
  rewrite List.filter_app. f_equal.
  - unfold dtPaths. induction (paths c) as [|q l IHl]; simpl; [done|].
    unfold hasTag at 1. rewrite attrsAt_cons.
    replace (all !! k) with (Some c)
      by (symmetry; rewrite <- (Nat.add_0_r k); by apply Hall).
    fold (hasTag (lit "DT") c q). destruct (hasTag (lit "DT") c q); simpl; by rewrite IHl.
  - apply IH. intros j c' Hj. replace (S k + j)%nat with (k + S j)%nat by lia.
    by apply Hall.
Qed.

Lemma childPaths_nonempty (f : node -> list path) (k : nat) (cs : list node) (q : path) :
  In q (childPaths f k cs) -> exists i q', q = i :: q'.
Proof.
  revert k. induction cs as [|c cs IH]; intros k; simpl; [done|].
  rewrite in_app_iff, in_map_iff. intros [(q' & <- & _)|Hin]; eauto.
Qed.

Lemma loop_children (a : attrs) (cs : list node) :
  Forall loopRewrites cs ->
  forall pre R done, lookupNode pre R = Some (Element a (done ++ cs)) ->
    fold_left fixAt (map (app pre) (childPaths dtPaths (length done) cs)) R
    = updateNode pre (fun _ => Element a (done ++ map rewriteLabels cs)) R.
Proof.
  induction 1 as [|c cs Hc _ IH]; intros pre R done HR; simpl.
  - symmetry. by apply (updateNode_same _ _ _ _ HR).
  - rewrite List.map_app, fold_left_app, List.map_map.
    rewrite (List.map_ext (fun q => pre ++ length done :: q) (app (pre ++ [length done])))
      by (intros q; by rewrite <- app_assoc).
    assert (Hchild : lookupNode (pre ++ [length done]) R = Some c).
    { rewrite lookupNode_app, HR. simpl.
      by rewrite lookup_app_r, Nat.sub_diag by lia. }
    rewrite (Hc _ _ Hchild), updateNode_app.
    set (R1 := updateNode pre _ R).
    assert (HR1 : lookupNode pre R1
                  = Some (Element a ((done ++ [rewriteLabels c]) ++ cs))).
    { unfold R1. rewrite lookupNode_updateNode, HR. simpl. do 2 f_equal.
      rewrite <- app_assoc. simpl.
      apply list_eq. intros j. destruct (decide (j = length done)) as [->|Hne].
      - rewrite list_lookup_alter_eq. by rewrite !lookup_app_r, Nat.sub_diag by lia.
      - rewrite list_lookup_alter_ne by done.
        destruct (decide (j < length done)%nat).
        + by rewrite !lookup_app_l by lia.
        + rewrite !lookup_app_r by lia.
          by replace (j - length done)%nat with (S (j - S (length done))) by lia. }
    specialize (IH pre R1 (done ++ [rewriteLabels c])).
    rewrite length_app in IH. simpl in IH.
    replace (length done + 1)%nat with (S (length done)) in IH by lia.
    rewrite (IH HR1). unfold R1. rewrite updateNode_updateNode.
    by rewrite <- app_assoc.
Qed.

Lemma loop_rewrites (n : node) : loopRewrites n.
Proof.
  induction n as [d|d|a cs IH] using node_ind_children; intros pre R HR.
  1,2: symmetry; by apply (updateNode_same _ _ _ _ HR).
  unfold dtPaths. cbn [paths List.filter].
  rewrite (filter_childPaths a cs cs 0) by done.
  pose proof (loop_children a cs IH pre R [] HR) as Hcs. simpl in Hcs.
  unfold hasTag at 1, attrsAt. cbn [lookupNode nodeAttrs rewriteLabels].
  destruct (jsEqb (tagName a) (lit "DT")) eqn:Hdt; [|done].
  cbn [map fold_left andb]. rewrite app_nil_r. unfold fixAt at 2.
  unfold hasTag, attrsAt. rewrite HR. cbn [nodeAttrs]. rewrite Hdt.
  destruct (test enumerationPattern (trim (textContent (Element a cs)))) eqn:Ht.
  - assert (exists text, fixedEnumerationText (textContent (Element a cs)) = Some text)
      as [text Htext] by (unfold fixedEnumerationText; rewrite Ht; eauto).
    rewrite fixAt_skip.
    + by apply (updateNode_ext _ _ _ _ _ HR).
    + apply List.Forall_forall. intros p (q & <- & Hq)%in_map_iff.
      apply childPaths_nonempty in Hq as (i & q' & ->).
      unfold hasTag, attrsAt. rewrite lookupNode_app, lookupNode_updateNode, HR.
      change (fixDt <$> Some (Element a cs)) with (Some (fixDt (Element a cs))).
      unfold fixDt. rewrite Htext.
      destruct text as [|ch text]; simpl; [done|].
      destruct i as [|i]; simpl; [by destruct q'|done].
  - rewrite (updateNode_same _ _ _ _ HR); [done|].
    unfold fixDt, fixedEnumerationText. by rewrite Ht.
Qed.

Lemma fixEnumerationNumbering_rewriteLabels (w : world) :
  fixEnumerationNumbering w = withDocument (rewriteLabels (document w)) w.
Proof.
  unfold fixEnumerationNumbering, querySelectorAllTag. f_equal.
  pose proof (loop_rewrites (document w) [] (document w) eq_refl) as Hloop.
  rewrite (List.map_ext (app []) id), List.map_id in Hloop by done.
  exact Hloop.
Qed.

(** C10.  [fixEnumerationNumbering] changes nothing but the page, and the
    page it leaves is the one with the labels rewritten: every [dt] whose
    trimmed text the pattern accepts is replaced by [fixDt], the rest is
    kept.  For one [dt]: the pattern accepts the trimmed text exactly when
    it is a label of three or more dot-separated numbers with any number of
    trailing dots; such a label is replaced, as a whole, by its last number
    and one period; every other [dt] is left as it is. *)
Theorem fixEnumerationNumbering_rewrites_malformed_labels (w : world) :
  fixEnumerationNumbering w = withDocument (rewriteLabels (document w)) w
  /\ forall a cs,
       let dt := Element a cs in
       let text := trim (textContent dt) in
       (test enumerationPattern text = true <->
        exists comps dots, isEnumeration comps dots text)
       /\ (forall comps dots, isEnumeration comps dots text ->
             fixDt dt = Element a [TextNode (default [] (last comps) ++ lit ".")])
       /\ ((forall comps dots, ~ isEnumeration comps dots text) -> fixDt dt = dt).
Proof.
  split; [apply fixEnumerationNumbering_rewriteLabels|].
  intros a cs dt text. split; [apply enumerationPattern_spec|apply fixDt_cases].
Qed.

(** The labels of the comment in the script, and two labels that stay. *)
Example fixDt_malformed :
  fixDt (Element (createElement (lit "DT")) [TextNode (lit " 1.2.3.1. ")])
  = Element (createElement (lit "DT")) [TextNode (lit "1.")].
Proof. reflexivity. Qed.

Example fixDt_plain :
  fixDt (Element (createElement (lit "DT")) [TextNode (lit "1.")])
  = Element (createElement (lit "DT")) [TextNode (lit "1.")]
  /\ fixDt (Element (createElement (lit "DT")) [TextNode (lit "1.2")])
     = Element (createElement (lit "DT")) [TextNode (lit "1.2")].
Proof. split; reflexivity. Qed.

(** A list of the manual with one malformed label. *)
Example fixEnumerationNumbering_list :
  let dl labels := World (Examples.el "DL" labels) None None false None false [] [] in
  fixEnumerationNumbering
    (dl [ Examples.el "DT" [TextNode (lit "2.1.3.2.")];
          Examples.el "DD" [TextNode (lit "1.2.3.")];
          Examples.el "DT" [TextNode (lit "3.")] ])
  = dl [ Examples.el "DT" [TextNode (lit "2.")];
         Examples.el "DD" [TextNode (lit "1.2.3.")];
         Examples.el "DT" [TextNode (lit "3.")] ].
Proof. reflexivity. Qed.

(** ** Saving and loading *)

Lemma getElementById_Some (i : jsstring) (doc : node) (p : path) :
  getElementById i doc = Some p -> exists a, attrsAt doc p = Some a /\ eid a = i.
Proof.
  unfold getElementById, elementsWithId. intros Hhead.
  assert (Hin : In p (List.filter (hasId i doc) (paths doc))).
  { destruct (List.filter _ _) as [|x l]; [done|]. injection Hhead as ->. by left. }
  apply filter_In in Hin as [_ Hid]. unfold hasId in Hid.
  destruct (attrsAt doc p) as [a|]; [|done]. exists a. split; [done|].
  by apply bool_decide_eq_true in Hid.
Qed.

Lemma value_setValue (v : jsstring) (a : attrs) :
  isValidDateString v = true -> value (setValue v a) = v.
Proof. intros Hv. unfold setValue. destruct (jsEqb _ _); simpl; by rewrite ?Hv. Qed.

(** A valid date stored as a string becomes the value of the date field. *)
Lemma dateFieldValue_restoreDate `{Host} (d : jsstring) (doc : node) (p : path) :
  isValidDateString d = true ->
  getElementById (lit "signature-date") doc = Some p ->
  dateFieldValue (default doc (restoreDate (JStr d) doc)) = d.
Proof.
  intros Hd Hp. unfold restoreDate. rewrite Hp.
  assert (Htruthy : truthy (JStr d) = true) by (by destruct d).
  rewrite Htruthy. simpl. unfold dateFieldValue.
  rewrite (sameSelectors_getElementById _ doc)
    by apply sameSelectors_updateAttrs, selectorKey_setValue.
  rewrite Hp. unfold valueAt. rewrite attrsAt_updateAttrs_eq.
  destruct (getElementById_Some _ _ _ Hp) as (a & -> & _). simpl.
  by apply value_setValue.
Qed.

Lemma storedState_None_load `{Host} (w : world) :
  storedState w = None -> loadChecklistState w = w.
Proof.
  unfold storedState, loadChecklistState.
  destruct (localStorage w) as [store|]; [|done].
  destruct (store !! storageKey) as [[|c saved]|]; try done. by intros ->.
Qed.

(** C5, as the code has it.  Without a usable stored value (the storage
    cannot be read, the key is missing, the text is empty or does not parse)
    the state is left exactly as it was.  A stored value of the wrong shape
    is not rejected as a whole: when its [checkboxes] field is a number no
    checkbox changes, yet a valid [date] string of the same value is still
    put into the date field.  In no case is anything shown to the user. *)
Theorem loadChecklistState_tolerates_malformed `{Host} (w : world) :
  (localStorage w = None -> loadChecklistState w = w)
  /\ (forall store, localStorage w = Some store -> store !! storageKey = None ->
        loadChecklistState w = w)
  /\ (forall store saved, localStorage w = Some store ->
        store !! storageKey = Some saved -> JSON_parse saved = None ->
        loadChecklistState w = w)
  /\ (forall state x, storedState w = Some state ->
        getProperty state (lit "checkboxes") = Some (JNum x) ->
        checkboxStates (document (loadChecklistState w)) = checkboxStates (document w))
  /\ (forall state checkboxes d dateInput, storedState w = Some state ->
        getProperty state (lit "checkboxes") = Some checkboxes ->
        getProperty state (lit "date") = Some (JStr d) ->
        isValidDateString d = true ->
        getElementById (lit "signature-date") (document w) = Some dateInput ->
        dateFieldValue (document (loadChecklistState w)) = d)
  /\ log (loadChecklistState w) = log w.
Proof.
  split_and!.
  - intros Hs. apply storedState_None_load. unfold storedState. by rewrite Hs.
  - intros store Hs Hk. apply storedState_None_load. unfold storedState.
    by rewrite Hs, Hk.
  - intros store saved Hs Hk Hparse. apply storedState_None_load.
    unfold storedState. rewrite Hs, Hk. by destruct saved.
  - intros state x Hstate Hcbs.
    rewrite (proj2 (loadChecklistState_states w)).
    unfold storedEntry. rewrite Hstate, Hcbs.
    rewrite (imap_ext _ (fun _ b => b || false)); [apply imap_orb_false|].
    intros i b _. unfold entryTruthy. simpl. by rewrite andb_false_r.
  - intros state cbs d p Hstate Hcbs Hdate Hvalid Hp.
    rewrite loadChecklistState_document, Hstate, Hcbs, Hdate. cbv zeta.
    eapply dateFieldValue_restoreDate; [done|].
    rewrite (sameSelectors_getElementById _ (document w)); [done|].
    apply restoreCheckboxes_sameSelectors.
  - apply loadChecklistState_log.
Qed.

(** The stored value of the example has a number where the list of flags
    should be; loading it leaves the checkboxes alone and shows nothing, but
    the date field takes the stored date instead of today's, which it keeps
    when nothing is stored. *)
Lemma wrong_shape_is_not_treated_as_absent :
  let absent := @Current.convertChecklistToInteractive Examples.host Examples.firstVisit in
  let wrong := @Current.convertChecklistToInteractive Examples.host
                 (Examples.visit {[ storageKey := Examples.wrongShape ]}) in
  (getProperty (default JNull (TestHost.parse Examples.wrongShape)) (lit "checkboxes")
   = Some (JNum 5%float))
  /\ checkboxStates (document absent) = [false; false; false]
  /\ dateFieldValue (document absent) = lit "2024-05-01"
  /\ checkboxStates (document wrong) = [false; false; false]
  /\ dateFieldValue (document wrong) = lit "2020-01-01"
  /\ dateFieldValue (document wrong) <> dateFieldValue (document absent)
  /\ log wrong = [].
Proof. vm_compute. repeat split; discriminate. Qed.

(** ** Round trip *)

Lemma entryTruthy_bools (cbs : list bool) (i : nat) :
  entryTruthy (JArr (map JBool cbs)) i = default false (cbs !! i).
Proof.
  unfold entryTruthy. simpl.
  change (map JBool cbs) with (JBool <$> cbs). rewrite list_lookup_fmap.
  by destruct (cbs !! i).
Qed.

Lemma imap_restore_fresh (cbs : list bool) (k : nat) (pre : list bool) :
  length pre = k ->
  imap (fun i b => b || default false ((pre ++ cbs) !! (k + i)%nat))
       (replicate (length cbs) false) = cbs.
Proof.
  revert k pre. induction cbs as [|c cbs IH]; intros k pre Hk; [done|].
  cbn [length replicate imap]. rewrite Nat.add_0_r.
  rewrite lookup_app_r, Hk, Nat.sub_diag by lia. simpl. f_equal.
  rewrite <- (IH (S k) (pre ++ [c])) at 2 by (rewrite length_app; simpl; lia).
  apply imap_ext. intros i b _. simpl. rewrite <- app_assoc. simpl.
  by replace (k + S i)%nat with (S (k + i)) by lia.
Qed.

Lemma drawImage_blank `{Host} (b : bitmap) :
  wellFormed b -> (forall px, sourceOver px transparent = px) ->
  drawImage b (blankBitmap (width b) (height b)) = b.
Proof.
  intros [Hrows Hcols] Hover. destruct b as [w h rs]. unfold drawImage. simpl in *.
  f_equal. apply list_eq. intros row. rewrite list_lookup_imap.
  destruct (decide (row < h)%nat) as [Hrow|Hrow].
  - rewrite lookup_replicate_2 by done. simpl.
    destruct (rs !! row) as [r|] eqn:Hr.
    2: { apply lookup_ge_None in Hr. lia. }
    f_equal. apply list_eq. intros col. rewrite list_lookup_imap.
    assert (Hlen : length r = w).
    { rewrite Forall_forall in Hcols. apply Hcols. by eapply list_elem_of_lookup_2. }
    destruct (decide (col < w)%nat) as [Hcol|Hcol].
    + rewrite lookup_replicate_2 by done. simpl.
      replace (inRect 0 0 w h col row) with true.
      2: { symmetry. unfold inRect. rewrite !andb_true_iff.
           repeat split; try done; apply Nat.ltb_lt; lia. }
      rewrite Hover. unfold pixelAt. simpl. rewrite Hr.
      destruct (r !! col) as [px|] eqn:Hpx; [done|].
      apply lookup_ge_None in Hpx. lia.
    + rewrite lookup_ge_None_2 by (rewrite length_replicate; lia). simpl. symmetry.
      apply lookup_ge_None. lia.
  - rewrite lookup_ge_None_2 by (rewrite length_replicate; lia). simpl. symmetry.
    apply lookup_ge_None. lia.
Qed.

Lemma saveChecklistState_storage `{Host} (w : world)
    (store : gmap jsstring jsstring) (b : bitmap) :
  localStorage w = Some store -> signatureBitmap w = Some b ->
  localStorage (saveChecklistState w) =
  Some (<[storageKey :=
            JSON_stringify (formState (checkboxStates (document w))
                                      (dateFieldValue (document w)) (toDataURL b))]> store).
Proof.
  unfold signatureBitmap, saveChecklistState. intros Hstore Hb.
  destruct (signatureCanvas w) as [p|]; [|done]. rewrite Hb. simpl.
  by rewrite Hstore.
Qed.

(** [loadChecklistState] on a stored value that [saveChecklistState] has
    written. *)
Lemma loadChecklistState_saved `{Host} (f : world) (cbs : list bool)
    (d url : jsstring) (canvasPath : path) :
  storedState f = Some (formState cbs d url) ->
  d <> [] -> url <> [] -> signatureCanvas f = Some canvasPath ->
  loadChecklistState f =
  let doc1 := restoreCheckboxes (JArr (map JBool cbs)) 0
                (checklistCheckboxes (document f)) (document f) in
  addTask (ImageLoad url) (withDocument (default doc1 (restoreDate (JStr d) doc1)) f).
Proof.
  unfold storedState, loadChecklistState. intros Hstate Hd Hurl Hcanvas.
  destruct (localStorage f) as [store|]; [|done].
  destruct (store !! storageKey) as [[|c saved]|]; try done.
  rewrite Hstate, Hcanvas.
  change (getProperty (formState cbs d url) (lit "checkboxes"))
    with (Some (JArr (map JBool cbs))).
  change (getProperty (formState cbs d url) (lit "date")) with (Some (JStr d)).
  change (getProperty (formState cbs d url) (lit "signature")) with (Some (JStr url)).
  cbv zeta. unfold restoreDate.
  assert (Htd : truthy (JStr d) = true) by (by destruct d).
  assert (Htu : truthy (JStr url) = true) by (by destruct url).
  rewrite Htd, Htu. simpl. by destruct (getElementById _ _).
Qed.

Lemma checkboxStates_updateAttrs (f : attrs -> attrs) (p : path) (doc : node) :
  (forall a, selectorKey (f a) = selectorKey a) ->
  (forall a, checked (f a) = checked a) ->
  checkboxStates (updateAttrs p f doc) = checkboxStates doc.
Proof.
  intros Hkey Hchecked. unfold checkboxStates.
  rewrite (sameSelectors_checkboxes doc) by (by apply sameSelectors_updateAttrs).
  apply map_ext. intros q. unfold checkedAt.
  pose proof (field_updateAttrs checked f p q doc Hchecked) as Hf.
  destruct (attrsAt (updateAttrs p f doc) q), (attrsAt doc q); simpl in Hf; congruence.
Qed.

Lemma dateFieldValue_updateAttrs (f : attrs -> attrs) (p : path) (doc : node) :
  (forall a, selectorKey (f a) = selectorKey a) ->
  (forall a, value (f a) = value a) ->
  dateFieldValue (updateAttrs p f doc) = dateFieldValue doc.
Proof.
  intros Hkey Hvalue. unfold dateFieldValue.
  rewrite (sameSelectors_getElementById _ doc) by (by apply sameSelectors_updateAttrs).
  destruct (getElementById _ doc) as [q|]; [|done]. unfold valueAt.
  pose proof (field_updateAttrs value f p q doc Hvalue) as Hf.
  destruct (attrsAt (updateAttrs p f doc) q), (attrsAt doc q); simpl in Hf; congruence.
Qed.

Lemma canvasAt_field (doc doc' : node) (q : path) :
  canvas <$> attrsAt doc' q = canvas <$> attrsAt doc q ->
  canvasAt doc' q = canvasAt doc q.
Proof.
  unfold canvasAt. destruct (attrsAt doc' q), (attrsAt doc q); simpl; congruence.
Qed.

Lemma canvas_classListAdd (c : jsstring) (a : attrs) :
  canvas (classListAdd c a) = canvas a.
Proof. unfold classListAdd. by destruct (hasClass c a). Qed.

Lemma canvas_setValue (v : jsstring) (a : attrs) : canvas (setValue v a) = canvas a.
Proof. unfold setValue. by destruct (jsEqb _ _). Qed.

Lemma canvasAt_restoreDate `{Host} (date : jsval) (doc : node) (q : path) :
  canvasAt (default doc (restoreDate date doc)) q = canvasAt doc q.
Proof.
  destruct (restoreDate_cases date doc) as [->|(p & s & ->)]; [done|].
  apply canvasAt_field, field_updateAttrs, canvas_setValue.
Qed.

(** C3.  A form state with a valid date and a signature bitmap is saved,
    and the next page load builds the form afresh (nothing checked, a blank
    canvas of the same size) over the storage that was written.  Then
    [loadChecklistState], with the image load that it starts, gives back
    every checkbox, the date and the signature bitmap of the saved state. *)
Theorem load_after_save_restores `{Host} (w f : world)
    (store : gmap jsstring jsstring) (b : bitmap) (ctx : context2d) (dateInput : path) :
  let checkboxes := checkboxStates (document w) in
  let date := dateFieldValue (document w) in
  let state := formState checkboxes date (toDataURL b) in
  (* the saved state: a bitmap with a non-empty encoding, an ISO date *)
  signatureBitmap w = Some b -> wellFormed b -> toDataURL b <> [] ->
  isValidDateString date = true ->
  (* the host reads back what it writes *)
  JSON_stringify state <> [] -> JSON_parse (JSON_stringify state) = Some state ->
  decodeImage (toDataURL b) = Some b ->
  (forall px, sourceOver px transparent = px) ->
  (* the page is loaded again over the storage that was written *)
  localStorage w = Some store ->
  localStorage f = localStorage (saveChecklistState w) ->
  (* the form as the builder leaves it *)
  checkboxStates (document f) = replicate (length checkboxes) false ->
  getElementById (lit "signature-date") (document f) = Some dateInput ->
  signatureCanvas f = Some (ctxCanvas ctx) -> signatureCtx f = Some ctx ->
  canvasAt (document f) (ctxCanvas ctx) = Some (blankBitmap (width b) (height b)) ->
  tasks f = [] ->
  let f' := runTasks (loadChecklistState f) in
  checkboxStates (document f') = checkboxes
  /\ dateFieldValue (document f') = date
  /\ signatureBitmap f' = Some b.
Proof.
  intros checkboxes date state Hb Hwf Hurl Hdate Hjson1 Hjson2 Himg Hover
         Hstore Hreload Hfresh HdateInput Hcanvas Hctx Hblank Htasks f'.
  assert (Hd : date <> []).
  { intros Hd. rewrite Hd in Hdate. discriminate. }
  assert (Hstate : storedState f = Some state).
  { unfold storedState.
    rewrite Hreload, (saveChecklistState_storage w store b Hstore Hb), lookup_insert_eq.
    fold checkboxes date state.
    by destruct (JSON_stringify state) as [|c s]. }
  subst f'.
  rewrite (loadChecklistState_saved f checkboxes date (toDataURL b) (ctxCanvas ctx)
             Hstate Hd Hurl Hcanvas).
  cbv zeta.
  set (doc1 := restoreCheckboxes (JArr (map JBool checkboxes)) 0
                 (checklistCheckboxes (document f)) (document f)).
  set (doc2 := default doc1 (restoreDate (JStr date) doc1)).
  unfold runTasks, addTask, withDocument, withTasks. simpl. rewrite Htasks. simpl.
  rewrite Himg, Hctx. simpl.
  set (draw := fun a => withCanvas (option_map (drawImage b) (canvas a)) a).
  destruct (restoreDate_frame (JStr date) doc1) as (Hsel & Hchecked & _).
  fold doc2 in Hsel, Hchecked.
  split_and!.
  - rewrite checkboxStates_updateAttrs by done.
    assert (Hs2 : checkboxStates doc2 = checkboxStates doc1).
    { unfold checkboxStates. rewrite (sameSelectors_checkboxes _ _ Hsel).
      apply map_ext, Hchecked. }
    pose proof (checkboxStates_restoreCheckboxes (JArr (map JBool checkboxes)) (document f))
      as Hst.
    cbv zeta in Hst. destruct Hst as [_ Hstates]. fold doc1 in Hstates.
    rewrite Hs2, Hstates, Hfresh.
    rewrite <- (imap_restore_fresh checkboxes 0 []) at 2 by done.
    apply imap_ext. intros i c _. by rewrite entryTruthy_bools.
  - rewrite dateFieldValue_updateAttrs by done.
    apply (dateFieldValue_restoreDate date doc1 dateInput Hdate).
    rewrite (sameSelectors_getElementById _ (document f)); [done|].
    apply restoreCheckboxes_sameSelectors.
  - unfold signatureBitmap. simpl. rewrite Hcanvas.
    unfold draw. rewrite canvasAt_updateAttrs_withCanvas.
    unfold doc2. rewrite canvasAt_restoreDate.
    rewrite (canvasAt_field (document f) doc1).
    + rewrite Hblank. simpl. by rewrite drawImage_blank.
    + apply field_restoreCheckboxes; [done|]. intros a. apply canvas_classListAdd.
Qed.

(** ** Counting matches: paths against structure *)

Lemma existsb_map_in {A B : Type} (f : B -> bool) (g : A -> B) (l : list A) :
  existsb f (map g l) = existsb (fun x => f (g x)) l.
Proof. induction l as [|x l IH]; simpl; [done|]. by rewrite IH. Qed.

Lemma ancestorPaths_cons (i : nat) (q : path) :
  ancestorPaths (i :: q) = [] :: map (cons i) (ancestorPaths q).
Proof.
  unfold ancestorPaths. simpl. f_equal.
  rewrite <- seq_shift, !List.map_map. done.
Qed.

Lemma selectedAt_checkbox (inside : bool) (doc : node) (p : path) :
  selectedAt checkboxSelector inside doc p =
  match attrsAt doc p with
  | Some a =>
      jsEqb (tagName a) (lit "INPUT") && jsEqb (inputType a) (lit "checkbox")
      && (inside || existsb (fun q => match attrsAt doc q with
                                      | Some b => hasClass (lit "interactive-checklist") b
                                      | None => false
                                      end) (ancestorPaths p))
  | None => false
  end.
Proof.
  revert inside doc. induction p as [|i q IH]; intros inside doc.
  - destruct doc as [d|d|a cs]; try done. simpl. by rewrite orb_false_r.
  - destruct doc as [d|d|a cs]; try done.
    rewrite attrsAt_cons. cbn [selectedAt]. destruct (cs !! i) as [c|] eqn:Hc; [|done].
    rewrite IH, ancestorPaths_cons. cbn [existsb]. rewrite existsb_map_in.
    destruct (attrsAt c q) as [b|]; [|done]. f_equal.
    change (attrsAt (Element a cs) []) with (Some a). cbn [enters checkboxSelector].
    rewrite <- orb_assoc. do 2 f_equal. apply existsb_ext_in. intros r.
    by rewrite attrsAt_cons, Hc.
Qed.

Lemma isChecklistCheckbox_selectedAt (doc : node) (p : path) :
  isChecklistCheckbox doc p = selectedAt checkboxSelector false doc p.
Proof. by rewrite selectedAt_checkbox. Qed.

Lemma hasId_selectedAt (i : jsstring) (inside : bool) (doc : node) (p : path) :
  hasId i doc p = selectedAt (idSelector i) inside doc p.
Proof.
  unfold hasId. revert inside doc. induction p as [|j q IH]; intros inside doc.
  - by destruct doc.
  - destruct doc as [d|d|a cs]; try done. rewrite attrsAt_cons. cbn [selectedAt].
    destruct (cs !! j) as [c|]; [|done]. apply IH.
Qed.

Lemma length_filter_map {A B : Type} (f : A -> B) (g : B -> bool) (l : list A) :
  length (List.filter g (map f l)) = length (List.filter (fun x => g (f x)) l).
Proof.
  induction l as [|x l IH]; simpl; [done|]. destruct (g (f x)); simpl; by rewrite IH.
Qed.

Section Counting.
Variable s : selector.

Lemma count_childPaths (inside : bool) (a : attrs) (cs pre : list node) :
  Forall (fun c => forall inside',
            length (List.filter (selectedAt s inside' c) (paths c))
            = countSelected s inside' c) cs ->
  length (List.filter (selectedAt s inside (Element a (pre ++ cs)))
                      (childPaths paths (length pre) cs))
  = list_sum (map (countSelected s (enters s inside a)) cs).
Proof.
  intros Hcs. revert pre. induction Hcs as [|c cs Hc _ IH]; intros pre; [done|].
  cbn [childPaths map list_sum].
  rewrite List.filter_app, length_app, length_filter_map.
  rewrite (filter_ext_all _ (selectedAt s (enters s inside a) c)).
  2: { intros q. cbn [selectedAt]. by rewrite list_lookup_middle. }
  rewrite Hc.
  specialize (IH (pre ++ [c])). rewrite <- app_assoc, length_app in IH. simpl in IH.
  rewrite Nat.add_1_r in IH. by rewrite IH.
Qed.

(** The matches found along the paths are the matches of the structure. *)
Lemma count_paths (n : node) (inside : bool) :
  length (List.filter (selectedAt s inside n) (paths n)) = countSelected s inside n.
Proof.
  revert inside. induction n as [d|d|a cs IH] using node_ind_children; intros inside;
    try done.
  cbn [paths List.filter countSelected].
  change (selectedAt s inside (Element a cs) []) with (selects s inside a).
  pose proof (count_childPaths inside a cs [] IH) as Hchildren. simpl in Hchildren.
  destruct (selects s inside a); simpl; by rewrite Hchildren.
Qed.

Lemma list_sum_alter_le (cnt : node -> nat) (h : node -> node) (i k : nat)
    (cs : list node) (c : node) :
  cs !! i = Some c -> (cnt c + k <= cnt (h c))%nat ->
  (list_sum (map cnt cs) + k <= list_sum (map cnt (alter h i cs)))%nat.
Proof.
  revert i. induction cs as [|x cs IH]; intros i Hc Hle; [done|].
  destruct i as [|i]; simpl in *.
  - injection Hc as ->. clear IH. lia.
  - specialize (IH i Hc Hle). change (list_alter h i cs) with (alter h i cs). lia.
Qed.

(** Replacing a node by one with at least [k] more matches adds at least
    [k] matches to the page. *)
Lemma countSelected_updateNode (k : nat) (new : node) (p : path) :
  forall (doc old : node) (inside : bool),
    lookupNode p doc = Some old ->
    (forall inside', (countSelected s inside' old + k <= countSelected s inside' new)%nat) ->
    (countSelected s inside doc + k
     <= countSelected s inside (updateNode p (fun _ => new) doc))%nat.
Proof.
  induction p as [|i q IH]; intros doc old inside Hold Hle.
  - simpl in *. injection Hold as ->. apply Hle.
  - destruct doc as [d|d|a cs]; try done. simpl in Hold.
    destruct (cs !! i) as [c|] eqn:Hc; [|done].
    cbn [updateNode countSelected].
    pose proof (list_sum_alter_le (countSelected s (enters s inside a))
                  (updateNode q (fun _ => new)) i k cs c Hc (IH c old _ Hold Hle)).
    lia.
Qed.

Hypothesis selects_display :
  forall inside d a, selects s inside (withDisplay d a) = selects s inside a.
Hypothesis enters_display :
  forall inside d a, enters s inside (withDisplay d a) = enters s inside a.
Hypothesis selects_wrapper :
  forall inside, selects s inside (withDisplay (lit "none") (createElement (lit "SPAN"))) = false.

Lemma countSelected_hideElement (inside : bool) (n : node) :
  countSelected s inside (hideElement n) = countSelected s inside n.
Proof.
  destruct n as [d|d|a cs]; try done. simpl.
  by rewrite selects_display, enters_display.
Qed.

Lemma countSelected_hideNode (inside : bool) (n : node) :
  countSelected s inside (hideNode n) = countSelected s inside n.
Proof.
  destruct n as [d|d|a cs]; try done.
  - simpl. destruct (trim d); [done|]. simpl. by rewrite selects_wrapper.
  - apply countSelected_hideElement.
Qed.

Lemma list_sum_hideNodes (inside : bool) (l : list node) :
  list_sum (map (countSelected s inside) (map hideNode l))
  = list_sum (map (countSelected s inside) l).
Proof.
  induction l as [|n l IH]; simpl; [done|]. by rewrite countSelected_hideNode, IH.
Qed.

Lemma list_sum_alter_hideElement (inside : bool) (i : nat) (l : list node) :
  list_sum (map (countSelected s inside) (alter hideElement i l))
  = list_sum (map (countSelected s inside) l).
Proof.
  revert i. induction l as [|n l IH]; intros i; [done|].
  destruct i as [|i]; simpl; [by rewrite countSelected_hideElement|].
  change (list_alter hideElement i l) with (alter hideElement i l). by rewrite IH.
Qed.

End Counting.

(** ** The builder adds a container on every run that reaches the end *)

Lemma length_checklistCheckboxes (doc : node) :
  length (checklistCheckboxes doc) = countSelected checkboxSelector false doc.
Proof.
  unfold checklistCheckboxes. rewrite <- count_paths. f_equal.
  apply filter_ext_all, isChecklistCheckbox_selectedAt.
Qed.

Lemma length_elementsWithId (i : jsstring) (doc : node) :
  length (elementsWithId i doc) = countSelected (idSelector i) false doc.
Proof.
  unfold elementsWithId. rewrite <- count_paths. f_equal.
  apply filter_ext_all. intros p. apply hasId_selectedAt.
Qed.

Lemma sameSelectors_elementsWithId (i : jsstring) (doc doc' : node) :
  sameSelectors doc doc' -> elementsWithId i doc' = elementsWithId i doc.
Proof.
  intros [Hp Hk]. unfold elementsWithId. rewrite Hp.
  apply filter_ext_all. intros q. unfold hasId. specialize (Hk q).
  destruct (attrsAt doc' q), (attrsAt doc q); simpl in Hk; try done.
  unfold selectorKey in Hk. by injection Hk as _ _ -> _.
Qed.

Lemma hidingSafe_id : hidingSafe (idSelector (lit "interactive-checklist")).
Proof. by repeat split. Qed.

Lemma hidingSafe_checkbox : hidingSafe checkboxSelector.
Proof. by repeat split. Qed.

Lemma container_has_id `{Host} (items : list jsstring) (inside : bool) :
  (1 <= countSelected (idSelector (lit "interactive-checklist")) inside
          (buildContainer items))%nat.
Proof.
  unfold buildContainer. cbn [countSelected].
  replace (selects (idSelector (lit "interactive-checklist")) inside
             (withId (lit "interactive-checklist")
                (withClassName [lit "interactive-checklist"] (createElement (lit "DIV")))))
    with true by reflexivity.
  lia.
Qed.

Lemma checklistItem_has_checkbox `{Host} (i : nat) (item : jsstring) :
  (1 <= countSelected checkboxSelector true (checklistItem i item))%nat.
Proof.
  unfold checklistItem. cbn [countSelected map list_sum].
  replace (selects checkboxSelector
             (enters checkboxSelector true
                (withClassName [lit "checklist-item"] (createElement (lit "DIV"))))
             (addEventListener (lit "change") ToggleCompleted
                (withName (lit "checklist-item-" ++ indexKey i)
                   (withId (lit "checklist-item-" ++ indexKey i)
                      (withType (lit "checkbox") (createElement (lit "INPUT")))))))
    with true by reflexivity.
  unfold list_sum. cbn [fold_right]. lia.
Qed.

Lemma items_have_checkboxes `{Host} (items : list jsstring) :
  forall mk : nat -> jsstring -> node,
    (forall i item, (1 <= countSelected checkboxSelector true (mk i item))%nat) ->
    (length items
     <= list_sum (map (countSelected checkboxSelector true) (imap mk items)))%nat.
Proof.
  induction items as [|item items IH]; intros mk Hmk; [done|].
  cbn [imap map list_sum length].
  specialize (IH (mk ∘ S) (fun i => Hmk (S i))). specialize (Hmk 0%nat item).
  change (list_sum (?x :: ?l)) with (x + list_sum l)%nat. lia.
Qed.

(** The container holds a checkbox for every item. *)
Lemma container_has_checkboxes `{Host} (items : list jsstring) (inside : bool) :
  (length items <= countSelected checkboxSelector inside (buildContainer items))%nat.
Proof.
  unfold buildContainer. cbn [countSelected].
  assert (Hin : enters checkboxSelector inside
                  (withId (lit "interactive-checklist")
                     (withClassName [lit "interactive-checklist"]
                        (createElement (lit "DIV")))) = true).
  { simpl. by rewrite orb_true_r. }
  rewrite Hin.
  change (?intro :: imap checklistItem items ++ [signatureSection])
    with ([intro] ++ imap checklistItem items ++ [signatureSection]).
  rewrite !List.map_app, !list_sum_app.
  pose proof (items_have_checkboxes items checklistItem checklistItem_has_checkbox).
  lia.
Qed.

Lemma list_sum_insert (cnt : node -> nat) (l1 l2 : list node) (c : node) :
  list_sum (map cnt (l1 ++ c :: l2)) = (list_sum (map cnt (l1 ++ l2)) + cnt c)%nat.
Proof. rewrite !List.map_app, !list_sum_app. simpl. lia. Qed.

Lemma loadChecklistState_sameSelectors `{Host} (w : world) :
  sameSelectors (document w) (document (loadChecklistState w)).
Proof.
  rewrite loadChecklistState_document.
  destruct (storedState w) as [state|]; [|apply sameSelectors_refl].
  destruct (getProperty state (lit "checkboxes")) as [cbs|]; [|apply sameSelectors_refl].
  destruct (getProperty state (lit "date")) as [date|]; [|apply sameSelectors_refl].
  cbv zeta. eapply sameSelectors_trans; [apply restoreCheckboxes_sameSelectors|].
  apply restoreDate_frame.
Qed.

Lemma selectorKey_addEventListener (t : jsstring) (h : handler) (a : attrs) :
  selectorKey (addEventListener t h a) = selectorKey a.
Proof. done. Qed.

Lemma finishConversion_sameSelectors `{Host} (doc : node) (w : world) :
  sameSelectors doc (document (finishConversion doc w)).
Proof.
  unfold finishConversion, initSignatureCanvas. simpl.
  destruct (getElementById (lit "signature-canvas") doc) as [p|];
    [|apply loadChecklistState_sameSelectors].
  destruct (canvasAt doc p); [|apply sameSelectors_refl].
  eapply sameSelectors_trans; [|apply loadChecklistState_sameSelectors]. simpl.
  apply sameSelectors_updateAttrs. intros a. simpl.
  by rewrite !selectorKey_addEventListener.
Qed.

(** The page with the container put among the children of the element at
    [parent], which otherwise hold what they held, has after the tail of
    the builder more containers than before, and more checkboxes by the
    number of items at least. *)
Lemma insertion_adds `{Host} (w : world) (parent : path) (a : attrs)
    (cs before after : list node) (item : jsstring) (items : list jsstring) :
  lookupNode parent (document w) = Some (Element a cs) ->
  (forall s inside, hidingSafe s ->
     list_sum (map (countSelected s inside) (before ++ after))
     = list_sum (map (countSelected s inside) cs)) ->
  insertsWhenFound (item :: items) w
    (finishConversion
       (updateNode parent
          (fun _ => Element a (before ++ buildContainer (item :: items) :: after))
          (document w)) w).
Proof.
  intros Hparent Hsum. cbn [insertsWhenFound].
  set (cs' := before ++ buildContainer (item :: items) :: after).
  pose proof (finishConversion_sameSelectors
                (updateNode parent (fun _ => Element a cs') (document w)) w) as Hsame.
  rewrite (sameSelectors_elementsWithId _ _ _ Hsame),
    (sameSelectors_checkboxes _ _ Hsame).
  rewrite !length_elementsWithId, !length_checklistCheckboxes.
  split.
  - pose proof (countSelected_updateNode (idSelector (lit "interactive-checklist")) 1
                  (Element a cs') parent (document w) (Element a cs) false Hparent) as Hle.
    apply Nat.lt_le_trans with
      (countSelected (idSelector (lit "interactive-checklist")) false (document w) + 1)%nat;
      [lia|].
    apply Hle. intros inside. cbn [countSelected]. unfold cs'.
    rewrite list_sum_insert, (Hsum _ _ hidingSafe_id).
    pose proof (container_has_id (item :: items)
                  (enters (idSelector (lit "interactive-checklist")) inside a)).
    lia.
  - apply (countSelected_updateNode checkboxSelector (length (item :: items))
             (Element a cs') parent (document w) (Element a cs) false Hparent).
    intros inside. cbn [countSelected]. unfold cs'.
    rewrite list_sum_insert, (Hsum _ _ hidingSafe_checkbox).
    pose proof (container_has_checkboxes (item :: items)
                  (enters checkboxSelector inside a)).
    lia.
Qed.

Lemma list_sum_map_app (cnt : node -> nat) (l1 l2 : list node) :
  list_sum (map cnt (l1 ++ l2)) = (list_sum (map cnt l1) + list_sum (map cnt l2))%nat.
Proof. by rewrite List.map_app, list_sum_app. Qed.

Lemma Current_collectSiblings_app `{Host} (l : list node) :
  fst (Current.collectSiblings l) ++ snd (Current.collectSiblings l) = l.
Proof.
  induction l as [|n l IH]; [done|]. simpl.
  destruct (_ || _); [done|].
  destruct (Current.collectSiblings l) as [hide rest]. simpl in *. by rewrite IH.
Qed.

Lemma FullText_collectSiblings_app `{Host} (l : list node) :
  fst (fst (FullTextVariant.collectSiblings l)) ++ snd (FullTextVariant.collectSiblings l) = l.
Proof.
  induction l as [|n l IH]; [done|]. simpl.
  destruct (FullTextVariant.isSignatureTable n); [done|].
  destruct (FullTextVariant.collectSiblings l) as [[hide text] rest]. simpl in *.
  by rewrite IH.
Qed.

Lemma Current_hideSignatureTable_sum `{Host} (s : selector) (inside : bool)
    (rest : list node) :
  hidingSafe s ->
  list_sum (map (countSelected s inside) (Current.hideSignatureTable rest))
  = list_sum (map (countSelected s inside) rest).
Proof.
  intros (Hsd & Hed & _). destruct rest as [|n rest]; [done|]. simpl.
  destruct (isElementWithTag _ n); [|done]. simpl.
  by rewrite (countSelected_hideElement s Hsd Hed).
Qed.

Lemma FullText_hideSignatureTable_sum `{Host} (s : selector) (inside : bool)
    (rest : list node) :
  hidingSafe s ->
  list_sum (map (countSelected s inside) (FullTextVariant.hideSignatureTable rest))
  = list_sum (map (countSelected s inside) rest).
Proof.
  intros (Hsd & Hed & _). destruct rest as [|n rest]; [done|]. simpl.
  by rewrite (countSelected_hideElement s Hsd Hed).
Qed.

(** The run of each builder that finds items, step by step: the container
    goes among the children of the parent of the heading, which otherwise
    hold what they held. *)
Lemma Current_convert_items `{Host} (w : world) (item : jsstring) (items : list jsstring) :
  currentItems (document w) = item :: items ->
  exists parent a cs before after,
    lookupNode parent (document w) = Some (Element a cs)
    /\ (forall s inside, hidingSafe s ->
          list_sum (map (countSelected s inside) (before ++ after))
          = list_sum (map (countSelected s inside) cs))
    /\ Current.convertChecklistToInteractive w
       = finishConversion
           (updateNode parent
              (fun _ => Element a (before ++ buildContainer (item :: items) :: after))
              (document w)) w.
Proof.
  unfold currentItems, Current.convertChecklistToInteractive. cbv zeta.
  destruct (findChecklistHeading (document w)) as [h|]; [|done].
  destruct (parentPath h) as [[parent i]|]; [|done].
  destruct (lookupNode parent (document w)) as [[d|d|a cs]|] eqn:Hparent; try done.
  pose proof (Current_collectSiblings_app (drop (S i) cs)) as Happ.
  destruct (Current.collectSiblings (drop (S i) cs)) as [hide rest]. simpl in Happ.
  simpl. intros ->.
  exists parent, a, cs, (take (S i) cs), (map hideNode hide ++ Current.hideSignatureTable rest).
  split; [done|]. split; [|done].
  intros s inside Hsafe. pose proof Hsafe as (Hsd & Hed & Hsw).
  rewrite !list_sum_map_app, (list_sum_hideNodes s Hsd Hed Hsw),
    (Current_hideSignatureTable_sum s inside rest Hsafe).
  by rewrite <- !list_sum_map_app, Happ, take_drop.
Qed.

Lemma Paragraph_convert_items `{Host} (w : world) (item : jsstring) (items : list jsstring) :
  paragraphItems (document w) = item :: items ->
  exists parent a cs before after,
    lookupNode parent (document w) = Some (Element a cs)
    /\ (forall s inside, hidingSafe s ->
          list_sum (map (countSelected s inside) (before ++ after))
          = list_sum (map (countSelected s inside) cs))
    /\ ParagraphVariant.convertChecklistToInteractive w
       = finishConversion
           (updateNode parent
              (fun _ => Element a (before ++ buildContainer (item :: items) :: after))
              (document w)) w.
Proof.
  unfold paragraphItems, ParagraphVariant.convertChecklistToInteractive. cbv zeta.
  destruct (findChecklistHeading (document w)) as [h|]; [|done].
  destruct (parentPath h) as [[parent i]|]; [|done].
  destruct (lookupNode parent (document w)) as [[d|d|a cs]|] eqn:Hparent; try done.
  destruct (findIndexFrom ParagraphVariant.isChecklistParagraph _ _) as [j|]; [|done].
  destruct (cs !! j) as [[d|d|pa pcs]|]; try done.
  intros ->.
  set (cs2 := match findIndexFrom ParagraphVariant.isSignatureTable _ _ with
              | Some k => alter hideElement k (alter hideElement j cs)
              | None => alter hideElement j cs
              end).
  exists parent, a, cs, (take j cs2), (drop j cs2).
  split; [done|]. split; [|done].
  intros s inside (Hsd & Hed & _). rewrite take_drop. unfold cs2.
  destruct (findIndexFrom ParagraphVariant.isSignatureTable _ _) as [k|];
    by rewrite !(list_sum_alter_hideElement s Hsd Hed).
Qed.

Lemma FullText_convert_items `{Host} (w : world) (item : jsstring) (items : list jsstring) :
  fullTextItems (document w) = item :: items ->
  exists parent a cs before after,
    lookupNode parent (document w) = Some (Element a cs)
    /\ (forall s inside, hidingSafe s ->
          list_sum (map (countSelected s inside) (before ++ after))
          = list_sum (map (countSelected s inside) cs))
    /\ FullTextVariant.convertChecklistToInteractive w
       = finishConversion
           (updateNode parent
              (fun _ => Element a (before ++ buildContainer (item :: items) :: after))
              (document w)) w.
Proof.
  unfold fullTextItems, FullTextVariant.convertChecklistToInteractive. cbv zeta.
  destruct (findChecklistHeading (document w)) as [h|]; [|done].
  destruct (parentPath h) as [[parent i]|]; [|done].
  destruct (lookupNode parent (document w)) as [[d|d|a cs]|] eqn:Hparent; try done.
  pose proof (FullText_collectSiblings_app (drop (S i) cs)) as Happ.
  destruct (FullTextVariant.collectSiblings (drop (S i) cs)) as [[hide text] rest].
  simpl in Happ. cbn [fst snd].
  destruct (_ && _); [done|]. intros ->.
  exists parent, a, cs, (take (S i) cs),
    (map hideNode hide ++ FullTextVariant.hideSignatureTable rest).
  split; [done|]. split; [|done].
  intros s inside Hsafe. pose proof Hsafe as (Hsd & Hed & Hsw).
  rewrite !list_sum_map_app, (list_sum_hideNodes s Hsd Hed Hsw),
    (FullText_hideSignatureTable_sum s inside rest Hsafe).
  by rewrite <- !list_sum_map_app, Happ, take_drop.
Qed.

(** The run of each builder that finds no item. *)
Lemma Current_no_items `{Host} (w : world) :
  currentItems (document w) = [] -> Current.convertChecklistToInteractive w = w.
Proof.
  unfold currentItems, Current.convertChecklistToInteractive. cbv zeta.
  destruct (findChecklistHeading (document w)) as [h|]; [|done].
  destruct (parentPath h) as [[parent i]|]; [|done].
  destruct (lookupNode parent (document w)) as [[d|d|a cs]|]; try done.
  destruct (Current.collectSiblings (drop (S i) cs)) as [hide rest]. simpl.
  by intros ->.
Qed.

Lemma Paragraph_no_items `{Host} (w : world) :
  paragraphItems (document w) = [] -> ParagraphVariant.convertChecklistToInteractive w = w.
Proof.
  unfold paragraphItems, ParagraphVariant.convertChecklistToInteractive. cbv zeta.
  destruct (findChecklistHeading (document w)) as [h|]; [|done].
  destruct (parentPath h) as [[parent i]|]; [|done].
  destruct (lookupNode parent (document w)) as [[d|d|a cs]|]; try done.
  destruct (findIndexFrom ParagraphVariant.isChecklistParagraph _ _) as [j|]; [|done].
  destruct (cs !! j) as [[d|d|pa pcs]|]; try done.
  by intros ->.
Qed.

Lemma FullText_no_items `{Host} (w : world) :
  fullTextItems (document w) = [] -> FullTextVariant.convertChecklistToInteractive w = w.
Proof.
  unfold fullTextItems, FullTextVariant.convertChecklistToInteractive. cbv zeta.
  destruct (findChecklistHeading (document w)) as [h|]; [|done].
  destruct (parentPath h) as [[parent i]|]; [|done].
  destruct (lookupNode parent (document w)) as [[d|d|a cs]|]; try done.
  destruct (FullTextVariant.collectSiblings (drop (S i) cs)) as [[hide text] rest].
  cbn [fst snd]. destruct (_ && _); [done|]. by intros ->.
Qed.

(** C1, as the code has it.  No version of the builder looks for an
    existing container: what a run does depends on the items it finds and
    on nothing else.  A run that finds no item (no heading, no checklist
    region, no item in it) leaves the whole state untouched.  A run that
    finds items inserts a container with their checkboxes, so that the page
    then holds more elements with the id [interactive-checklist] than
    before and more checklist checkboxes by the number of items at least,
    whether or not it held a container already; a second run on a
    converted page whose items are still found therefore builds the form a
    second time. *)
Theorem convertChecklistToInteractive_adds_a_container `{Host} (w : world) :
  insertsWhenFound (currentItems (document w)) w
                   (Current.convertChecklistToInteractive w)
  /\ insertsWhenFound (paragraphItems (document w)) w
                      (ParagraphVariant.convertChecklistToInteractive w)
  /\ insertsWhenFound (fullTextItems (document w)) w
                      (FullTextVariant.convertChecklistToInteractive w).
Proof.
  split_and!.
  - destruct (currentItems (document w)) as [|item items] eqn:Hfound.
    + by apply Current_no_items.
    + destruct (Current_convert_items w item items Hfound)
        as (parent & a & cs & before & after & Hparent & Hsum & ->).
      by apply (insertion_adds w parent a cs).
  - destruct (paragraphItems (document w)) as [|item items] eqn:Hfound.
    + by apply Paragraph_no_items.
    + destruct (Paragraph_convert_items w item items Hfound)
        as (parent & a & cs & before & after & Hparent & Hsum & ->).
      by apply (insertion_adds w parent a cs).
  - destruct (fullTextItems (document w)) as [|item items] eqn:Hfound.
    + by apply FullText_no_items.
    + destruct (FullText_convert_items w item items Hfound)
        as (parent & a & cs & before & after & Hparent & Hsum & ->).
      by apply (insertion_adds w parent a cs).
Qed.

(** On the example page a second run of each version builds the form a
    second time: two elements carry the id of the container, and the
    selector of the checklist checkboxes finds every checkbox twice. *)
Lemma second_run_duplicates_the_form :
  let containers w := length (elementsWithId (lit "interactive-checklist") (document w)) in
  let controls w := length (checklistCheckboxes (document w)) in
  let current := @Current.convertChecklistToInteractive Examples.host in
  let fullText := @FullTextVariant.convertChecklistToInteractive Examples.host in
  let paragraph := @ParagraphVariant.convertChecklistToInteractive Examples.host in
  let paragraphVisit := World Examples.paragraphPage None None false (Some ∅) false [] [] in
  (containers (current Examples.firstVisit) = 1%nat
   /\ controls (current Examples.firstVisit) = 3%nat
   /\ containers (current (current Examples.firstVisit)) = 2%nat
   /\ controls (current (current Examples.firstVisit)) = 6%nat)
  /\ (containers (fullText Examples.firstVisit) = 1%nat
      /\ controls (fullText Examples.firstVisit) = 3%nat
      /\ containers (fullText (fullText Examples.firstVisit)) = 2%nat
      /\ controls (fullText (fullText Examples.firstVisit)) = 6%nat)
  /\ (containers (paragraph paragraphVisit) = 1%nat
      /\ controls (paragraph paragraphVisit) = 2%nat
      /\ containers (paragraph (paragraph paragraphVisit)) = 2%nat
      /\ controls (paragraph (paragraph paragraphVisit)) = 4%nat).
Proof. vm_compute. repeat split. Qed.

(** ** The theorems at the example pages *)

(** C1 on the example page after a first run: the items are found again,
    and the second run adds a container and three checkboxes. *)
Lemma convertChecklistToInteractive_adds_a_container_example :
  let again := @Current.convertChecklistToInteractive Examples.host Examples.converted in
  (length (elementsWithId (lit "interactive-checklist") (document Examples.converted))
   < length (elementsWithId (lit "interactive-checklist") (document again)))%nat
  /\ (length (checklistCheckboxes (document Examples.converted)) + 3
      <= length (checklistCheckboxes (document again)))%nat.
Proof.
  destruct (@convertChecklistToInteractive_adds_a_container Examples.host
              Examples.converted) as [Hcurrent _].
  assert (Hitems : @currentItems Examples.host (document Examples.converted)
                   = [lit "Read the lab manual from start to finish.";
                      lit "Meet with your advisor to set goals.";
                      lit "Set up your computing environment."])
    by (vm_compute; reflexivity).
  rewrite Hitems in Hcurrent. exact Hcurrent.
Defined.

(** C6 at a page whose headings do not name the checklist and the
    signature together. *)
Lemma convertChecklistToInteractive_without_heading_example :
  let w := World Examples.plainPage None None false (Some ∅) false [] [] in
  @Current.convertChecklistToInteractive Examples.host w = w
  /\ @ParagraphVariant.convertChecklistToInteractive Examples.host w = w
  /\ @FullTextVariant.convertChecklistToInteractive Examples.host w = w.
Proof.
  apply (@convertChecklistToInteractive_without_heading Examples.host).
  intros h Hh. vm_compute in Hh. destruct Hh as [<-|[<-|[]]]; reflexivity.
Defined.

(** C2 at the small form with its second checkbox not checked: the export
    stops at the first message. *)
Lemma emailChecklist_checks_in_order_example :
  abortsWith msgCheckAll Examples.filledIn
             (Current.emailChecklist Examples.filledIn)
  /\ abortsWith msgCheckAll Examples.filledIn
                (ParagraphVariant.emailChecklist Examples.filledIn).
Proof.
  destruct (@emailChecklist_checks_in_order Examples.host Examples.filledIn
              Examples.padPath Examples.inked eq_refl eq_refl)
    as ((Hcurrent & _) & (Hparagraph & _) & _).
  split; [apply Hcurrent|apply Hparagraph]; reflexivity.
Defined.

(** C7 at the small form with a signature on its pad. *)
Lemma clearSignature_leaves_no_signature_example :
  exists cleared,
    signatureBitmap (@clearSignature Examples.host Examples.filledIn) = Some cleared
    /\ hasSignature cleared = false.
Proof.
  destruct (@clearSignature_leaves_no_signature Examples.host Examples.filledIn
              Examples.padContext Examples.inked eq_refl eq_refl eq_refl)
    as (_ & cleared & Hbitmap & Hsig & _).
  exists cleared. by split.
Defined.

(** C3 at the small form: what was filled in comes back after a reload. *)
Lemma load_after_save_restores_example :
  let f' := @runTasks Examples.host (@loadChecklistState Examples.host Examples.reloaded) in
  checkboxStates (document f') = [true; false]
  /\ dateFieldValue (document f') = lit "2024-04-30"
  /\ signatureBitmap f' = Some Examples.inked.
Proof.
  apply (@load_after_save_restores Examples.host Examples.filledIn Examples.reloaded
           ∅ Examples.inked Examples.padContext [0; 3]%nat).
  - reflexivity.
  - split; [reflexivity|]. repeat constructor.
  - vm_compute. discriminate.
  - reflexivity.
  - vm_compute. discriminate.
  - vm_compute. reflexivity.
  - vm_compute. reflexivity.
  - intros px. reflexivity.
  - reflexivity.
  - vm_compute. reflexivity.
  - reflexivity.
  - reflexivity.
  - reflexivity.
  - reflexivity.
  - reflexivity.
  - reflexivity.
Defined.

(** * Properties of the rest of the script *)

(** ** Loops over a list of elements that was collected beforehand *)

Section StaticLoop.

(** [sel] is the selector, [f] the body of the loop, [stops n] tells that
    [f] replaces the content of [n]. *)
Variable sel : attrs -> bool.
Variable f : node -> node.
Variable stops : node -> bool.


Hypothesis f_keeps : forall n, stops n = false -> f n = n.
Hypothesis f_replaces :
  forall a cs, stops (Element a cs) = true ->
    exists a' cs', f (Element a cs) = Element a' cs'
      /\ forall i c q b, cs' !! i = Some c -> attrsAt c q = Some b -> sel b = false.

Lemma loopStep_skip (l : list path) (R : node) :
  Forall (fun p => selectedBy sel R p = false) l -> fold_left (loopStep sel f) l R = R.
Proof.
  induction 1 as [|p l Hp _ IH]; simpl; [done|]. unfold loopStep at 2. by rewrite Hp.
Qed.

Lemma filter_selected_childPaths (a : attrs) (all cs : list node) (k : nat) :
  (forall j c, cs !! j = Some c -> all !! (k + j)%nat = Some c) ->
  List.filter (selectedBy sel (Element a all)) (childPaths paths k cs)
  = childPaths (fun c => List.filter (selectedBy sel c) (paths c)) k cs.
Proof.
  revert k. induction cs as [|c cs IH]; intros k Hall; simpl; [done|].
  rewrite List.filter_app. f_equal.
  - induction (paths c) as [|q l IHl]; simpl; [done|].
    unfold selectedBy at 1. rewrite attrsAt_cons.
    replace (all !! k) with (Some c)
      by (symmetry; rewrite <- (Nat.add_0_r k); by apply Hall).
    fold (selectedBy sel c q). destruct (selectedBy sel c q); simpl; by rewrite IHl.
  - apply IH. intros j c' Hj. replace (S k + j)%nat with (k + S j)%nat by lia.
    by apply Hall.
Qed.

Lemma loop_over_children (a : attrs) (cs : list node) :
  Forall (loopCorrect sel f stops) cs ->
  forall pre R done, lookupNode pre R = Some (Element a (done ++ cs)) ->
    fold_left (loopStep sel f)
      (map (app pre)
           (childPaths (fun c => List.filter (selectedBy sel c) (paths c)) (length done) cs)) R
    = updateNode pre (fun _ => Element a (done ++ map (loopResult sel f stops) cs)) R.
Proof.
  induction 1 as [|c cs Hc _ IH]; intros pre R done HR; simpl.
  - symmetry. by apply (updateNode_same _ _ _ _ HR).
  - rewrite List.map_app, fold_left_app, List.map_map.
    rewrite (List.map_ext (fun q => pre ++ length done :: q) (app (pre ++ [length done])))
      by (intros q; by rewrite <- app_assoc).
    assert (Hchild : lookupNode (pre ++ [length done]) R = Some c).
    { rewrite lookupNode_app, HR. simpl.
      by rewrite lookup_app_r, Nat.sub_diag by lia. }
    rewrite (Hc _ _ Hchild), updateNode_app.
    set (R1 := updateNode pre _ R).
    assert (HR1 : lookupNode pre R1
                  = Some (Element a ((done ++ [loopResult sel f stops c]) ++ cs))).
    { unfold R1. rewrite lookupNode_updateNode, HR. simpl. do 2 f_equal.
      rewrite <- app_assoc. simpl.
      apply list_eq. intros j. destruct (decide (j = length done)) as [->|Hne].
      - rewrite list_lookup_alter_eq. by rewrite !lookup_app_r, Nat.sub_diag by lia.
      - rewrite list_lookup_alter_ne by done.
        destruct (decide (j < length done)%nat).
        + by rewrite !lookup_app_l by lia.
        + rewrite !lookup_app_r by lia.
          by replace (j - length done)%nat with (S (j - S (length done))) by lia. }
    specialize (IH pre R1 (done ++ [loopResult sel f stops c])).
    rewrite length_app in IH. simpl in IH.
    replace (length done + 1)%nat with (S (length done)) in IH by lia.
    rewrite (IH HR1). unfold R1. rewrite updateNode_updateNode.
    by rewrite <- app_assoc.
Qed.

Lemma loop_correct (n : node) : loopCorrect sel f stops n.
Proof.
  induction n as [d|d|a cs IH] using node_ind_children; intros pre R HR.
  1,2: symmetry; by apply (updateNode_same _ _ _ _ HR).
  cbn [paths List.filter].
  rewrite (filter_selected_childPaths a cs cs 0) by done.
  pose proof (loop_over_children a cs IH pre R [] HR) as Hcs. simpl in Hcs.
  unfold selectedBy at 1, attrsAt. cbn [lookupNode nodeAttrs loopResult].
  destruct (sel a) eqn:Hsel; [|done].
  cbn [map fold_left andb]. rewrite app_nil_r. unfold loopStep at 2.
  unfold selectedBy, attrsAt. rewrite HR. cbn [nodeAttrs]. rewrite Hsel.
  destruct (stops (Element a cs)) eqn:Hstops.
  - destruct (f_replaces a cs Hstops) as (a' & cs' & Hf & Hinside).
    rewrite loopStep_skip.
    + by apply (updateNode_ext _ _ _ _ _ HR).
    + apply List.Forall_forall. intros p (q & <- & Hq)%in_map_iff.
      apply childPaths_nonempty in Hq as (i & q' & ->).
      unfold selectedBy, attrsAt at 1.
      rewrite lookupNode_app, lookupNode_updateNode, HR.
      change (f <$> Some (Element a cs)) with (Some (f (Element a cs))).
      rewrite Hf. cbn [lookupNode].
      destruct (cs' !! i) as [c|] eqn:Hc; [|done].
      pose proof (Hinside i c q') as Hno. unfold attrsAt in Hno.
      destruct (lookupNode q' c) as [m|]; [|done].
      destruct (nodeAttrs m) as [b|] eqn:Hb; [|done]. by apply (Hno b).
  - rewrite (updateNode_same _ _ _ _ HR); [done|]. by apply f_keeps.
Qed.

Lemma loop_page (doc : node) :
  fold_left (loopStep sel f) (List.filter (selectedBy sel doc) (paths doc)) doc = loopResult sel f stops doc.
Proof.
  pose proof (loop_correct doc [] doc eq_refl) as Hloop.
  by rewrite (List.map_ext (app []) id), List.map_id in Hloop.
Qed.

End StaticLoop.

(** ** Strings: trimming and cutting at runs *)

Lemma dropWhile_head (p : N -> bool) (s : jsstring) (c : N) :
  head (dropWhile p s) = Some c -> p c = false.
Proof.
  induction s as [|x s IH]; simpl; [done|].
  destruct (p x) eqn:Hx; [done|]. simpl. by intros [= <-].
Qed.

Lemma dropWhile_fixed (p : N -> bool) (s : jsstring) :
  dropWhile p s = s <-> match s with [] => True | c :: _ => p c = false end.
Proof.
  destruct s as [|c s]; simpl; [done|]. destruct (p c) eqn:Hc; split; try done.
  intros Heq. assert (Hlen : (length (dropWhile p s) <= length s)%nat).
  { clear. induction s as [|x s IH]; simpl; [done|]. destruct (p x); simpl; lia. }
  rewrite Heq in Hlen. simpl in Hlen. lia.
Qed.

Lemma dropWhile_dropWhile (p : N -> bool) (s : jsstring) :
  dropWhile p (dropWhile p s) = dropWhile p s.
Proof.
  apply dropWhile_fixed. destruct (dropWhile p s) as [|c t] eqn:Hd; [done|].
  apply (dropWhile_head p s). by rewrite Hd.
Qed.

Lemma dropWhile_suffix (p : N -> bool) (s : jsstring) :
  exists pre, s = pre ++ dropWhile p s /\ forallb p pre = true.
Proof.
  induction s as [|c s (pre & IH & Hpre)]; simpl; [by exists []|].
  destruct (p c) eqn:Hc; [|by exists []].
  exists (c :: pre). simpl. rewrite Hc, Hpre. split; [by f_equal|done].
Qed.

Lemma dropWhileEnd_prefix (p : N -> bool) (s : jsstring) :
  exists post, s = dropWhileEnd p s ++ post /\ forallb p post = true.
Proof.
  unfold dropWhileEnd. destruct (dropWhile_suffix p (rev s)) as (pre & Heq & Hpre).
  exists (rev pre). split.
  - rewrite <- rev_app_distr, <- Heq. by rewrite rev_involutive.
  - rewrite forallb_forall in *. intros x Hx. apply Hpre. by apply in_rev.
Qed.

Lemma dropWhileEnd_cons_stop (p : N -> bool) (c : N) (s : jsstring) :
  p c = false -> dropWhileEnd p (c :: s) = c :: dropWhileEnd p s.
Proof.
  intros Hc. unfold dropWhileEnd. simpl.
  destruct (dropWhile_suffix p (rev s)) as (pre & Heq & Hpre).
  rewrite Heq at 1. rewrite <- app_assoc, dropWhile_app_all by done.
  destruct (dropWhile p (rev s)) as [|x t] eqn:Hd; simpl.
  - by rewrite Hc.
  - assert (Hx : p x = false) by (apply (dropWhile_head p (rev s)); by rewrite Hd).
    rewrite Hx. simpl. by rewrite rev_app_distr.
Qed.

Lemma dropWhileEnd_dropWhileEnd (p : N -> bool) (s : jsstring) :
  dropWhileEnd p (dropWhileEnd p s) = dropWhileEnd p s.
Proof.
  unfold dropWhileEnd. by rewrite rev_involutive, dropWhile_dropWhile.
Qed.

(** Stripping the end leaves the front as it is. *)
Lemma dropWhile_dropWhileEnd (p : N -> bool) (s : jsstring) :
  dropWhile p s = s -> dropWhile p (dropWhileEnd p s) = dropWhileEnd p s.
Proof.
  intros Hs. apply dropWhile_fixed. apply dropWhile_fixed in Hs.
  destruct s as [|c s]; [done|]. by rewrite dropWhileEnd_cons_stop.
Qed.

Lemma trim_trim (s : jsstring) : trim (trim s) = trim s.
Proof.
  unfold trim.
  rewrite (dropWhile_dropWhileEnd isWhiteSpace (dropWhile isWhiteSpace s))
    by apply dropWhile_dropWhile.
  apply dropWhileEnd_dropWhileEnd.
Qed.

Lemma isTrimmed_ends (s : jsstring) :
  isTrimmed s <->
  dropWhile isWhiteSpace s = s /\ dropWhileEnd isWhiteSpace s = s.
Proof.
  unfold isTrimmed, trim. split.
  - intros Ht. assert (Hfront : dropWhile isWhiteSpace s = s).
    { rewrite <- Ht at 1.
      rewrite dropWhile_dropWhileEnd by apply dropWhile_dropWhile. exact Ht. }
    split; [done|]. by rewrite Hfront in Ht.
  - intros [-> ->]. done.
Qed.

Lemma visible_app (s t : jsstring) : visible (s ++ t) = visible s ++ visible t.
Proof. apply List.filter_app. Qed.

Lemma visible_blank (s : jsstring) : forallb isWhiteSpace s = true -> visible s = [].
Proof.
  induction s as [|c s IH]; simpl; [done|].
  intros [Hc Hs]%andb_true_iff. rewrite Hc. simpl. auto.
Qed.

Lemma visible_trim (s : jsstring) : visible (trim s) = visible s.
Proof.
  unfold trim.
  destruct (dropWhile_suffix isWhiteSpace s) as (pre & Hs & Hpre).
  destruct (dropWhileEnd_prefix isWhiteSpace (dropWhile isWhiteSpace s))
    as (post & Ht & Hpost).
  rewrite Hs at 2. rewrite Ht at 2.
  rewrite !visible_app, (visible_blank pre), (visible_blank post) by done.
  by rewrite app_nil_r.
Qed.

Lemma visible_nil_trim (s : jsstring) : visible s = [] <-> trim s = [].
Proof.
  split.
  - intros Hv. assert (Hall : forallb isWhiteSpace s = true).
    { induction s as [|c s IH]; simpl in *; [done|].
      destruct (isWhiteSpace c); simpl in *; [auto|done]. }
    unfold trim. rewrite <- (app_nil_r s) at 1.
    by rewrite dropWhile_app_all.
  - intros Ht. by rewrite <- visible_trim, Ht.
Qed.

Lemma splitRunsFrom_not_nil (p : N -> bool) (b : bool) (s : jsstring) :
  splitRunsFrom p b s <> [].
Proof.
  revert b. induction s as [|c s IH]; intros b; simpl; [done|].
  destruct (p c); [destruct b; [apply IH|done]|].
  by destruct (splitRunsFrom p false s).
Qed.

(** Cutting removes the code units of the class and nothing else. *)
Lemma concat_splitRunsFrom (p : N -> bool) (b : bool) (s : jsstring) :
  concat (splitRunsFrom p b s) = List.filter (fun c => negb (p c)) s.
Proof.
  revert b. induction s as [|c s IH]; intros b; simpl; [done|].
  destruct (p c) eqn:Hc; simpl.
  - destruct b; simpl; apply IH.
  - specialize (IH false). destruct (splitRunsFrom p false s) as [|part parts]; simpl in *.
    + by rewrite <- IH.
    + by rewrite <- IH.
Qed.

Lemma splitRunsFrom_free (p : N -> bool) (b : bool) (s : jsstring) :
  Forall (fun part => forallb (fun c => negb (p c)) part = true) (splitRunsFrom p b s).
Proof.
  revert b. induction s as [|c s IH]; intros b; simpl.
  - by constructor.
  - destruct (p c) eqn:Hc.
    + destruct b; [apply IH|]. constructor; [done|apply IH].
    + specialize (IH false). destruct (splitRunsFrom p false s) as [|part parts].
      * constructor; [simpl; by rewrite Hc|done].
      * inversion IH; subst. constructor; [simpl; by rewrite Hc|done].
Qed.

(** A text without a code unit of the class is not cut. *)
Lemma splitRunsFrom_whole (p : N -> bool) (b : bool) (s : jsstring) :
  forallb (fun c => negb (p c)) s = true -> s <> [] -> splitRunsFrom p b s = [s].
Proof.
  revert b. induction s as [|c s IH]; intros b; simpl; [done|].
  intros [Hc Hs]%andb_true_iff _. apply negb_true_iff in Hc. rewrite Hc.
  destruct s as [|c' s]; [done|]. by rewrite (IH false Hs).
Qed.

Lemma forallb_trim (q : N -> bool) (s : jsstring) :
  forallb q s = true -> forallb q (trim s) = true.
Proof.
  unfold trim.
  destruct (dropWhile_suffix isWhiteSpace s) as (pre & Hs & _).
  destruct (dropWhileEnd_prefix isWhiteSpace (dropWhile isWhiteSpace s))
    as (post & Ht & _).
  rewrite Hs at 1. rewrite Ht at 1. rewrite !forallb_app, !andb_true_iff. tauto.
Qed.

(** ** formatPersonnelLists *)

Lemma isNewline_isWhiteSpace (c : N) : isNewline c = true -> isWhiteSpace c = true.
Proof.
  unfold isNewline. intros [->%N.eqb_eq| ->%N.eqb_eq]%orb_true_iff; reflexivity.
Qed.

(** What a name is: not empty, no white space at its ends, no line break. *)
Lemma personnelNames_shape (text : jsstring) :
  Forall (fun name => name <> [] /\ isTrimmed name
                      /\ forallb (fun c => negb (isNewline c)) name = true)
         (personnelNames text).
Proof.
  unfold personnelNames, splitRuns. apply List.Forall_forall.
  intros name [Hin Hlen]%filter_In. apply in_map_iff in Hin as (part & <- & Hpart).
  split_and!.
  - by destruct (trim part).
  - apply trim_trim.
  - apply forallb_trim.
    pose proof (splitRunsFrom_free isNewline false text) as Hfree.
    rewrite List.Forall_forall in Hfree. by apply Hfree.
Qed.

Lemma visible_concat_nonempty (l : list jsstring) :
  visible (concat (List.filter (fun s => (0 <? length s)%nat) l)) = visible (concat l).
Proof.
  induction l as [|s l IH]; simpl; [done|].
  destruct s as [|c s]; simpl; [done|]. fold (visible (c :: s ++ concat l)).
  change (c :: s ++ concat l) with ((c :: s) ++ concat l).
  change (c :: s ++ concat (List.filter (fun s => (0 <? length s)%nat) l))
    with ((c :: s) ++ concat (List.filter (fun s => (0 <? length s)%nat) l)).
  by rewrite !visible_app, IH.
Qed.

Lemma visible_concat_trim (l : list jsstring) :
  visible (concat (map trim l)) = visible (concat l).
Proof.
  induction l as [|s l IH]; simpl; [done|].
  by rewrite !visible_app, visible_trim, IH.
Qed.

Lemma visible_personnelNames (text : jsstring) :
  visible (concat (personnelNames text)) = visible text.
Proof.
  unfold personnelNames, splitRuns.
  rewrite visible_concat_nonempty, visible_concat_trim, concat_splitRunsFrom.
  unfold visible. induction text as [|c s IH]; simpl; [done|].
  destruct (isNewline c) eqn:Hc; simpl.
  - by rewrite (isNewline_isWhiteSpace c Hc).
  - destruct (isWhiteSpace c); simpl; by rewrite IH.
Qed.

Lemma textContent_personnelItems (a : attrs) (names : list jsstring) :
  textContent (Element a (map personnelItem names)) = concat names.
Proof.
  simpl. induction names as [|name names IH]; simpl; [done|].
  rewrite IH. f_equal. destruct name; simpl; [done|by rewrite app_nil_r].
Qed.

Lemma dropWhileEnd_fixed (p : N -> bool) (s : jsstring) :
  dropWhileEnd p s = s <-> dropWhile p (rev s) = rev s.
Proof.
  unfold dropWhileEnd. split; intros Heq.
  - rewrite <- Heq at 2. by rewrite rev_involutive.
  - by rewrite Heq, rev_involutive.
Qed.

Lemma dropWhile_fixed_app (p : N -> bool) (s t : jsstring) :
  s <> [] -> dropWhile p s = s -> dropWhile p (s ++ t) = s ++ t.
Proof.
  intros Hne Hs. apply dropWhile_fixed. apply dropWhile_fixed in Hs.
  by destruct s.
Qed.

Lemma dropWhileEnd_fixed_app (p : N -> bool) (s t : jsstring) :
  t <> [] -> dropWhileEnd p t = t -> dropWhileEnd p (s ++ t) = s ++ t.
Proof.
  intros Hne Ht. apply dropWhileEnd_fixed. apply dropWhileEnd_fixed in Ht.
  rewrite rev_app_distr. apply dropWhile_fixed_app; [|done].
  intros Hrev. apply Hne. by rewrite <- (rev_involutive t), Hrev.
Qed.

Lemma isTrimmed_concat (names : list jsstring) :
  Forall (fun name => name <> [] /\ isTrimmed name) names ->
  isTrimmed (concat names).
Proof.
  intros Hnames. apply isTrimmed_ends. split.
  - destruct Hnames as [|name names [Hne [Hfront _]%isTrimmed_ends] _]; [done|].
    simpl. by apply dropWhile_fixed_app.
  - induction Hnames as [|name names [Hne [_ Hend]%isTrimmed_ends] Hnames IH]; [done|].
    simpl. destruct names as [|name' names].
    + simpl. by rewrite app_nil_r.
    + apply dropWhileEnd_fixed_app; [|done].
      inversion Hnames as [|? ? [Hne' _] _]; subst. simpl. by destruct name'.
Qed.

Lemma forallb_concat (q : N -> bool) (l : list jsstring) :
  Forall (fun s => forallb q s = true) l -> forallb q (concat l) = true.
Proof.
  induction 1 as [|s l Hs _ IH]; simpl; [done|]. by rewrite forallb_app, Hs, IH.
Qed.

(** The names of a list that has been formatted: one name, the names of the
    first pass written one after the other. *)
Lemma personnelNames_concat (text : jsstring) :
  personnelNames text <> [] ->
  personnelNames (concat (personnelNames text)) = [concat (personnelNames text)].
Proof.
  intros Hne. pose proof (personnelNames_shape text) as Hshape.
  set (names := personnelNames text) in *.
  assert (Hs : concat names <> []).
  { destruct Hshape as [|name l [Hname _] _]; [done|]. simpl. by destruct name. }
  assert (Htrim : trim (concat names) = concat names).
  { apply isTrimmed_concat. eapply Forall_impl; [exact Hshape|]. simpl. tauto. }
  unfold personnelNames at 1, splitRuns.
  rewrite splitRunsFrom_whole; [|apply forallb_concat|done].
  - simpl. rewrite Htrim. by destruct (concat names).
  - eapply Forall_impl; [exact Hshape|]. simpl. tauto.
Qed.

Lemma formatLists_loopResult (n : node) :
  formatLists n
  = loopResult (fun a => jsEqb (tagName a) (lit "DIV") && hasClass (lit "columns-2") a)
               formatDiv
               (fun n => negb (bool_decide (personnelNames (textContent n) = []))) n.
Proof.
  induction n as [d|d|a cs IH] using node_ind_children; try done.
  cbn [formatLists loopResult]. cbv beta.
  destruct (_ && _ && _) eqn:Hc; [done|].
  f_equal. by apply List.map_ext_Forall.
Qed.

(** X1.  [formatPersonnelLists] changes nothing but the page, and the page it
    leaves is the one with every list formatted: a [div.columns-2] with at
    least one name has its content replaced by the [span]s of its names, one
    without a name is kept, and so are the lists inside it. *)
Theorem formatPersonnelLists_formats_every_list (w : world) :
  formatPersonnelLists w = withDocument (formatLists (document w)) w.
Proof.
  unfold formatPersonnelLists. f_equal. rewrite formatLists_loopResult.
  apply (loop_page _ formatDiv).
  - intros n Hstops. apply negb_false_iff, bool_decide_eq_true in Hstops.
    destruct n as [d|d|a cs]; try done. unfold formatDiv. by rewrite Hstops.
  - intros a cs Hstops. apply negb_true_iff, bool_decide_eq_false in Hstops.
    exists a, (map personnelItem (personnelNames (textContent (Element a cs)))).
    split.
    + unfold formatDiv. by destruct (personnelNames _).
    + intros i c q b Hc Hb.
      change (map personnelItem ?l) with (personnelItem <$> l) in Hc.
      apply list_lookup_fmap_Some in Hc as (name & -> & _).
      unfold attrsAt in Hb. destruct q as [|j q]; simpl in Hb.
      * by injection Hb as <-.
      * destruct name as [|ch name]; simpl in Hb; [done|].
        destruct j; simpl in Hb; [by destruct q|done].
Qed.

(** X2.  Every name of a personnel list is not empty, has no white space at
    its ends and no line break inside, and the [span]s of a formatted list
    hold exactly these names, in their order. *)
Theorem personnel_names_are_clean (a : attrs) (cs : list node) :
  let div := Element a cs in
  let names := personnelNames (textContent div) in
  Forall (fun name => name <> [] /\ isTrimmed name
                      /\ forallb (fun c => negb (isNewline c)) name = true) names
  /\ (names <> [] ->
      formatDiv div = Element a (map personnelItem names)
      /\ map textContent (map personnelItem names) = names).
Proof.
  intros div names. split; [apply personnelNames_shape|].
  intros Hne. split.
  - unfold formatDiv. fold names. by destruct names.
  - pose proof (personnelNames_shape (textContent div)) as Hshape. fold names in Hshape.
    induction Hshape as [|name l [Hname _] _ IH]; simpl; [done|].
    destruct l as [|name' l].
    + destruct name; [done|]. simpl. by rewrite app_nil_r.
    + rewrite IH by done. destruct name; [done|]. simpl. by rewrite app_nil_r.
Qed.

(** X3.  Formatting a list loses no visible character: white space apart, the
    text of the formatted [div] is the text it had. *)
Theorem formatDiv_keeps_visible_text (div : node) :
  visible (textContent (formatDiv div)) = visible (textContent div).
Proof.
  destruct div as [d|d|a cs]; try done. unfold formatDiv.
  destruct (personnelNames (textContent (Element a cs))) as [|name names] eqn:Hnames;
    [done|].
  rewrite textContent_personnelItems, <- Hnames. apply visible_personnelNames.
Qed.

(** X4.  Formatting is not idempotent.  The names of a formatted list are no
    longer separated by line breaks, so a second pass over a list with names
    leaves one [span] that holds all the names written one after the
    other. *)
Theorem formatDiv_twice_merges_names (a : attrs) (cs : list node) :
  let div := Element a cs in
  let names := personnelNames (textContent div) in
  formatDiv (formatDiv div)
  = match names with
    | [] => div
    | _ => Element a [personnelItem (concat names)]
    end.
Proof.
  intros div names.
  assert (Hfirst : formatDiv div
                   = match names with [] => div | _ => Element a (map personnelItem names) end)
    by (unfold formatDiv, names, div; by destruct (personnelNames _)).
  destruct names as [|name l] eqn:Hnames; rewrite Hfirst.
  - exact Hfirst.
  - unfold formatDiv. rewrite textContent_personnelItems, <- Hnames.
    unfold names. rewrite personnelNames_concat; [done|].
    fold names. by rewrite Hnames.
Qed.

(** ** wrapOrphanedTextNodes *)

Section OrphanFacts.
Context `{Host}.

Lemma orphanMarks_agree (l : list node) : marksAgree (orphanMarks l) l.
Proof.
  induction l as [|n l IH]; simpl; [done|].
  destruct (orphanStepOf n) eqn:Hn; simpl; auto.
Qed.

Lemma marked_wrap (marks : list bool) (l : list node) :
  marksAgree marks l -> Forall (fun n => orphanStepOf n = Wrap) (marked marks l).
Proof.
  revert l. induction marks as [|m marks IH]; intros l; simpl; [by constructor|].
  destruct l as [|n l]; [done|]. intros [Hn Hl]. destruct m; auto.
Qed.

Lemma marked_sublist (marks : list bool) (l : list node) : sublist (marked marks l) l.
Proof.
  revert l. induction marks as [|m marks IH]; intros l; simpl.
  - apply sublist_nil_l.
  - destruct l as [|n l]; [by destruct m|].
    destruct m; [by apply sublist_skip|by apply sublist_cons].
Qed.

Lemma unmarked_sublist (marks : list bool) (l : list node) : sublist (unmarked marks l) l.
Proof.
  revert l. induction marks as [|m marks IH]; intros l; simpl; [done|].
  destruct l as [|n l]; [by destruct m|].
  destruct m; [by apply sublist_cons|by apply sublist_skip].
Qed.

Lemma marked_unmarked (marks : list bool) (l : list node) :
  l ≡ₚ marked marks l ++ unmarked marks l.
Proof.
  revert l. induction marks as [|m marks IH]; intros l; simpl; [done|].
  destruct l as [|n l]; [by destruct m|]. destruct m; simpl.
  - by rewrite <- IH.
  - by rewrite <- Permutation_middle, <- IH.
Qed.

Lemma visible_skipped (n : node) :
  orphanStepOf n = Skip -> visible (descendantText n) = [].
Proof.
  destruct n as [d|d|a cs]; simpl; try done.
  - destruct (trim d) eqn:Hd; [|done]. intros _. by apply visible_nil_trim.
  - by repeat case_match.
Qed.

Lemma visible_flat_map_app (l1 l2 : list node) :
  visible (flat_map descendantText (l1 ++ l2))
  = visible (flat_map descendantText l1) ++ visible (flat_map descendantText l2).
Proof. by rewrite flat_map_app, visible_app. Qed.

Lemma visible_marked_unmarked (marks : list bool) (l : list node) :
  marksAgree marks l ->
  visible (flat_map descendantText (marked marks l))
  ++ visible (flat_map descendantText (unmarked marks l))
  = visible (flat_map descendantText l).
Proof.
  revert l. induction marks as [|m marks IH]; intros l; simpl; [done|].
  destruct l as [|n l]; [done|]. intros [Hn Hl]. destruct m; simpl.
  - by rewrite !visible_app, <- app_assoc, IH.
  - rewrite !visible_app, (visible_skipped n Hn). simpl. by apply IH.
Qed.

(** Where the wrapper goes: after the siblings that the walk passed over
    before it pushed one. *)
Lemma insertWrapper_parts (marks : list bool) (l : list node) (wrapper : node) :
  marksAgree marks l -> marked marks l <> [] ->
  exists before rest,
    insertWrapper marks l wrapper = before ++ wrapper :: rest
    /\ Forall (fun n => orphanStepOf n = Skip) before
    /\ l ≡ₚ before ++ marked marks l ++ rest
    /\ sublist (before ++ rest) l
    /\ orphanMarks before = map (fun _ => false) before
    /\ visible (flat_map descendantText before) = []
    /\ visible (flat_map descendantText l)
       = visible (flat_map descendantText (marked marks l))
         ++ visible (flat_map descendantText rest).
Proof.
  revert l. induction marks as [|m marks IH]; intros l; simpl; [done|].
  destruct l as [|n l]; [by destruct m|]. intros [Hn Hl] Hne. destruct m.
  - exists [], (unmarked marks l). simpl. split_and!; try done.
    + by rewrite <- marked_unmarked.
    + apply sublist_cons, unmarked_sublist.
    + by rewrite !visible_app, <- app_assoc, visible_marked_unmarked.
  - destruct (IH l Hl Hne)
      as (before & rest & Heq & Hskip & Hperm & Hsub & Hmarks & Hblank & Htext).
    exists (n :: before), rest. simpl. rewrite Heq, Hn, Hmarks.
    split_and!; try done.
    + by constructor.
    + by rewrite <- Hperm.
    + by apply sublist_skip.
    + by rewrite visible_app, (visible_skipped n Hn), Hblank.
    + by rewrite visible_app, (visible_skipped n Hn).
Qed.

Lemma wrapOrphans_cases (l : list node) :
  (marked (orphanMarks l) l = [] /\ wrapOrphans l = l)
  \/ (marked (orphanMarks l) l <> []
      /\ wrapOrphans l
         = insertWrapper (orphanMarks l) l (sectionIntro (marked (orphanMarks l) l))).
Proof.
  unfold wrapOrphans. destruct (marked (orphanMarks l) l) eqn:Hm; [by left|by right].
Qed.

Lemma orphanMarks_length (l : list node) : (length (orphanMarks l) <= length l)%nat.
Proof.
  induction l as [|n l IH]; simpl; [done|]. destruct (orphanStepOf n); simpl; lia.
Qed.

Lemma orphanMarks_stop (l1 l2 : list node) (stop : node) :
  orphanStepOf stop = Stop -> orphanMarks (l1 ++ stop :: l2) = orphanMarks l1.
Proof.
  intros Hstop. induction l1 as [|n l1 IH]; simpl; [by rewrite Hstop|].
  destruct (orphanStepOf n); by rewrite ?IH.
Qed.

Lemma marked_app (marks : list bool) (l1 l2 : list node) :
  (length marks <= length l1)%nat -> marked marks (l1 ++ l2) = marked marks l1.
Proof.
  revert l1. induction marks as [|m marks IH]; intros l1 Hlen; simpl; [done|].
  destruct l1 as [|n l1]; simpl in *; [lia|]. destruct m; rewrite IH by lia; done.
Qed.

Lemma unmarked_app (marks : list bool) (l1 l2 : list node) :
  (length marks <= length l1)%nat ->
  unmarked marks (l1 ++ l2) = unmarked marks l1 ++ l2.
Proof.
  revert l1. induction marks as [|m marks IH]; intros l1 Hlen; simpl; [done|].
  destruct l1 as [|n l1]; simpl in *; [lia|]. destruct m; rewrite IH by lia; done.
Qed.

Lemma insertWrapper_app (marks : list bool) (l1 l2 : list node) (wrapper : node) :
  (length marks <= length l1)%nat ->
  insertWrapper marks (l1 ++ l2) wrapper = insertWrapper marks l1 wrapper ++ l2.
Proof.
  revert l1. induction marks as [|m marks IH]; intros l1 Hlen; simpl; [done|].
  destruct l1 as [|n l1]; simpl in *; [lia|]. destruct m; simpl.
  - by rewrite unmarked_app by lia.
  - by rewrite IH by lia.
Qed.

(** X5.  The body for one heading loses and copies nothing.  It leaves the
    siblings as they are, or it puts one [p.section-intro] in the place of
    the first sibling that it pushed; the wrapper holds the pushed siblings
    (text that is not blank, inline elements) in their order, the siblings
    before it are blank text and comments, and the siblings of before are
    the siblings of after up to their order. *)
Theorem wrapOrphans_moves_only_orphans (l : list node) :
  wrapOrphans l = l
  \/ exists before nodesToWrap rest,
       wrapOrphans l = before ++ sectionIntro nodesToWrap :: rest
       /\ nodesToWrap <> []
       /\ Forall (fun n => orphanStepOf n = Wrap) nodesToWrap
       /\ Forall (fun n => orphanStepOf n = Skip) before
       /\ l ≡ₚ before ++ nodesToWrap ++ rest
       /\ sublist nodesToWrap l /\ sublist (before ++ rest) l.
Proof.
  destruct (wrapOrphans_cases l) as [[_ Heq]|[Hne Heq]]; [by left|right].
  destruct (insertWrapper_parts _ l (sectionIntro (marked (orphanMarks l) l))
              (orphanMarks_agree l) Hne)
    as (before & rest & Hins & Hskip & Hperm & Hsub & _).
  exists before, (marked (orphanMarks l) l), rest.
  split_and!; try done.
  - by rewrite Heq.
  - apply marked_wrap, orphanMarks_agree.
  - apply marked_sublist.
Qed.

Lemma visible_text_alter (g : node -> node) (i : nat) (cs : list node) :
  (forall c, cs !! i = Some c ->
             visible (descendantText (g c)) = visible (descendantText c)) ->
  visible (flat_map descendantText (alter g i cs)) = visible (flat_map descendantText cs).
Proof.
  revert i. induction cs as [|c cs IH]; intros i Hg; [done|].
  destruct i as [|i]; simpl; rewrite !visible_app.
  - by rewrite (Hg c).
  - f_equal. apply IH. intros c' Hc'. by apply Hg.
Qed.

Lemma visible_text_updateNode (p : path) (g : node -> node) (doc : node) :
  (forall n, visible (descendantText (g n)) = visible (descendantText n)) ->
  visible (descendantText (updateNode p g doc)) = visible (descendantText doc).
Proof.
  intros Hg. revert doc. induction p as [|i p IH]; intros doc; simpl; [apply Hg|].
  destruct doc as [d|d|a cs]; try done. simpl.
  apply visible_text_alter. intros c _. apply IH.
Qed.

Lemma visible_text_wrapOrphans (l : list node) :
  visible (flat_map descendantText (wrapOrphans l)) = visible (flat_map descendantText l).
Proof.
  destruct (wrapOrphans_cases l) as [[_ ->]|[Hne ->]]; [done|].
  destruct (insertWrapper_parts _ l (sectionIntro (marked (orphanMarks l) l))
              (orphanMarks_agree l) Hne)
    as (skipped & rest & -> & _ & _ & _ & _ & Hblank & ->).
  rewrite visible_flat_map_app, Hblank. simpl.
  by rewrite visible_app.
Qed.

(** X6.  Wrapping after a heading changes no visible text: white space apart,
    the text of the page is the same before and after. *)
Theorem wrapOrphansAfter_keeps_visible_text (doc : node) (h2 : path) :
  visible (textContent (wrapOrphansAfter doc h2)) = visible (textContent doc).
Proof.
  unfold wrapOrphansAfter. destruct (isChecklistHeading doc h2); [done|].
  destruct (parentPath h2) as [[parent i]|]; [|done].
  set (g := fun n : node => _).
  assert (Hg : forall n, visible (descendantText (g n)) = visible (descendantText n)).
  { intros [d|d|a cs]; try done. unfold g. cbn [descendantText].
    rewrite <- (take_drop (S i) cs) at 3.
    by rewrite !visible_flat_map_app, visible_text_wrapOrphans. }
  destruct doc as [d|d|a cs].
  - by destruct parent.
  - by destruct parent.
  - assert (Helem : exists a' cs', updateNode parent g (Element a cs) = Element a' cs').
    { destruct parent; simpl; eauto. }
    pose proof (visible_text_updateNode parent g (Element a cs) Hg) as Htext.
    destruct Helem as (a' & cs' & Heq). by rewrite Heq in *.
Qed.

(** X7.  The walk does not go past a heading, a section, a paragraph or a
    list (any sibling at which the loop breaks): the siblings from there on
    stay where and what they are. *)
Theorem wrapOrphans_stops_at_blocks (l1 l2 : list node) (stop : node) :
  orphanStepOf stop = Stop ->
  wrapOrphans (l1 ++ stop :: l2) = wrapOrphans l1 ++ stop :: l2.
Proof.
  intros Hstop. unfold wrapOrphans. rewrite (orphanMarks_stop l1 l2 stop Hstop).
  pose proof (orphanMarks_length l1) as Hlen.
  rewrite marked_app by done.
  destruct (marked (orphanMarks l1) l1); [done|]. by apply insertWrapper_app.
Qed.

(** X8.  On a browser whose [toUpperCase] leaves [P] as it is, wrapping is
    idempotent: the wrapper is a paragraph, at which the next walk breaks
    before it has pushed anything. *)
Theorem wrapOrphans_idempotent (l : list node) :
  toUpperCase (lit "P") = lit "P" ->
  wrapOrphans (wrapOrphans l) = wrapOrphans l.
Proof.
  intros Hupper.
  destruct (wrapOrphans_cases l) as [[_ Heq]|[Hne Heq]]; [by rewrite !Heq|].
  destruct (insertWrapper_parts _ l (sectionIntro (marked (orphanMarks l) l))
              (orphanMarks_agree l) Hne)
    as (before & rest & Hins & _ & _ & _ & Hmarks & _).
  rewrite Heq, Hins. unfold wrapOrphans at 1.
  rewrite orphanMarks_stop by (simpl; by rewrite Hupper).
  rewrite Hmarks. clear.
  assert (Hnone : forall more, marked (map (fun _ => false) before) (before ++ more) = []).
  { induction before as [|n before IH]; intros more; simpl; [done|]. apply IH. }
  by rewrite Hnone.
Qed.

End OrphanFacts.

(** The idempotence of the wrapping at the host of the examples. *)
Lemma wrapOrphans_idempotent_example :
  let l := [TextNode (lit " "); TextNode (lit "Welcome to the lab.");
            Examples.el "A" [TextNode (lit "More")]; Examples.el "UL" []] in
  @wrapOrphans Examples.host (@wrapOrphans Examples.host l) = @wrapOrphans Examples.host l.
Proof. apply (@wrapOrphans_idempotent Examples.host). reflexivity. Defined.

(** A heading ends the walk. *)
Lemma wrapOrphans_stops_at_blocks_example :
  let h2 := Examples.el "H2" [TextNode (lit "Next")] in
  @wrapOrphans Examples.host [TextNode (lit "Intro"); h2; TextNode (lit "Body")]
  = @wrapOrphans Examples.host [TextNode (lit "Intro")] ++ [h2; TextNode (lit "Body")].
Proof.
  apply (@wrapOrphans_stops_at_blocks Examples.host [TextNode (lit "Intro")]).
  reflexivity.
Defined.

(** ** Saving, and the handlers that save *)

Lemma saveChecklistState_cases `{Host} (w : world) :
  saveChecklistState w = w
  \/ exists store text,
       localStorage w = Some store
       /\ saveChecklistState w = withLocalStorage (Some (<[storageKey := text]> store)) w
       /\ forall w', document w' = document w -> signatureCanvas w' = signatureCanvas w ->
            forall store', localStorage w' = Some store' ->
              saveChecklistState w' = withLocalStorage (Some (<[storageKey := text]> store')) w'.
Proof.
  unfold saveChecklistState.
  destruct (match signatureCanvas w with
            | Some p => option_map toDataURL (canvasAt (document w) p)
            | None => Some []
            end) as [signature|] eqn:Hsig; [|by left].
  destruct (localStorage w) as [store|] eqn:Hstore; [|by left].
  right. exists store, (JSON_stringify (formState (checkboxStates (document w))
                                            (dateFieldValue (document w)) signature)).
  split_and!; try done.
  intros w' Hdoc Hcanvas store' Hstore'. by rewrite Hdoc, Hcanvas, Hsig, Hstore'.
Qed.

Lemma saveChecklistState_idempotent `{Host} (w : world) :
  saveChecklistState (saveChecklistState w) = saveChecklistState w.
Proof.
  destruct (saveChecklistState_cases w) as [Heq|(store & text & Hstore & Heq & Hnext)].
  - by rewrite !Heq.
  - rewrite Heq.
    rewrite (Hnext (withLocalStorage (Some (<[storageKey := text]> store)) w)
                   eq_refl eq_refl (<[storageKey := text]> store) eq_refl).
    unfold withLocalStorage. simpl. by rewrite insert_insert_eq.
Qed.


Section HandlerFacts.
Context `{Host}.
Variable strokePath : context2d -> list pathCommand -> bitmap -> bitmap.




End HandlerFacts.


(** ** The checkboxes and their markers *)

Lemma hasClass_classListRemove (c d : jsstring) (a : attrs) :
  hasClass c (classListRemove d a) = hasClass c a && negb (jsEqb c d).
Proof.
  unfold hasClass, classListRemove. simpl.
  induction (classList a) as [|t l IH]; simpl; [done|].
  unfold jsEqb in *. destruct (decide (d = t)) as [->|Hdt].
  - rewrite (bool_decide_eq_true_2 (t = t)) by done. simpl. rewrite IH.
    destruct (decide (c = t)) as [->|Hct].
    + rewrite (bool_decide_eq_true_2 (t = t)) by done. simpl.
      by rewrite andb_false_r.
    + by rewrite (bool_decide_eq_false_2 (c = t)) by done.
  - rewrite (bool_decide_eq_false_2 (d = t)) by done. simpl. rewrite IH.
    destruct (decide (c = t)) as [->|Hct].
    + rewrite (bool_decide_eq_true_2 (t = t)) by done. simpl.
      rewrite (bool_decide_eq_false_2 (t = d)) by done. done.
    + rewrite (bool_decide_eq_false_2 (c = t)) by done. done.
Qed.

Lemma selectorKey_classListRemove_completed (a : attrs) :
  selectorKey (classListRemove (lit "completed") a) = selectorKey a.
Proof.
  unfold selectorKey. rewrite hasClass_classListRemove. simpl.
  by rewrite andb_true_r.
Qed.

Lemma checkedAt_field (doc doc' : node) (q : path) :
  checked <$> attrsAt doc' q = checked <$> attrsAt doc q ->
  checkedAt doc' q = checkedAt doc q.
Proof.
  unfold checkedAt. destruct (attrsAt doc' q), (attrsAt doc q); simpl; congruence.
Qed.

Lemma hasClassAt_updateAttrs (c : jsstring) (f : attrs -> attrs) (p q : path) (doc : node) :
  hasClassAt c (updateAttrs p f doc) q
  = match attrsAt doc q with
    | Some a => hasClass c (if decide (q = p) then f a else a)
    | None => false
    end.
Proof.
  unfold hasClassAt. rewrite attrsAt_updateAttrs.
  case_decide; by destruct (attrsAt doc q).
Qed.

Lemma checkedAt_updateAttrs (f : attrs -> attrs) (p q : path) (doc : node) :
  checkedAt (updateAttrs p f doc) q
  = match attrsAt doc q with
    | Some a => checked (if decide (q = p) then f a else a)
    | None => false
    end.
Proof.
  unfold checkedAt. rewrite attrsAt_updateAttrs.
  case_decide; by destruct (attrsAt doc q).
Qed.

Lemma parentPath_ne (cb r : path) (n : nat) : parentPath cb = Some (r, n) -> r <> cb.
Proof.
  intros ->%parentPath_spec Heq. apply (f_equal length) in Heq.
  rewrite length_app in Heq. simpl in Heq. lia.
Qed.

Lemma NoDup_map_inj {A B : Type} (g : A -> B) (l : list A) (x y : A) :
  NoDup (map g l) -> In x l -> In y l -> g x = g y -> x = y.
Proof.
  induction l as [|z l IH]; simpl; [done|].
  intros Hown [->|Hin] [->|Hin'] Heq; try done.
  - apply NoDup_cons in Hown as [Hx _]. destruct Hx.
    rewrite Heq. apply list_elem_of_In, in_map_iff. eauto.
  - apply NoDup_cons in Hown as [Hx _]. destruct Hx.
    rewrite <- Heq. apply list_elem_of_In, in_map_iff. eauto.
  - apply NoDup_cons in Hown as [_ Hl]. by apply IH.
Qed.

Section MarkerFacts.
Context `{Host}.

(** The page after a click on a checkbox. *)
Lemma clickCheckbox_document (cb r : path) (n : nat) (w : world) :
  parentPath cb = Some (r, n) ->
  document (clickCheckbox cb w)
  = let doc1 := updateAttrs cb (fun a => withChecked (negb (checked a)) a) (document w) in
    updateAttrs r (if checkedAt doc1 cb then classListAdd (lit "completed")
                   else classListRemove (lit "completed")) doc1.
Proof.
  intros Hparent. unfold clickCheckbox, toggleCompleted. simpl. rewrite Hparent.
  by rewrite (proj1 (saveChecklistState_frame _)).
Qed.

Lemma clickCheckbox_sameSelectors (cb : path) (w : world) :
  sameSelectors (document w) (document (clickCheckbox cb w)).
Proof.
  unfold clickCheckbox, toggleCompleted. simpl.
  set (doc1 := updateAttrs cb _ (document w)).
  assert (H1 : sameSelectors (document w) doc1)
    by (apply sameSelectors_updateAttrs; intros a; apply selectorKey_withChecked).
  destruct (parentPath cb) as [[r n]|];
    rewrite (proj1 (saveChecklistState_frame _)); simpl; [|done].
  eapply sameSelectors_trans; [exact H1|].
  apply sameSelectors_updateAttrs. intros a.
  destruct (checkedAt doc1 cb);
    [apply selectorKey_classListAdd_completed|apply selectorKey_classListRemove_completed].
Qed.

Lemma clickCheckbox_effect (w : world) (cb r : path) (n : nat) :
  In cb (checklistCheckboxes (document w)) -> parentPath cb = Some (r, n) ->
  let doc := document w in
  let doc' := document (clickCheckbox cb w) in
  checkedAt doc' cb = negb (checkedAt doc cb)
  /\ hasClassAt (lit "completed") doc' r = checkedAt doc' cb
  /\ (forall q, q <> cb -> checkedAt doc' q = checkedAt doc q)
  /\ (forall c q, q <> r \/ c <> lit "completed" -> hasClassAt c doc' q = hasClassAt c doc q)
  /\ checklistCheckboxes doc' = checklistCheckboxes doc
  /\ inSync (clickCheckbox cb w).
Proof.
  intros Hin Hparent doc doc'.
  assert (Hcb : is_Some (attrsAt doc cb)).
  { pose proof (checklistCheckboxes_elements doc) as Hall.
    rewrite List.Forall_forall in Hall. by apply Hall. }
  assert (Hr : is_Some (attrsAt doc r)) by (by eapply parent_is_element).
  pose proof (parentPath_ne cb r n Hparent) as Hne.
  destruct Hcb as [a Ha]. destruct Hr as [b Hb].
  assert (Hflip : forall q, checkedAt doc' q
                            = if decide (q = cb) then negb (checkedAt doc q)
                              else checkedAt doc q).
  { intros q. unfold doc'. rewrite (clickCheckbox_document cb r n w Hparent). cbv zeta.
    rewrite checkedAt_updateAttrs, attrsAt_updateAttrs. fold doc.
    unfold checkedAt at 2 3. destruct (attrsAt doc q) as [a'|] eqn:Hq.
    - repeat case_decide; subst; simpl; try done;
        destruct (checkedAt _ _); simpl; try done;
        try apply checked_classListAdd.
    - repeat case_decide; subst; simpl; try done. congruence. }
  assert (Hnow : checkedAt doc' cb = negb (checkedAt doc cb))
    by (rewrite Hflip; by case_decide).
  assert (Hclass : forall c q, hasClassAt c doc' q
                               = match attrsAt doc q with
                                 | Some a' =>
                                     if decide (q = r)
                                     then (if negb (checkedAt doc cb)
                                           then hasClass c a' || jsEqb c (lit "completed")
                                           else hasClass c a' && negb (jsEqb c (lit "completed")))
                                     else hasClass c a'
                                 | None => false
                                 end).
  { intros c q. unfold doc'. rewrite (clickCheckbox_document cb r n w Hparent). cbv zeta.
    rewrite hasClassAt_updateAttrs, attrsAt_updateAttrs. fold doc.
    rewrite checkedAt_updateAttrs. fold doc. rewrite Ha.
    destruct (decide (cb = cb)) as [_|]; [|done]. cbn [withChecked checked].
    unfold checkedAt. rewrite Ha.
    destruct (attrsAt doc q) as [a'|] eqn:Hq; [|by destruct (decide (q = cb))].
    destruct (decide (q = cb)) as [->|Hqcb]; simpl.
    - destruct (decide (cb = r)) as [Heq|_]; [by destruct Hne|done].
    - destruct (decide (q = r)) as [_|_]; [|done].
      destruct (checked a); simpl;
        [apply hasClass_classListRemove|apply hasClass_classListAdd]. }
  split_and!.
  - done.
  - rewrite Hclass, Hb, Hnow. case_decide; [|done].
    destruct (checkedAt doc cb); simpl; [by rewrite andb_false_r|by rewrite orb_true_r].
  - intros q Hq. rewrite Hflip. by case_decide.
  - intros c q Hcases. rewrite Hclass. unfold hasClassAt.
    destruct (attrsAt doc q) as [a'|]; [|done].
    case_decide; [|done]. destruct Hcases as [Hq|Hc]; [done|].
    unfold jsEqb. rewrite (bool_decide_eq_false_2 _ Hc).
    destruct (checkedAt doc cb); simpl; [by rewrite andb_true_r|by rewrite orb_false_r].
  - apply sameSelectors_checkboxes, clickCheckbox_sameSelectors.
  - unfold clickCheckbox, toggleCompleted, inSync. rewrite Hparent.
    apply saveChecklistState_idempotent.
Qed.

(** X11.  A click on a checklist checkbox flips that checkbox and no other,
    sets the [completed] marker of its item to the new state of the
    checkbox, leaves every other class and marker alone, keeps the list of
    checkboxes, and ends with the storage in step with the form. *)
Theorem clickCheckbox_marks_the_item (w : world) (cb r : path) (n : nat) :
  In cb (checklistCheckboxes (document w)) -> parentPath cb = Some (r, n) ->
  let doc := document w in
  let doc' := document (clickCheckbox cb w) in
  checkedAt doc' cb = negb (checkedAt doc cb)
  /\ hasClassAt (lit "completed") doc' r = checkedAt doc' cb
  /\ (forall q, q <> cb -> checkedAt doc' q = checkedAt doc q)
  /\ (forall c q, q <> r \/ c <> lit "completed" -> hasClassAt c doc' q = hasClassAt c doc q)
  /\ checklistCheckboxes doc' = checklistCheckboxes doc
  /\ inSync (clickCheckbox cb w).
Proof. apply clickCheckbox_effect. Qed.

Lemma restoredAt_spec (v : jsval) (k : nat) (cbs : list path) (q : path) :
  restoredAt v k cbs q = true <->
  exists i, cbs !! i = Some q /\ entryTruthy v (k + i) = true.
Proof.
  revert k. induction cbs as [|cb cbs IH]; intros k; simpl.
  - split; [done|]. by intros (i & Hi & _).
  - rewrite orb_true_iff, andb_true_iff, bool_decide_eq_true, IH. split.
    + intros [[-> Ht]|(i & Hi & Ht)].
      * exists 0%nat. by rewrite Nat.add_0_r.
      * exists (S i). by rewrite Nat.add_succ_r.
    + intros ([|i] & Hi & Ht); simpl in Hi.
      * left. injection Hi as ->. by rewrite Nat.add_0_r in Ht.
      * right. exists i. by rewrite Nat.add_succ_r in Ht.
Qed.

Lemma checklistCheckbox_has_parent (doc : node) (cb : path) :
  In cb (checklistCheckboxes doc) -> exists r n, parentPath cb = Some (r, n).
Proof.
  intros [_ Hcb]%filter_In. unfold isChecklistCheckbox in Hcb.
  destruct cb as [|i cb] using rev_ind.
  - destruct (attrsAt doc []); [|done]. simpl in Hcb. by rewrite andb_false_r in Hcb.
  - exists cb, i. by apply parentPath_spec.
Qed.

Lemma ownParents_inj (doc : node) (cb cb' r : path) (n n' : nat) :
  ownParents doc ->
  In cb (checklistCheckboxes doc) -> In cb' (checklistCheckboxes doc) ->
  parentPath cb = Some (r, n) -> parentPath cb' = Some (r, n') -> cb = cb'.
Proof.
  unfold ownParents. intros Hown Hin Hin' Hp Hp'.
  apply (NoDup_map_inj (fun cb : path => fst <$> parentPath cb) _ _ _ Hown Hin Hin').
  by rewrite Hp, Hp'.
Qed.

(** The page after [loadChecklistState], checkbox by checkbox and marker by
    marker. *)
Lemma loadChecklistState_effect (w : world) :
  (forall q, checkedAt (document (loadChecklistState w)) q = checkedAt (document w) q
   /\ forall c, hasClassAt c (document (loadChecklistState w)) q
                = hasClassAt c (document w) q)
  \/ exists v,
       (forall q, checkedAt (document (loadChecklistState w)) q
                  = checkedAt (document w) q
                    || restoredAt v 0 (checklistCheckboxes (document w)) q)
       /\ (forall r, hasClassAt (lit "completed") (document (loadChecklistState w)) r
                     = hasClassAt (lit "completed") (document w) r
                       || (completedAt v 0 (checklistCheckboxes (document w)) r
                           && bool_decide (is_Some (attrsAt (document w) r)))).
Proof.
  rewrite loadChecklistState_document.
  destruct (storedState w) as [state|]; [|by left].
  destruct (getProperty state (lit "checkboxes")) as [v|]; [|by left].
  destruct (getProperty state (lit "date")) as [date|]; [|by left].
  right. exists v. cbv zeta.
  set (doc1 := restoreCheckboxes v 0 _ _).
  destruct (restoreDate_frame date doc1) as (_ & Hchecked & Hclass). cbv zeta in *.
  split.
  - intros q. rewrite Hchecked. unfold doc1.
    apply checkedAt_restoreCheckboxes, checklistCheckboxes_elements.
  - intros r. rewrite Hclass. unfold doc1. rewrite hasClassAt_restoreCheckboxes.
    unfold jsEqb. rewrite (bool_decide_eq_true_2 (lit "completed" = lit "completed")) by done.
    by rewrite andb_true_r.
Qed.

(** X12.  The markers stay in step with the checkboxes.  On a form in which
    every checklist checkbox has a parent of its own and the [completed]
    marker of each parent tells whether its checkbox is checked, this is
    still so after [loadChecklistState] and after a click on any checkbox of
    the list. *)
Theorem completed_markers_stay_in_step (w : world) :
  ownParents (document w) -> markersAgree (document w) ->
  (ownParents (document (loadChecklistState w))
   /\ markersAgree (document (loadChecklistState w)))
  /\ forall cb, In cb (checklistCheckboxes (document w)) ->
       ownParents (document (clickCheckbox cb w))
       /\ markersAgree (document (clickCheckbox cb w)).
Proof.
  intros Hown Hagree. split.
  - destruct (loadChecklistState_states w) as [Hcbs _].
    split; [unfold ownParents; by rewrite Hcbs|].
    intros cb r n Hin Hparent. rewrite Hcbs in Hin.
    destruct (loadChecklistState_effect w) as [Hsame|(v & Hchecked & Hclass)].
    + destruct (Hsame cb) as [-> _]. destruct (Hsame r) as [_ ->]. by eapply Hagree.
    + rewrite Hchecked, Hclass, (Hagree cb r n Hin Hparent). f_equal.
      assert (Hr : is_Some (attrsAt (document w) r)).
      { eapply parent_is_element; [|exact Hparent].
        pose proof (checklistCheckboxes_elements (document w)) as Hall.
        rewrite List.Forall_forall in Hall. by apply Hall. }
      rewrite (bool_decide_eq_true_2 _ Hr), andb_true_r.
      apply eq_true_iff_eq. rewrite completedAt_spec, restoredAt_spec. split.
      * intros (i & cb' & n' & Hi & Hp' & Ht). exists i. split; [|done].
        rewrite Hi. f_equal. symmetry.
        eapply (ownParents_inj (document w)); eauto.
        apply list_elem_of_In. by eapply list_elem_of_lookup_2.
      * intros (i & Hi & Ht). by exists i, cb, n.
  - intros cb Hin.
    destruct (checklistCheckbox_has_parent _ _ Hin) as (r & n & Hparent).
    destruct (clickCheckbox_effect w cb r n Hin Hparent)
      as (Hcb & Hr & Hothers & Hclasses & Hcbs & _).
    split; [unfold ownParents; by rewrite Hcbs|].
    intros cb' r' n' Hin' Hparent'. rewrite Hcbs in Hin'.
    destruct (decide (cb' = cb)) as [->|Hne].
    + rewrite Hparent in Hparent'. by injection Hparent' as <- <-.
    + rewrite (Hothers cb' Hne), Hclasses; [by eapply Hagree|].
      left. intros ->. apply Hne. by eapply (ownParents_inj (document w)).
Qed.

End MarkerFacts.

(** A click on the first checkbox of the small form of the examples. *)
Lemma clickCheckbox_marks_the_item_example :
  let doc' := document (@clickCheckbox Examples.host [0; 0; 0]%nat Examples.filledIn) in
  checkedAt doc' [0; 0; 0]%nat = false
  /\ hasClassAt (lit "completed") doc' [0; 0]%nat = false.
Proof.
  destruct (@clickCheckbox_marks_the_item Examples.host Examples.filledIn
              [0; 0; 0]%nat [0; 0]%nat 0%nat)
    as (Hchecked & Hmarker & _).
  - vm_compute. auto.
  - reflexivity.
  - split; [exact Hchecked|]. rewrite Hmarker. exact Hchecked.
Defined.

(** The form that the current builder makes of the example page is such a
    form; it stays one when the second item is clicked. *)
Lemma completed_markers_stay_in_step_example :
  markersAgree (document (@clickCheckbox Examples.host [1; 2; 0]%nat Examples.converted)).
Proof.
  destruct (@completed_markers_stay_in_step Examples.host Examples.converted)
    as [_ Hclick].
  - apply (bool_decide_unpack _). vm_compute. exact I.
  - intros cb r n Hin Hparent. vm_compute in Hin.
    destruct Hin as [<-|[<-|[<-|[]]]]; vm_compute in Hparent;
      injection Hparent as <- <-; reflexivity.
  - apply Hclick. vm_compute. auto.
Defined.

(** ** The items that the builders extract *)

Lemma dropWhile_app_keep (p : N -> bool) (s t : jsstring) :
  dropWhile p s <> [] -> dropWhile p (s ++ t) = dropWhile p s ++ t.
Proof.
  induction s as [|c s IH]; simpl; [done|]. destruct (p c); [apply IH|done].
Qed.

Lemma dropWhileEnd_cons (p : N -> bool) (c : N) (s : jsstring) :
  dropWhileEnd p (c :: s)
  = match dropWhileEnd p s with
    | [] => if p c then [] else [c]
    | kept => c :: kept
    end.
Proof.
  unfold dropWhileEnd. simpl.
  destruct (dropWhile p (rev s)) as [|x t] eqn:Hd.
  - destruct (dropWhile_suffix p (rev s)) as (pre & Heq & Hpre).
    rewrite Hd, app_nil_r in Heq. rewrite Heq, dropWhile_app_all by done.
    simpl. by destruct (p c).
  - rewrite dropWhile_app_keep by (by rewrite Hd). rewrite Hd, rev_app_distr. simpl.
    destruct (rev t ++ [x]) eqn:Hr; [by destruct (rev t)|done].
Qed.

Lemma forallb_dropWhile (q p : N -> bool) (s : jsstring) :
  forallb q s = true -> forallb q (dropWhile p s) = true.
Proof.
  intros Hs. destruct (dropWhile_suffix p s) as (pre & Heq & _).
  rewrite Heq, forallb_app in Hs. by apply andb_true_iff in Hs as [_ ?].
Qed.

Lemma forallb_dropWhileEnd (q p : N -> bool) (s : jsstring) :
  forallb q s = true -> forallb q (dropWhileEnd p s) = true.
Proof.
  intros Hs. destruct (dropWhileEnd_prefix p s) as (post & Heq & _).
  rewrite Heq, forallb_app in Hs. by apply andb_true_iff in Hs as [? _].
Qed.

Lemma visible_collapseFrom (b : bool) (s : jsstring) :
  visible (collapseFrom b s) = visible s.
Proof.
  revert b. induction s as [|c s IH]; intros b; simpl; [done|].
  destruct (isWhiteSpace c) eqn:Hc.
  - destruct b; simpl; by rewrite ?IH.
  - simpl. by rewrite Hc, IH.
Qed.

Lemma spacedUpToEnd_collapseFrom (b : bool) (s : jsstring) :
  spacedUpToEnd (collapseFrom b s) = true
  /\ (b = true -> match collapseFrom b s with
                  | c :: _ => isWhiteSpace c = false
                  | [] => True
                  end).
Proof.
  revert b. induction s as [|c s IH]; intros b; simpl; [done|].
  destruct (isWhiteSpace c) eqn:Hc.
  - destruct b; [apply IH|]. destruct (IH true) as [Hspaced Hhead]. split; [|done].
    simpl. rewrite Hspaced, andb_true_r. change (isWhiteSpace 32) with true. simpl.
    specialize (Hhead eq_refl). destruct (collapseFrom true s); [done|].
    by rewrite Hhead.
  - destruct (IH false) as [Hspaced _]. split; [|done]. simpl. by rewrite Hc.
Qed.

Lemma spacedUpToEnd_dropWhile (p : N -> bool) (s : jsstring) :
  spacedUpToEnd s = true -> spacedUpToEnd (dropWhile p s) = true.
Proof.
  induction s as [|c s IH]; simpl; [done|].
  intros Hall. destruct (p c) eqn:Hc; [|done].
  apply IH. by apply andb_true_iff in Hall as [_ ?].
Qed.

Lemma singleSpaced_dropWhileEnd (s : jsstring) :
  spacedUpToEnd s = true -> singleSpaced (dropWhileEnd isWhiteSpace s) = true.
Proof.
  induction s as [|c s IH]; [done|].
  intros [Hc Hs]%andb_true_iff. rewrite dropWhileEnd_cons. specialize (IH Hs).
  destruct (dropWhileEnd isWhiteSpace s) as [|x kept] eqn:Hkept.
  - destruct (isWhiteSpace c) eqn:Hws; [done|]. simpl. by rewrite Hws.
  - change (singleSpaced (c :: x :: kept))
      with ((if isWhiteSpace c then (c =? 32) && negb (isWhiteSpace x) else true)
            && singleSpaced (x :: kept)).
    rewrite IH, andb_true_r.
    destruct (isWhiteSpace c) eqn:Hws; [|done].
    apply andb_true_iff in Hc as [-> Hnext]. simpl.
    destruct s as [|c' s']; [done|].
    apply negb_true_iff in Hnext.
    rewrite dropWhileEnd_cons_stop in Hkept by done. injection Hkept as <- _.
    by rewrite Hnext.
Qed.

Lemma trim_collapse_tidy (t : jsstring) :
  visible t <> [] ->
  let item := trim (collapseWhiteSpace t) in
  item <> [] /\ isTrimmed item /\ singleSpaced item = true /\ visible item = visible t.
Proof.
  intros Hvisible item.
  assert (Hsame : visible item = visible t)
    by (unfold item, collapseWhiteSpace; by rewrite visible_trim, visible_collapseFrom).
  split_and!; try done.
  - intros Hnil. by rewrite Hnil in Hsame.
  - apply trim_trim.
  - unfold item, trim. apply singleSpaced_dropWhileEnd, spacedUpToEnd_dropWhile.
    apply spacedUpToEnd_collapseFrom.
Qed.

Lemma longItems_visible (texts : list jsstring) :
  Forall (fun t => visible t <> []) (longItems texts).
Proof.
  unfold longItems. apply List.Forall_forall.
  intros t [Hin Hlen]%filter_In. apply in_map_iff in Hin as (x & <- & _).
  intros Hv. apply visible_nil_trim in Hv. rewrite trim_trim in Hv.
  by rewrite Hv in Hlen.
Qed.

(** X13.  Every item that the current builder extracts is tidy: it is not
    empty, has no white space at its ends, and all the white space inside
    it is single spaces. *)
Theorem Current_items_are_tidy `{Host} (nodesToHide : list node) :
  Forall (fun item => item <> [] /\ isTrimmed item /\ singleSpaced item = true)
         (Current.extractItems nodesToHide).
Proof.
  rewrite extractItems_segments.
  pose proof (longItems_visible
                (map segmentText (tail (splitNodes Current.isCheckbox nodesToHide))))
    as Hlong.
  induction Hlong as [|t l Ht _ IH]; simpl; constructor; [|done].
  destruct (trim_collapse_tidy t Ht) as (? & ? & ? & _). done.
Qed.

Lemma cleanPart_isClean (part : jsstring) : isClean (cleanPart part).
Proof.
  unfold cleanPart, isClean. split.
  - apply dropWhile_dropWhileEnd, dropWhile_dropWhile.
  - apply dropWhileEnd_dropWhileEnd.
Qed.

Lemma forallb_cleanPart (q : N -> bool) (part : jsstring) :
  forallb q part = true -> forallb q (cleanPart part) = true.
Proof.
  intros Hq. unfold cleanPart.
  by apply forallb_dropWhileEnd, forallb_dropWhile, forallb_trim.
Qed.

Lemma itemsOfParts_clean (minLength : nat) (sep : N -> bool) (text : jsstring) :
  Forall (fun item => (minLength < length item)%nat /\ isClean item
                      /\ forallb (fun c => negb (sep c)) item = true)
         (itemsOfParts minLength (splitOn sep text)).
Proof.
  unfold itemsOfParts. apply List.Forall_forall.
  intros item [Hin Hlen]%filter_In. apply in_map_iff in Hin as (part & <- & Hpart).
  split_and!.
  - by apply Nat.ltb_lt.
  - apply cleanPart_isClean.
  - apply forallb_cleanPart.
    destruct (splitOn_splitsExactlyAt sep text) as (_ & Hfree & _).
    rewrite List.Forall_forall in Hfree. apply Hfree.
    destruct (splitOn sep text); [done|by right].
Qed.

(** X14.  Every item that the two earlier builders extract is longer than the
    threshold (10 code units for the paragraph version, 15 for the
    full-text version), has neither white space nor a comma at either end,
    and holds none of the glyphs at which its version splits. *)
Theorem earlier_items_are_clean (text : jsstring) :
  Forall (fun item => (10 < length item)%nat /\ isClean item
                      /\ forallb (fun c => negb (isCheckboxGlyph c)) item = true)
         (itemsOfParts 10 (ParagraphVariant.splitParts text))
  /\ Forall (fun item => (15 < length item)%nat /\ isClean item
                         /\ forallb (fun c => negb ((c =? whiteSquare) || (c =? ballotBox)))
                                    item = true)
            (itemsOfParts 15 (FullTextVariant.splitParts text)).
Proof.
  split.
  - apply (itemsOfParts_clean 10 ParagraphVariant.separator).
  - apply (itemsOfParts_clean 15 FullTextVariant.separator).
Qed.

(** ** What the builders leave of the page *)

Lemma descendantText_alter (g : node -> node) (i : nat) (cs : list node) :
  (forall c, cs !! i = Some c -> descendantText (g c) = descendantText c) ->
  flat_map descendantText (alter g i cs) = flat_map descendantText cs.
Proof.
  revert i. induction cs as [|c cs IH]; intros i Hg; [done|].
  destruct i as [|i]; simpl.
  - by rewrite (Hg c).
  - f_equal. apply IH. intros c' Hc'. by apply Hg.
Qed.

Lemma descendantText_updateAttrs (p : path) (f : attrs -> attrs) (doc : node) :
  descendantText (updateAttrs p f doc) = descendantText doc.
Proof.
  unfold updateAttrs. revert doc. induction p as [|i p IH]; intros doc; simpl.
  - by destruct doc.
  - destruct doc as [d|d|a cs]; try done. simpl.
    apply descendantText_alter. intros c _. apply IH.
Qed.

Lemma sublist_text_alter (g : node -> node) (i : nat) (cs : list node) :
  (forall c, cs !! i = Some c -> sublist (descendantText c) (descendantText (g c))) ->
  sublist (flat_map descendantText cs) (flat_map descendantText (alter g i cs)).
Proof.
  revert i. induction cs as [|c cs IH]; intros i Hg; [done|].
  destruct i as [|i]; simpl.
  - apply sublist_app; [by apply Hg|done].
  - apply sublist_app; [done|]. apply IH. intros c' Hc'. by apply Hg.
Qed.

Lemma sublist_text_updateNode (p : path) (g : node -> node) (doc : node) :
  (forall n, lookupNode p doc = Some n ->
             sublist (descendantText n) (descendantText (g n))) ->
  sublist (descendantText doc) (descendantText (updateNode p g doc)).
Proof.
  revert doc. induction p as [|i p IH]; intros doc Hg; simpl; [by apply Hg|].
  destruct doc as [d|d|a cs]; try done. simpl.
  apply sublist_text_alter. intros c Hc. apply IH. intros n Hn. apply Hg.
  simpl. by rewrite Hc.
Qed.

Lemma descendantText_hideNode `{Host} (n : node) :
  descendantText (hideNode n) = descendantText n.
Proof.
  destruct n as [d|d|a cs]; simpl; try done.
  destruct (trim d); simpl; [done|by rewrite app_nil_r].
Qed.

Lemma flat_map_text_hideNode `{Host} (l : list node) :
  flat_map descendantText (map hideNode l) = flat_map descendantText l.
Proof.
  induction l as [|n l IH]; simpl; [done|]. by rewrite descendantText_hideNode, IH.
Qed.

Section BuilderText.
Context `{Host}.

Lemma descendantText_restoreCheckboxes (v : jsval) (k : nat) (cbs : list path) (doc : node) :
  descendantText (restoreCheckboxes v k cbs doc) = descendantText doc.
Proof.
  revert k doc. induction cbs as [|cb cbs IH]; intros k doc; simpl; [done|].
  rewrite IH. unfold restoreCheckbox. destruct (_ && _); [|done].
  destruct (parentPath cb) as [[parent n]|]; by rewrite !descendantText_updateAttrs.
Qed.

Lemma descendantText_loadChecklistState (w : world) :
  descendantText (document (loadChecklistState w)) = descendantText (document w).
Proof.
  rewrite loadChecklistState_document.
  destruct (storedState w) as [state|]; [|done].
  destruct (getProperty state (lit "checkboxes")) as [v|]; [|done].
  destruct (getProperty state (lit "date")) as [date|]; [|done]. cbv zeta.
  destruct (restoreDate_cases date (restoreCheckboxes v 0 (checklistCheckboxes (document w))
                                                       (document w)))
    as [->|(p & s & ->)];
    by rewrite ?descendantText_updateAttrs, descendantText_restoreCheckboxes.
Qed.

Lemma descendantText_finishConversion (doc : node) (w : world) :
  descendantText (document (finishConversion doc w)) = descendantText doc.
Proof.
  unfold finishConversion, initSignatureCanvas. simpl.
  destruct (getElementById (lit "signature-canvas") doc) as [p|];
    [|by rewrite descendantText_loadChecklistState].
  destruct (canvasAt doc p); [|done].
  rewrite descendantText_loadChecklistState. simpl.
  apply descendantText_updateAttrs.
Qed.

Lemma textContent_element (n : node) :
  is_Some (nodeAttrs n) -> textContent n = descendantText n.
Proof. destruct n; [done|by intros [? ?]|done]. Qed.

(** The children [cs'] hold what [cs] holds, and the container. *)
Lemma insertion_keeps_text (w : world) (parent : path) (a : attrs) (cs cs' : list node) :
  lookupNode parent (document w) = Some (Element a cs) ->
  sublist (flat_map descendantText cs) (flat_map descendantText cs') ->
  sublist (textContent (document w))
          (textContent (document (finishConversion
             (updateNode parent (fun _ => Element a cs') (document w)) w))).
Proof.
  intros Hparent Hsub.
  set (doc1 := updateNode parent (fun _ => Element a cs') (document w)).
  assert (Hdoc : is_Some (nodeAttrs (document w))).
  { destruct parent; simpl in Hparent; [by injection Hparent as ->|].
    by destruct (document w). }
  assert (Hdoc1 : is_Some (attrsAt doc1 [])).
  { unfold doc1, attrsAt. destruct parent; simpl; [done|].
    by destruct (document w). }
  pose proof (sameSelectors_is_Some _ _ [] (finishConversion_sameSelectors doc1 w) Hdoc1)
    as Hdoc'.
  rewrite !textContent_element by done.
  rewrite descendantText_finishConversion.
  apply sublist_text_updateNode. intros n Hn. rewrite Hparent in Hn.
  by injection Hn as <-.
Qed.

Lemma sublist_text_insert (container : node) (before after : list node) :
  sublist (flat_map descendantText (before ++ after))
          (flat_map descendantText (before ++ container :: after)).
Proof.
  rewrite !flat_map_app. simpl. apply sublist_app; [done|]. by apply sublist_inserts_l.
Qed.

Lemma Current_keeps_text (w : world) :
  sublist (textContent (document w))
          (textContent (document (Current.convertChecklistToInteractive w))).
Proof.
  unfold Current.convertChecklistToInteractive.
  destruct (findChecklistHeading (document w)) as [h|]; [|done].
  destruct (parentPath h) as [[parent i]|]; [|done].
  destruct (lookupNode parent (document w)) as [[d|d|a cs]|] eqn:Hparent; try done.
  pose proof (Current_collectSiblings_app (drop (S i) cs)) as Happ.
  destruct (Current.collectSiblings (drop (S i) cs)) as [hide rest]. simpl in Happ.
  destruct (Current.extractItems hide) as [|item items]; [done|].
  apply (insertion_keeps_text w parent a cs _ Hparent).
  rewrite <- (take_drop (S i) cs) at 1. rewrite <- Happ.
  generalize (buildContainer (item :: items)) as container. intros container.
  etrans; [apply (sublist_text_insert container)|].
  rewrite !flat_map_app. simpl. rewrite !flat_map_app, flat_map_text_hideNode.
  do 3 (apply sublist_app; [done|]).
  unfold Current.hideSignatureTable. destruct rest as [|n more]; [done|].
  destruct (isElementWithTag (lit "TABLE") n); [|done].
  simpl. by destruct n.
Qed.

Lemma FullText_keeps_text (w : world) :
  sublist (textContent (document w))
          (textContent (document (FullTextVariant.convertChecklistToInteractive w))).
Proof.
  unfold FullTextVariant.convertChecklistToInteractive.
  destruct (findChecklistHeading (document w)) as [h|]; [|done].
  destruct (parentPath h) as [[parent i]|]; [|done].
  destruct (lookupNode parent (document w)) as [[d|d|a cs]|] eqn:Hparent; try done.
  pose proof (FullText_collectSiblings_app (drop (S i) cs)) as Happ.
  destruct (FullTextVariant.collectSiblings (drop (S i) cs)) as [[hide text] rest].
  simpl in Happ.
  destruct (_ && _); [done|].
  destruct (itemsOfParts 15 _) as [|item items]; [done|].
  apply (insertion_keeps_text w parent a cs _ Hparent).
  rewrite <- (take_drop (S i) cs) at 1. rewrite <- Happ.
  generalize (buildContainer (item :: items)) as container. intros container.
  etrans; [apply (sublist_text_insert container)|].
  rewrite !flat_map_app. simpl. rewrite !flat_map_app, flat_map_text_hideNode.
  do 3 (apply sublist_app; [done|]).
  unfold FullTextVariant.hideSignatureTable. destruct rest as [|n more]; [done|].
  simpl. by destruct n.
Qed.

Lemma flat_map_text_hideElement (j : nat) (cs : list node) :
  flat_map descendantText (alter hideElement j cs) = flat_map descendantText cs.
Proof. apply descendantText_alter. intros c _. by destruct c. Qed.

Lemma Paragraph_keeps_text (w : world) :
  sublist (textContent (document w))
          (textContent (document (ParagraphVariant.convertChecklistToInteractive w))).
Proof.
  unfold ParagraphVariant.convertChecklistToInteractive.
  destruct (findChecklistHeading (document w)) as [h|]; [|done].
  destruct (parentPath h) as [[parent i]|]; [|done].
  destruct (lookupNode parent (document w)) as [[d|d|a cs]|] eqn:Hparent; try done.
  destruct (findIndexFrom _ _ _) as [j|]; [|done].
  destruct (cs !! j) as [[d|d|pa pcs]|]; try done.
  destruct (itemsOfParts 10 _) as [|item items]; [done|].
  apply (insertion_keeps_text w parent a cs _ Hparent).
  set (cs2 := match findIndexFrom _ _ _ with Some k => _ | None => _ end).
  assert (Hcs2 : flat_map descendantText cs2 = flat_map descendantText cs).
  { unfold cs2. destruct (findIndexFrom _ _ _); by rewrite !flat_map_text_hideElement. }
  rewrite <- Hcs2. rewrite <- (take_drop j cs2) at 1.
  apply sublist_text_insert.
Qed.

(** X15.  No version of the builder deletes text.  The text of the page before
    the conversion is a subsequence of the text of the page after it: the
    original nodes are hidden, not removed, and the form is put in between
    them. *)
Theorem builders_never_delete_text (w : world) :
  sublist (textContent (document w))
          (textContent (document (Current.convertChecklistToInteractive w)))
  /\ sublist (textContent (document w))
             (textContent (document (ParagraphVariant.convertChecklistToInteractive w)))
  /\ sublist (textContent (document w))
             (textContent (document (FullTextVariant.convertChecklistToInteractive w))).
Proof.
  split; [apply Current_keeps_text|].
  split; [apply Paragraph_keeps_text|apply FullText_keeps_text].
Qed.

End BuilderText.

(** ** The export *)

Lemma onlyReports_emit (e : effect) (w : world) : onlyReports w (emit e w).
Proof. unfold onlyReports. split_and!; try done; [by exists [e]|exists []; by rewrite app_nil_r]. Qed.

Lemma onlyReports_addTask (t : task) (w : world) : onlyReports w (addTask t w).
Proof. unfold onlyReports. split_and!; try done; [exists []; by rewrite app_nil_r|by exists [t]]. Qed.

Lemma onlyReports_refl (w : world) : onlyReports w w.
Proof. unfold onlyReports. split_and!; try done; exists []; by rewrite app_nil_r. Qed.

Lemma onlyReports_trans (w1 w2 w3 : world) :
  onlyReports w1 w2 -> onlyReports w2 w3 -> onlyReports w1 w3.
Proof.
  intros (Hc & Hd & Hb & Hs & Hv & Hx & Hi & [e He] & [q Hq])
         (Hc' & Hd' & Hb' & Hs' & Hv' & Hx' & Hi' & [e' He'] & [q' Hq']).
  unfold onlyReports. split_and!; try congruence.
  - exists (e ++ e'). by rewrite He', He, app_assoc.
  - exists (q ++ q'). by rewrite Hq', Hq, app_assoc.
Qed.

Lemma emailChecklistWith_onlyReports `{Host} (proceed : jsstring -> world -> world)
    (w : world) :
  (forall dateValue w0, onlyReports w0 (proceed dateValue w0)) ->
  onlyReports w (emailChecklistWith proceed w).
Proof.
  intros Hproceed. unfold emailChecklistWith.
  destruct (negb _); [apply onlyReports_emit|].
  assert (Hdate : onlyReports w
            match getElementById (lit "signature-date") (document w) with
            | Some dateInput =>
                match valueAt (document w) dateInput with
                | [] => alert msgDate w
                | c :: dateValue => proceed (c :: dateValue) w
                end
            | None => alert msgDate w
            end).
  { destruct (getElementById _ _); [|apply onlyReports_emit].
    destruct (valueAt _ _); [apply onlyReports_emit|apply Hproceed]. }
  destruct (signatureCanvas w); [|done].
  destruct (canvasAt _ _); [|apply onlyReports_refl].
  destruct (negb _); [apply onlyReports_emit|done].
Qed.

Lemma createPDF_onlyReports (dateValue : jsstring) (w : world) :
  onlyReports w (Current.createPDF dateValue w).
Proof.
  unfold Current.createPDF.
  eapply onlyReports_trans; [apply onlyReports_emit|apply onlyReports_addTask].
Qed.

Lemma mailAndPrint_onlyReports (dateValue : jsstring) (w : world) :
  onlyReports w (mailAndPrint dateValue w).
Proof.
  unfold mailAndPrint.
  eapply onlyReports_trans; [apply onlyReports_emit|apply onlyReports_addTask].
Qed.

(** X16.  The export only reports.  In every version and on every path (a
    failed check, the PDF made at once, the library asked for, the library
    loaded or not loaded), [emailChecklist] and the callbacks of the library
    load leave the checkboxes, the date, the signature, the storage and the
    script variables as they are; they add messages, downloads, mail links
    and queued callbacks, and take none away. *)
Theorem export_only_reports `{Host} (w : world) (dateValue : jsstring) :
  onlyReports w (Current.emailChecklist w)
  /\ onlyReports w (ParagraphVariant.emailChecklist w)
  /\ onlyReports w (FullTextVariant.emailChecklist w)
  /\ onlyReports w (scriptOnload dateValue w)
  /\ onlyReports w (scriptOnerror dateValue w).
Proof.
  split_and!.
  - apply emailChecklistWith_onlyReports. intros d w0.
    unfold Current.generateChecklistPDF.
    destruct (jsPDFLoaded w0); [apply createPDF_onlyReports|apply onlyReports_emit].
  - apply emailChecklistWith_onlyReports, mailAndPrint_onlyReports.
  - apply emailChecklistWith_onlyReports, mailAndPrint_onlyReports.
  - apply createPDF_onlyReports.
  - unfold scriptOnerror, Current.fallbackToPrint.
    eapply onlyReports_trans; [apply onlyReports_emit|].
    eapply onlyReports_trans; [apply onlyReports_emit|apply onlyReports_addTask].
Qed.

(** ** Loading twice *)







Section LoadTwice.
Context `{Host}.







End LoadTwice.

(** ** Where a selector finds its matches *)

Lemma filter_map_cons (f : path -> bool) (k : nat) (l : list path) :
  List.filter f (map (cons k) l) = map (cons k) (List.filter (fun q => f (k :: q)) l).
Proof.
  induction l as [|q l IH]; simpl; [done|]. destruct (f (k :: q)); simpl; by rewrite IH.
Qed.

Lemma childPaths_app (f : node -> list path) (k : nat) (l1 l2 : list node) :
  childPaths f k (l1 ++ l2) = childPaths f k l1 ++ childPaths f (k + length l1) l2.
Proof.
  revert k. induction l1 as [|c l1 IH]; intros k; simpl.
  - by rewrite Nat.add_0_r.
  - rewrite IH, <- app_assoc. do 3 f_equal. lia.
Qed.

Lemma childPaths_none (f : node -> list path) (k : nat) (l : list node) :
  Forall (fun c => f c = []) l -> childPaths f k l = [].
Proof.
  intros Hl. revert k. induction Hl as [|c l Hc _ IH]; intros k; simpl; [done|].
  by rewrite Hc, IH.
Qed.

Lemma list_sum_zero (cnt : node -> nat) (l : list node) :
  list_sum (map cnt l) = 0%nat -> Forall (fun c => cnt c = 0%nat) l.
Proof.
  induction l as [|c l IH]; simpl; [by constructor|].
  intros Hsum. constructor; [lia|apply IH; lia].
Qed.

Lemma alter_middle {A : Type} (g : A -> A) (i : nat) (l : list A) (x : A) :
  l !! i = Some x -> alter g i l = take i l ++ g x :: drop (S i) l.
Proof.
  revert i. induction l as [|y l IH]; intros i Hx; [done|].
  destruct i as [|i]; simpl in *.
  - by injection Hx as ->.
  - f_equal. by apply IH.
Qed.

Section Selection.
Variable s : selector.

Lemma selPaths_children (inside : bool) (a : attrs) (cs pre : list node) :
  List.filter (selectedAt s inside (Element a (pre ++ cs)))
              (childPaths paths (length pre) cs)
  = childPaths (selPaths s (enters s inside a)) (length pre) cs.
Proof.
  revert pre. induction cs as [|c cs IH]; intros pre; [done|].
  cbn [childPaths]. rewrite List.filter_app, filter_map_cons. f_equal.
  - f_equal. apply filter_ext_all. intros q. cbn [selectedAt].
    by rewrite list_lookup_middle.
  - specialize (IH (pre ++ [c])). rewrite <- app_assoc, length_app in IH. simpl in IH.
    by rewrite Nat.add_1_r in IH.
Qed.

Lemma selPaths_element (inside : bool) (a : attrs) (cs : list node) :
  selPaths s inside (Element a cs)
  = (if selects s inside a then [[]] else [])
    ++ childPaths (selPaths s (enters s inside a)) 0 cs.
Proof.
  unfold selPaths at 1. cbn [paths List.filter].
  change (selectedAt s inside (Element a cs) []) with (selects s inside a).
  pose proof (selPaths_children inside a cs []) as Hchildren. simpl in Hchildren.
  rewrite Hchildren. by destruct (selects s inside a).
Qed.

Lemma selPaths_none (inside : bool) (n : node) :
  countSelected s inside n = 0%nat -> selPaths s inside n = [].
Proof.
  intros Hzero. apply length_zero_iff_nil. unfold selPaths.
  by rewrite count_paths.
Qed.

Lemma childPaths_selPaths_none (inside : bool) (k : nat) (l : list node) :
  list_sum (map (countSelected s inside) l) = 0%nat ->
  childPaths (selPaths s inside) k l = [].
Proof.
  intros Hsum. apply childPaths_none.
  eapply Forall_impl; [by apply list_sum_zero|]. intros c Hc. by apply selPaths_none.
Qed.

(** On a page without a match, after the children of the element at
    [parent] have been replaced by children that hold one new node and as
    many matches outside it as before (none), the matches are those of the
    new node. *)
Lemma selPaths_inserted (new : node) (before after : list node) (parent : path) :
  forall (doc : node) (inside : bool) (a : attrs) (cs : list node),
    lookupNode parent doc = Some (Element a cs) ->
    countSelected s inside doc = 0%nat ->
    (forall flag, list_sum (map (countSelected s flag) (before ++ after))
                  = list_sum (map (countSelected s flag) cs)) ->
    exists flag,
      selPaths s inside (updateNode parent (fun _ => Element a (before ++ new :: after)) doc)
      = map (app (parent ++ [length before])) (selPaths s flag new).
Proof.
  induction parent as [|i parent IH]; intros doc inside a cs Hparent Hzero Hsum.
  - simpl in Hparent. injection Hparent as ->. cbn [updateNode app].
    exists (enters s inside a). rewrite selPaths_element.
    simpl in Hzero.
    assert (Hroot : selects s inside a = false)
      by (destruct (selects s inside a); [simpl in Hzero; lia|done]).
    rewrite Hroot in *. simpl in Hzero. cbn [app].
    specialize (Hsum (enters s inside a)). rewrite Hzero in Hsum.
    rewrite List.map_app, list_sum_app in Hsum.
    rewrite childPaths_app. cbn [childPaths].
    rewrite !childPaths_selPaths_none by lia.
    by rewrite app_nil_r.
  - destruct doc as [d|d|a0 cs0]; try done. simpl in Hparent.
    destruct (cs0 !! i) as [c|] eqn:Hc; [|done].
    simpl in Hzero.
    assert (Hroot : selects s inside a0 = false)
      by (destruct (selects s inside a0); [simpl in Hzero; lia|done]).
    rewrite Hroot in Hzero. simpl in Hzero.
    pose proof (list_sum_zero _ _ Hzero) as Hall.
    assert (Hczero : countSelected s (enters s inside a0) c = 0%nat).
    { rewrite List.Forall_forall in Hall. apply Hall.
      apply list_elem_of_In. by eapply list_elem_of_lookup_2. }
    destruct (IH c (enters s inside a0) a cs Hparent Hczero Hsum) as [flag Hblock].
    exists flag. cbn [updateNode]. rewrite selPaths_element, Hroot. cbn [app].
    rewrite (alter_middle _ _ _ _ Hc), childPaths_app. cbn [childPaths].
    assert (Hlen : length (take i cs0) = i).
    { apply length_take_le. apply lookup_lt_Some in Hc. lia. }
    rewrite <- (take_drop_middle cs0 i c Hc), List.map_app, list_sum_app in Hzero.
    simpl in Hzero.
    rewrite !childPaths_selPaths_none by lia.
    rewrite app_nil_r, Hblock, Hlen, List.map_map. simpl. done.
Qed.

End Selection.

(** ** The matches inside the container *)

Lemma controls_checkbox : matchesControlsOnly checkboxSelector.
Proof. intros inside a Hinput _ _ _. simpl. by rewrite Hinput. Qed.

Lemma controls_label : matchesControlsOnly labelSelector.
Proof. intros inside a _ Hlabel _ _. simpl. by rewrite Hlabel. Qed.

Lemma controls_canvas : matchesControlsOnly (idSelector (lit "signature-canvas")).
Proof. by intros inside a _ _ Hcanvas _. Qed.

Lemma controls_date : matchesControlsOnly (idSelector (lit "signature-date")).
Proof. by intros inside a _ _ _ Hdate. Qed.

Lemma inert_countSelected (s : selector) (n : node) :
  matchesControlsOnly s -> inertNode n = true ->
  forall inside, countSelected s inside n = 0%nat.
Proof.
  intros Hs. induction n as [d|d|a cs IH] using node_ind_children; try done.
  intros Hinert inside. cbn [inertNode] in Hinert.
  apply andb_prop in Hinert as [Hinert Hcs].
  apply andb_prop in Hinert as [Hinert Hdate].
  apply andb_prop in Hinert as [Hinert Hcanvas].
  apply andb_prop in Hinert as [Hinput Hlabel].
  apply negb_true_iff in Hinput, Hlabel, Hcanvas, Hdate.
  cbn [countSelected]. rewrite (Hs inside a Hinput Hlabel Hcanvas Hdate). simpl.
  generalize (enters s inside a) as flag. intros flag.
  induction cs as [|c cs IHcs]; [done|]. simpl in Hcs.
  apply andb_prop in Hcs as [Hc Hcs]. inversion IH as [|? ? IHc IHrest]; subst.
  simpl. rewrite (IHc Hc flag). by apply IHcs.
Qed.

Lemma inert_selPaths (s : selector) (l : list node) (flag : bool) (k : nat) :
  matchesControlsOnly s -> forallb inertNode l = true ->
  childPaths (selPaths s flag) k l = [].
Proof.
  intros Hs Hl. apply childPaths_none. apply List.Forall_forall. intros c Hc.
  apply selPaths_none, inert_countSelected; [done|].
  rewrite forallb_forall in Hl. by apply Hl.
Qed.

Lemma jsEqb_item_id (k : nat) (i : jsstring) :
  head i = Some 115 -> jsEqb (lit "checklist-item-" ++ indexKey k) i = false.
Proof.
  intros Hi. apply bool_decide_eq_false_2. intros <-. discriminate.
Qed.

Lemma flat_map_single {A B : Type} (f : A -> B) (l : list A) :
  flat_map (fun x => [f x]) l = map f l.
Proof. induction l as [|x l IH]; simpl; [done|]. by rewrite IH. Qed.

Section Container.
Context `{Host}.

Lemma checkboxes_signatureSection :
  selPaths checkboxSelector true signatureSection = [].
Proof. reflexivity. Qed.

Lemma labels_signatureSection :
  selPaths labelSelector true signatureSection = [[1; 0]; [2; 0]]%nat.
Proof. reflexivity. Qed.

Lemma canvas_signatureSection (flag : bool) :
  selPaths (idSelector (lit "signature-canvas")) flag signatureSection = [[1; 1]]%nat.
Proof. reflexivity. Qed.

Lemma date_signatureSection (flag : bool) :
  selPaths (idSelector (lit "signature-date")) flag signatureSection = [[2; 1]]%nat.
Proof. reflexivity. Qed.

Lemma selPaths_checklistItem (s : selector) (flag : bool) (k : nat) (item : jsstring) :
  matchesControlsOnly s -> forallb inertNode (parseFragment item) = true ->
  selPaths s flag (checklistItem k item)
  = List.filter (selectedAt s flag (checklistItem k item)) [[]; [0]; [1]]%nat.
Proof.
  intros Hs Hitem. unfold checklistItem. rewrite !selPaths_element. cbn [childPaths].
  rewrite !selPaths_element. cbn [childPaths].
  rewrite (inert_selPaths s _ _ _ Hs Hitem). cbn [List.filter selectedAt lookup list_lookup].
  repeat match goal with |- context [if ?b then _ else _] => destruct b end; reflexivity.
Qed.

Lemma checkboxes_checklistItem (k : nat) (item : jsstring) :
  forallb inertNode (parseFragment item) = true ->
  selPaths checkboxSelector true (checklistItem k item) = [[0]]%nat.
Proof.
  intros Hitem. by rewrite (selPaths_checklistItem _ _ _ _ controls_checkbox Hitem).
Qed.

Lemma labels_checklistItem (k : nat) (item : jsstring) :
  forallb inertNode (parseFragment item) = true ->
  selPaths labelSelector true (checklistItem k item) = [[1]]%nat.
Proof.
  intros Hitem. by rewrite (selPaths_checklistItem _ _ _ _ controls_label Hitem).
Qed.

Lemma canvas_checklistItem (flag : bool) (k : nat) (item : jsstring) :
  forallb inertNode (parseFragment item) = true ->
  selPaths (idSelector (lit "signature-canvas")) flag (checklistItem k item) = [].
Proof.
  intros Hitem. rewrite (selPaths_checklistItem _ _ _ _ controls_canvas Hitem).
  cbn [List.filter selectedAt checklistItem lookup list_lookup idSelector selects].
  change (eid _) with (lit "checklist-item-" ++ indexKey k) at 2.
  by rewrite jsEqb_item_id.
Qed.

Lemma date_checklistItem (flag : bool) (k : nat) (item : jsstring) :
  forallb inertNode (parseFragment item) = true ->
  selPaths (idSelector (lit "signature-date")) flag (checklistItem k item) = [].
Proof.
  intros Hitem. rewrite (selPaths_checklistItem _ _ _ _ controls_date Hitem).
  cbn [List.filter selectedAt checklistItem lookup list_lookup idSelector selects].
  change (eid _) with (lit "checklist-item-" ++ indexKey k) at 2.
  by rewrite jsEqb_item_id.
Qed.

(** The matches among the items, when each item has the matches [m]. *)
Lemma childPaths_items (s : selector) (flag : bool) (m : list path)
    (items : list jsstring) :
  forall (k : nat) (mk : nat -> jsstring -> node),
    (forall i item, items !! i = Some item -> selPaths s flag (mk i item) = m) ->
    childPaths (selPaths s flag) k (imap mk items)
    = flat_map (fun i => map (cons (k + i)%nat) m) (seq 0 (length items)).
Proof.
  induction items as [|item items IH]; intros k mk Hm; [done|].
  cbn [imap childPaths length seq flat_map]. rewrite (Hm 0%nat item) by done.
  rewrite Nat.add_0_r. f_equal.
  rewrite (IH (S k) (mk ∘ S)) by (intros i item' Hi; by apply (Hm (S i))).
  rewrite <- seq_shift, flat_map_map. apply flat_map_ext. intros i.
  by rewrite Nat.add_succ_comm.
Qed.

Lemma selPaths_container (s : selector) (inside : bool) (items : list jsstring)
    (m sig : list path) :
  let container :=
    withId (lit "interactive-checklist")
      (withClassName [lit "interactive-checklist"] (createElement (lit "DIV"))) in
  matchesControlsOnly s ->
  (forall i item, items !! i = Some item ->
     selPaths s (enters s inside container) (checklistItem i item) = m) ->
  selPaths s (enters s inside container) signatureSection = sig ->
  selPaths s inside (buildContainer items)
  = flat_map (fun i => map (cons (S i)) m) (seq 0 (length items))
    ++ map (cons (S (length items))) sig.
Proof.
  intros container Hs Hm Hsig. unfold buildContainer. fold container.
  rewrite selPaths_element. rewrite (Hs inside container) by done.
  cbn [app childPaths]. rewrite childPaths_app. cbn [childPaths].
  rewrite (selPaths_none s _ (Element (createElement (lit "P")) (setTextContent introText)))
    by (by apply inert_countSelected).
  rewrite (childPaths_items s _ m items 1 checklistItem Hm), Hsig, length_imap.
  by rewrite app_nil_r.
Qed.

Lemma checkboxes_container (inside : bool) (items : list jsstring) :
  Forall (fun item => forallb inertNode (parseFragment item) = true) items ->
  selPaths checkboxSelector inside (buildContainer items)
  = map (fun i => [S i; 0]%nat) (seq 0 (length items)).
Proof.
  intros Hitems.
  rewrite (selPaths_container checkboxSelector inside items [[0]]%nat []
             controls_checkbox).
  - rewrite app_nil_r. apply (flat_map_single (fun i => [S i; 0]%nat)).
  - intros i item Hi. cbn [enters checkboxSelector]. rewrite orb_true_r.
    apply checkboxes_checklistItem.
    rewrite List.Forall_forall in Hitems. apply Hitems, list_elem_of_In.
    by eapply list_elem_of_lookup_2.
  - cbn [enters checkboxSelector]. rewrite orb_true_r. apply checkboxes_signatureSection.
Qed.

Lemma labels_container (inside : bool) (items : list jsstring) :
  Forall (fun item => forallb inertNode (parseFragment item) = true) items ->
  selPaths labelSelector inside (buildContainer items)
  = map (fun i => [S i; 1]%nat) (seq 0 (length items))
    ++ [[S (length items); 1; 0]; [S (length items); 2; 0]]%nat.
Proof.
  intros Hitems.
  rewrite (selPaths_container labelSelector inside items [[1]]%nat
             [[1; 0]; [2; 0]]%nat controls_label).
  - by rewrite <- (flat_map_single (fun i => [S i; 1]%nat)).
  - intros i item Hi. cbn [enters labelSelector]. rewrite orb_true_r.
    apply labels_checklistItem.
    rewrite List.Forall_forall in Hitems. apply Hitems, list_elem_of_In.
    by eapply list_elem_of_lookup_2.
  - cbn [enters labelSelector]. rewrite orb_true_r. apply labels_signatureSection.
Qed.

Lemma ids_container (i : jsstring) (sig : list path) (inside : bool)
    (items : list jsstring) :
  matchesControlsOnly (idSelector i) ->
  (forall flag k item, forallb inertNode (parseFragment item) = true ->
     selPaths (idSelector i) flag (checklistItem k item) = []) ->
  (forall flag, selPaths (idSelector i) flag signatureSection = sig) ->
  Forall (fun item => forallb inertNode (parseFragment item) = true) items ->
  selPaths (idSelector i) inside (buildContainer items)
  = map (cons (S (length items))) sig.
Proof.
  intros Hs Hitem Hsig Hitems.
  rewrite (selPaths_container (idSelector i) inside items [] sig Hs).
  - by induction (seq 0 (length items)).
  - intros k item Hk. apply Hitem.
    rewrite List.Forall_forall in Hitems. apply Hitems, list_elem_of_In.
    by eapply list_elem_of_lookup_2.
  - apply Hsig.
Qed.

End Container.

(** ** The page with the container in it *)

Lemma hidingSafe_label : hidingSafe labelSelector.
Proof. by repeat split. Qed.

Lemma hidingSafe_anyId (i : jsstring) : i <> [] -> hidingSafe (idSelector i).
Proof.
  intros Hi. repeat split. intros inside. simpl. apply bool_decide_eq_false_2.
  intros Heq. by apply Hi.
Qed.

Lemma selectedAt_label (inside : bool) (doc : node) (p : path) :
  selectedAt labelSelector inside doc p =
  match attrsAt doc p with
  | Some a =>
      jsEqb (tagName a) (lit "LABEL")
      && (inside || existsb (fun q => match attrsAt doc q with
                                      | Some b => hasClass (lit "interactive-checklist") b
                                      | None => false
                                      end) (ancestorPaths p))
  | None => false
  end.
Proof.
  revert inside doc. induction p as [|i q IH]; intros inside doc.
  - destruct doc as [d|d|a cs]; try done. simpl. by rewrite orb_false_r.
  - destruct doc as [d|d|a cs]; try done.
    rewrite attrsAt_cons. cbn [selectedAt]. destruct (cs !! i) as [c|] eqn:Hc; [|done].
    rewrite IH, ancestorPaths_cons. cbn [existsb]. rewrite existsb_map_in.
    destruct (attrsAt c q) as [b|]; [|done]. f_equal.
    change (attrsAt (Element a cs) []) with (Some a). cbn [enters labelSelector].
    rewrite <- orb_assoc. do 2 f_equal. apply existsb_ext_in. intros r.
    by rewrite attrsAt_cons, Hc.
Qed.

Lemma map_all_false {A : Type} (f : A -> bool) (l : list A) :
  (forall x, In x l -> f x = false) -> map f l = replicate (length l) false.
Proof.
  induction l as [|x l IH]; intros Hl; [done|]. simpl.
  rewrite (Hl x) by (by left). f_equal. apply IH. intros y Hy. apply Hl. by right.
Qed.

Lemma textContentAt_updateAttrs (f : attrs -> attrs) (p q : path) (doc : node) :
  textContentAt (updateAttrs p f doc) q = textContentAt doc q.
Proof.
  unfold textContentAt, updateAttrs. revert p doc.
  induction q as [|j q IH]; intros p doc.
  - simpl. destruct doc as [d|d|a cs].
    + by destruct p.
    + by destruct p.
    + change (updateNode p (onAttrs f) (Element a cs)) with (updateAttrs p f (Element a cs)).
      pose proof (descendantText_updateAttrs p f (Element a cs)) as Htext.
      unfold updateAttrs in *. by destruct p.
  - destruct doc as [d|d|a cs]; try (by destruct p).
    destruct p as [|i p]; [done|]. simpl.
    destruct (decide (j = i)) as [->|Hne].
    + rewrite list_lookup_alter_eq. destruct (cs !! i) as [c|]; [|done]. apply IH.
    + by rewrite list_lookup_alter_ne.
Qed.

Lemma textContentAt_restoreCheckboxes (v : jsval) (k : nat) (cbs : list path)
    (doc : node) (q : path) :
  textContentAt (restoreCheckboxes v k cbs doc) q = textContentAt doc q.
Proof.
  revert k doc. induction cbs as [|cb cbs IH]; intros k doc; simpl; [done|].
  rewrite IH. unfold restoreCheckbox. destruct (_ && _); [|done].
  destruct (parentPath cb) as [[r n]|]; by rewrite !textContentAt_updateAttrs.
Qed.

Lemma textContentAt_loadChecklistState `{Host} (w : world) (q : path) :
  textContentAt (document (loadChecklistState w)) q = textContentAt (document w) q.
Proof.
  rewrite loadChecklistState_document.
  destruct (storedState w) as [state|]; [|done].
  destruct (getProperty state (lit "checkboxes")) as [cbs|]; [|done].
  destruct (getProperty state (lit "date")) as [date|]; [|done].
  cbv zeta.
  destruct (restoreDate_cases date
              (restoreCheckboxes cbs 0 (checklistCheckboxes (document w)) (document w)))
    as [->|(p & s & ->)].
  - apply textContentAt_restoreCheckboxes.
  - by rewrite textContentAt_updateAttrs, textContentAt_restoreCheckboxes.
Qed.

Lemma sameSelectors_labels (doc doc' : node) :
  sameSelectors doc doc' -> checklistLabels doc' = checklistLabels doc.
Proof.
  intros [Hp Hk]. unfold checklistLabels. rewrite Hp.
  apply filter_ext_all. intros q. unfold isChecklistLabel.
  assert (Hanc : forall r,
            match attrsAt doc' r with
            | Some b => hasClass (lit "interactive-checklist") b
            | None => false
            end =
            match attrsAt doc r with
            | Some b => hasClass (lit "interactive-checklist") b
            | None => false
            end).
  { intros r. specialize (Hk r).
    destruct (attrsAt doc' r), (attrsAt doc r); simpl in Hk; try done.
    unfold selectorKey in Hk. congruence. }
  rewrite (existsb_ext_in _ _ _ Hanc). specialize (Hk q).
  destruct (attrsAt doc' q), (attrsAt doc q); simpl in Hk; try done.
  unfold selectorKey in Hk. by injection Hk as -> _ _ _.
Qed.

(** The entries depend on the page through the checkboxes, the labels and
    the text of the labels. *)
Lemma pdfEntries_shape (doc : node) (cbs labels : list path) :
  checklistCheckboxes doc = cbs -> checklistLabels doc = labels ->
  pdfEntries doc
  = imap (fun index label =>
            (if default false (checkedAt doc <$> cbs !! index)
             then ballotBoxChecked else ballotBox,
             trim (textContentAt doc label))) labels.
Proof.
  intros <- <-. unfold pdfEntries. apply imap_ext. intros i label _.
  unfold pdfEntry. by destruct (checklistCheckboxes doc !! i).
Qed.

Lemma parentPath_snoc (p : path) (k n : nat) :
  parentPath (p ++ [k; n]) = Some (p ++ [k], n).
Proof. apply parentPath_spec. by rewrite <- app_assoc. Qed.

Section BuiltPage.
Context `{Host}.
Variables (doc : node) (parent : path) (a : attrs) (cs before after : list node).
Variable items : list jsstring.
Hypothesis Hparent : lookupNode parent doc = Some (Element a cs).
Hypothesis Hsum :
  forall s inside, hidingSafe s ->
    list_sum (map (countSelected s inside) (before ++ after))
    = list_sum (map (countSelected s inside) cs).
Hypothesis Hitems :
  Forall (fun item => forallb inertNode (parseFragment item) = true) items.

Local Abbreviation built :=
  (updateNode parent (fun _ => Element a (before ++ buildContainer items :: after)) doc).
Local Abbreviation pre := (parent ++ [length before]).

Lemma built_selPaths (s : selector) :
  hidingSafe s -> countSelected s false doc = 0%nat ->
  exists flag, selPaths s false built = map (app pre) (selPaths s flag (buildContainer items)).
Proof.
  intros Hsafe Hzero.
  apply (selPaths_inserted s (buildContainer items) before after parent doc false a cs
           Hparent Hzero).
  intros flag. by apply Hsum.
Qed.

Lemma built_checkboxes :
  checklistCheckboxes doc = [] ->
  checklistCheckboxes built = map (fun i => pre ++ [S i; 0]%nat) (seq 0 (length items)).
Proof.
  intros Hnone.
  destruct (built_selPaths checkboxSelector hidingSafe_checkbox) as [flag Hsel].
  { by rewrite <- length_checklistCheckboxes, Hnone. }
  unfold checklistCheckboxes.
  rewrite (filter_ext_all _ (selectedAt checkboxSelector false built))
    by (intros q; apply isChecklistCheckbox_selectedAt).
  fold (selPaths checkboxSelector false built).
  by rewrite Hsel, (checkboxes_container flag items Hitems), List.map_map.
Qed.

Lemma built_labels :
  List.filter (isChecklistLabel doc) (paths doc) = [] ->
  List.filter (isChecklistLabel built) (paths built)
  = map (fun i => pre ++ [S i; 1]%nat) (seq 0 (length items))
    ++ [pre ++ [S (length items); 1; 0]; pre ++ [S (length items); 2; 0]]%nat.
Proof.
  intros Hnone.
  assert (Hlabel : forall n q, isChecklistLabel n q = selectedAt labelSelector false n q).
  { intros n q. by rewrite selectedAt_label. }
  destruct (built_selPaths labelSelector hidingSafe_label) as [flag Hsel].
  { rewrite <- count_paths, <- (filter_ext_all _ _ _ (Hlabel doc)). by rewrite Hnone. }
  rewrite (filter_ext_all _ _ _ (Hlabel built)).
  fold (selPaths labelSelector false built).
  by rewrite Hsel, (labels_container flag items Hitems), List.map_app, List.map_map.
Qed.

Lemma built_ids (i : jsstring) (sig : list path) :
  i <> [] -> matchesControlsOnly (idSelector i) ->
  (forall flag k item, forallb inertNode (parseFragment item) = true ->
     selPaths (idSelector i) flag (checklistItem k item) = []) ->
  (forall flag, selPaths (idSelector i) flag signatureSection = sig) ->
  elementsWithId i doc = [] ->
  elementsWithId i built = map (fun q => pre ++ S (length items) :: q) sig.
Proof.
  intros Hi Hs Hitem Hsig Hnone.
  destruct (built_selPaths (idSelector i) (hidingSafe_anyId i Hi)) as [flag Hsel].
  { by rewrite <- length_elementsWithId, Hnone. }
  unfold elementsWithId.
  rewrite (filter_ext_all _ (selectedAt (idSelector i) false built))
    by (intros q; apply hasId_selectedAt).
  fold (selPaths (idSelector i) false built).
  by rewrite Hsel, (ids_container i sig flag items Hs Hitem Hsig Hitems), List.map_map.
Qed.

Lemma built_canvases :
  elementsWithId (lit "signature-canvas") doc = [] ->
  elementsWithId (lit "signature-canvas") built = [pre ++ [S (length items); 1; 1]%nat].
Proof.
  intros Hnone.
  assert (Hid : lit "signature-canvas" <> []) by done.
  by rewrite (built_ids _ [[1; 1]%nat] Hid controls_canvas
                canvas_checklistItem canvas_signatureSection Hnone).
Qed.

Lemma built_dates :
  elementsWithId (lit "signature-date") doc = [] ->
  elementsWithId (lit "signature-date") built = [pre ++ [S (length items); 2; 1]%nat].
Proof.
  intros Hnone.
  assert (Hid : lit "signature-date" <> []) by done.
  by rewrite (built_ids _ [[2; 1]%nat] Hid controls_date
                date_checklistItem date_signatureSection Hnone).
Qed.

Lemma built_lookupNode (q : path) :
  lookupNode (pre ++ q) built = lookupNode q (buildContainer items).
Proof.
  rewrite <- app_assoc, lookupNode_app, lookupNode_updateNode, Hparent. simpl.
  by rewrite list_lookup_middle.
Qed.

Lemma built_attrsAt (q : path) :
  attrsAt built (pre ++ q) = attrsAt (buildContainer items) q.
Proof. unfold attrsAt. by rewrite built_lookupNode. Qed.

Lemma container_item (i : nat) (item : jsstring) (q : path) :
  items !! i = Some item ->
  lookupNode (S i :: q) (buildContainer items) = lookupNode q (checklistItem i item).
Proof.
  intros Hi. unfold buildContainer. cbn [lookupNode].
  rewrite <- lookup_tail. cbn [tail].
  rewrite lookup_app_l by (rewrite length_imap; by eapply lookup_lt_Some).
  by rewrite list_lookup_imap, Hi.
Qed.

Lemma container_signatureSection (q : path) :
  lookupNode (S (length items) :: q) (buildContainer items) = lookupNode q signatureSection.
Proof.
  unfold buildContainer. cbn [lookupNode].
  rewrite <- lookup_tail. cbn [tail].
  rewrite lookup_app_r by (by rewrite length_imap).
  by rewrite length_imap, Nat.sub_diag.
Qed.

Local Abbreviation pad := (pre ++ [S (length items); 1; 1]%nat).
Local Abbreviation addAll :=
  (fun a => fold_left (fun a l => addEventListener (fst l) (snd l) a) canvasListeners a).
Local Abbreviation form := (updateAttrs pad addAll built).

Lemma built_canvas : canvasAt built pad = Some (blankBitmap 400 150).
Proof.
  unfold canvasAt. by rewrite built_attrsAt; unfold attrsAt; rewrite container_signatureSection.
Qed.

(** [initSignatureCanvas] finds the canvas of the container. *)
Lemma initSignatureCanvas_built (w : world) :
  elementsWithId (lit "signature-canvas") doc = [] ->
  initSignatureCanvas (withDocument built w)
  = Returned (withDocument form
                (withSignatureCtx
                   (Some (Context2d pad (lit "#000") 2 (lit "round") (lit "round")))
                   (withSignatureCanvas (Some pad) (withDocument built w)))).
Proof.
  intros Hnone. unfold initSignatureCanvas, getElementById.
  cbn [document withDocument]. rewrite (built_canvases Hnone).
  cbn [head signatureCanvas withSignatureCanvas document withDocument].
  by rewrite built_canvas.
Qed.

Lemma form_sameSelectors : sameSelectors built form.
Proof.
  apply sameSelectors_updateAttrs. intros b. simpl.
  by rewrite !selectorKey_addEventListener.
Qed.

Lemma form_field {B : Type} (g : attrs -> B) (q : path) :
  (forall t h b, g (addEventListener t h b) = g b) ->
  g <$> attrsAt form (pre ++ q) = g <$> attrsAt (buildContainer items) q.
Proof.
  intros Hg. rewrite field_updateAttrs, built_attrsAt; [done|].
  intros b. simpl. by rewrite !Hg.
Qed.

Lemma form_checkboxes :
  checklistCheckboxes doc = [] ->
  checklistCheckboxes form = map (fun i => pre ++ [S i; 0]%nat) (seq 0 (length items)).
Proof.
  intros Hnone. by rewrite (sameSelectors_checkboxes _ _ form_sameSelectors), built_checkboxes.
Qed.

Lemma form_item_unchecked (i : nat) :
  (i < length items)%nat ->
  checkedAt form (pre ++ [S i; 0]%nat) = false
  /\ hasClassAt (lit "completed") form (pre ++ [S i]%nat) = false.
Proof.
  intros Hi. destruct (lookup_lt_is_Some_2 items i Hi) as [item Hitem].
  split.
  - unfold checkedAt.
    pose proof (form_field checked [S i; 0]%nat ltac:(done)) as Hf.
    unfold attrsAt at 2 in Hf. rewrite (container_item i item _ Hitem) in Hf.
    destruct (attrsAt form _); simpl in Hf; congruence.
  - unfold hasClassAt.
    pose proof (form_field (hasClass (lit "completed")) [S i]%nat ltac:(done)) as Hf.
    unfold attrsAt at 2 in Hf. rewrite (container_item i item _ Hitem) in Hf.
    destruct (attrsAt form _); [|done]. simpl in Hf. by injection Hf as ->.
Qed.

Lemma form_states :
  checklistCheckboxes doc = [] ->
  checkboxStates form = replicate (length items) false.
Proof.
  intros Hnone. unfold checkboxStates. rewrite (form_checkboxes Hnone).
  rewrite map_all_false.
  - by rewrite length_map, length_seq.
  - intros q (i & <- & Hi)%in_map_iff. apply in_seq in Hi.
    apply form_item_unchecked. lia.
Qed.

Lemma form_date :
  elementsWithId (lit "signature-date") doc = [] ->
  getElementById (lit "signature-date") form = Some (pre ++ [S (length items); 2; 1]%nat)
  /\ dateFieldValue form = (if isValidDateString today then today else []).
Proof.
  intros Hnone.
  assert (Hget : getElementById (lit "signature-date") form
                 = Some (pre ++ [S (length items); 2; 1]%nat)).
  { rewrite (sameSelectors_getElementById _ _ _ form_sameSelectors).
    unfold getElementById. by rewrite (built_dates Hnone). }
  split; [done|]. unfold dateFieldValue, valueAt. rewrite Hget.
  pose proof (form_field value [S (length items); 2; 1]%nat ltac:(done)) as Hf.
  unfold attrsAt at 2 in Hf. rewrite container_signatureSection in Hf.
  cbn [lookupNode signatureSection lookup list_lookup nodeAttrs fmap option_fmap option_map]
    in Hf.
  destruct (attrsAt form _) as [b|]; [|done]. simpl in Hf. injection Hf as ->.
  unfold setValue. done.
Qed.

Lemma form_canvas : canvasAt form pad = Some (blankBitmap 400 150).
Proof.
  rewrite <- built_canvas. apply canvasAt_field, field_updateAttrs.
  intros b. done.
Qed.

Lemma form_ownParents : checklistCheckboxes doc = [] -> ownParents form.
Proof.
  intros Hnone. unfold ownParents. rewrite (form_checkboxes Hnone), List.map_map.
  apply (NoDup_fmap_2_strong _ (seq 0 (length items))); [|apply NoDup_seq].
  intros i j _ _ Heq.
  rewrite !parentPath_snoc in Heq.
  simpl in Heq. injection Heq as Heq. apply app_inv_head in Heq. by injection Heq.
Qed.

Lemma form_markersAgree : checklistCheckboxes doc = [] -> markersAgree form.
Proof.
  intros Hnone cb r n Hcb Hr. rewrite (form_checkboxes Hnone) in Hcb.
  apply in_map_iff in Hcb as (i & <- & Hi). apply in_seq in Hi.
  rewrite parentPath_snoc in Hr. injection Hr as <- <-.
  destruct (form_item_unchecked i) as [-> ->]; [lia|done].
Qed.

Lemma form_labels :
  checklistLabels doc = [] ->
  checklistLabels form
  = map (fun i => pre ++ [S i; 1]%nat) (seq 0 (length items))
    ++ [pre ++ [S (length items); 1; 0]; pre ++ [S (length items); 2; 0]]%nat.
Proof.
  intros Hnone. rewrite (sameSelectors_labels _ _ form_sameSelectors).
  by apply built_labels.
Qed.

Lemma form_text (q : path) :
  textContentAt form (pre ++ q)
  = match lookupNode q (buildContainer items) with
    | Some n => textContent n
    | None => []
    end.
Proof.
  rewrite textContentAt_updateAttrs. unfold textContentAt. by rewrite built_lookupNode.
Qed.

Lemma form_item_text (i : nat) (item : jsstring) :
  items !! i = Some item ->
  textContentAt form (pre ++ [S i; 1]%nat) = flat_map descendantText (parseFragment item).
Proof.
  intros Hitem. by rewrite form_text, (container_item i item _ Hitem).
Qed.

Lemma form_other_texts :
  trim (textContentAt form (pre ++ [S (length items); 1; 0]%nat))
  = lit "Sign below (draw your signature):"
  /\ trim (textContentAt form (pre ++ [S (length items); 2; 0]%nat)) = lit "Date:".
Proof.
  rewrite !form_text, !container_signatureSection. split; reflexivity.
Qed.

End BuiltPage.

(** ** The current builder on a page without a form *)

Section CurrentForm.
Context `{Host}.

(** What follows for any builder that inserts the container among the
    children of an element and ends with the shared tail. *)
Lemma insertion_builds_fresh_form (w : world) (parent : path) (a : attrs)
    (cs before after : list node) (items : list jsstring) :
  noForm (document w) ->
  lookupNode parent (document w) = Some (Element a cs) ->
  (forall s inside, hidingSafe s ->
     list_sum (map (countSelected s inside) (before ++ after))
     = list_sum (map (countSelected s inside) cs)) ->
  Forall (fun item => forallb inertNode (parseFragment item) = true) items ->
  exists f : world,
    finishConversion
      (updateNode parent (fun _ => Element a (before ++ buildContainer items :: after))
                  (document w)) w
    = loadChecklistState f
    /\ freshForm (length items) f
    /\ localStorage f = localStorage w /\ tasks f = tasks w /\ log f = log w
    /\ isDrawing f = isDrawing w /\ jsPDFLoaded f = jsPDFLoaded w.
Proof.
  intros (Hcb & Hcanvas & Hdate) Hparent Hsum Hinert.
  unfold finishConversion.
  rewrite (initSignatureCanvas_built (document w) parent a cs before after
             items Hparent Hsum Hinert w Hcanvas).
  eexists. split; [reflexivity|]. split; [|by repeat split].
  unfold freshForm. cbn [document withDocument].
  split; [by apply (form_states _ _ _ cs)|].
  split; [by apply (form_ownParents _ _ _ cs)|].
  split; [by apply (form_markersAgree _ _ _ cs)|].
  destruct (form_date (document w) parent a cs before after items
              Hparent Hsum Hinert Hdate) as [Hget Hvalue].
  split; [eexists; apply Hget|]. split; [apply Hvalue|].
  eexists (Context2d _ (lit "#000") 2 (lit "round") (lit "round")).
  split; [reflexivity|]. split; [reflexivity|].
  by apply (form_canvas _ _ _ cs).
Qed.

End CurrentForm.

(** X18.  On a page that has no form yet and on which the current builder
    finds items whose text holds no form control, the builder makes a fresh
    form with one checkbox for each item and then calls
    [loadChecklistState] on it.  Storage, queued callbacks and messages are
    as before the call; without a usable stored value the fresh form is the
    result. *)
Theorem Current_builds_a_fresh_form `{Host} (w : world)
    (item : jsstring) (items : list jsstring) :
  noForm (document w) ->
  currentItems (document w) = item :: items ->
  Forall (fun item => forallb inertNode (parseFragment item) = true) (item :: items) ->
  exists f : world,
    Current.convertChecklistToInteractive w = loadChecklistState f
    /\ freshForm (S (length items)) f
    /\ localStorage f = localStorage w /\ tasks f = tasks w /\ log f = log w
    /\ isDrawing f = isDrawing w /\ jsPDFLoaded f = jsPDFLoaded w
    /\ (storedState w = None -> Current.convertChecklistToInteractive w = f).
Proof.
  intros Hnone Hfound Hinert.
  destruct (Current_convert_items w item items Hfound)
    as (parent & a & cs & before & after & Hparent & Hsum & ->).
  destruct (insertion_builds_fresh_form w parent a cs before after (item :: items)
              Hnone Hparent Hsum Hinert)
    as (f & -> & Hfresh & Hstore & Htasks & Hlog & Hdrawing & Hlib).
  exists f. repeat (split; [done|]).
  intros Hstate. apply storedState_None_load. unfold storedState in *.
  by rewrite Hstore.
Qed.

Lemma Current_builds_a_fresh_form_example :
  exists f : world,
    @Current.convertChecklistToInteractive Examples.host Examples.firstVisit
    = @loadChecklistState Examples.host f
    /\ @freshForm Examples.host 3 f
    /\ localStorage f = Some ∅ /\ tasks f = [] /\ log f = []
    /\ isDrawing f = false /\ jsPDFLoaded f = false
    /\ (@storedState Examples.host Examples.firstVisit = None ->
        @Current.convertChecklistToInteractive Examples.host Examples.firstVisit = f).
Proof.
  apply (@Current_builds_a_fresh_form Examples.host Examples.firstVisit
           (lit "Read the lab manual from start to finish.")
           [lit "Meet with your advisor to set goals.";
            lit "Set up your computing environment."]).
  - repeat split; reflexivity.
  - vm_compute. reflexivity.
  - repeat constructor.
Defined.

(** ** A saved form after the next page load *)

(** [loadChecklistState], with the image load it starts, on a fresh form
    over a stored state that [saveChecklistState] wrote. *)
Lemma load_restores_saved `{Host} (f : world) (cbs : list bool) (date : jsstring)
    (b : bitmap) (ctx : context2d) (dateInput : path) :
  storedState f = Some (formState cbs date (toDataURL b)) ->
  wellFormed b -> toDataURL b <> [] -> isValidDateString date = true ->
  decodeImage (toDataURL b) = Some b ->
  (forall px, sourceOver px transparent = px) ->
  checkboxStates (document f) = replicate (length cbs) false ->
  getElementById (lit "signature-date") (document f) = Some dateInput ->
  signatureCanvas f = Some (ctxCanvas ctx) -> signatureCtx f = Some ctx ->
  canvasAt (document f) (ctxCanvas ctx) = Some (blankBitmap (width b) (height b)) ->
  tasks f = [] ->
  let f' := runTasks (loadChecklistState f) in
  checkboxStates (document f') = cbs
  /\ dateFieldValue (document f') = date
  /\ signatureBitmap f' = Some b.
Proof.
  intros Hstate Hwf Hurl Hdate Himg Hover Hfresh HdateInput Hcanvas Hctx Hblank Htasks f'.
  assert (Hd : date <> []).
  { intros Hd. rewrite Hd in Hdate. discriminate. }
  subst f'.
  rewrite (loadChecklistState_saved f cbs date (toDataURL b) (ctxCanvas ctx)
             Hstate Hd Hurl Hcanvas).
  cbv zeta.
  set (doc1 := restoreCheckboxes (JArr (map JBool cbs)) 0
                 (checklistCheckboxes (document f)) (document f)).
  set (doc2 := default doc1 (restoreDate (JStr date) doc1)).
  unfold runTasks, addTask, withDocument, withTasks. simpl. rewrite Htasks. simpl.
  rewrite Himg, Hctx. simpl.
  set (draw := fun a => withCanvas (option_map (drawImage b) (canvas a)) a).
  destruct (restoreDate_frame (JStr date) doc1) as (Hsel & Hchecked & _).
  fold doc2 in Hsel, Hchecked.
  split_and!.
  - rewrite checkboxStates_updateAttrs by done.
    assert (Hs2 : checkboxStates doc2 = checkboxStates doc1).
    { unfold checkboxStates. rewrite (sameSelectors_checkboxes _ _ Hsel).
      apply map_ext, Hchecked. }
    pose proof (checkboxStates_restoreCheckboxes (JArr (map JBool cbs)) (document f))
      as Hst.
    cbv zeta in Hst. destruct Hst as [_ Hstates]. fold doc1 in Hstates.
    rewrite Hs2, Hstates, Hfresh.
    rewrite <- (imap_restore_fresh cbs 0 []) at 2 by done.
    apply imap_ext. intros i c _. by rewrite entryTruthy_bools.
  - rewrite dateFieldValue_updateAttrs by done.
    apply (dateFieldValue_restoreDate date doc1 dateInput Hdate).
    rewrite (sameSelectors_getElementById _ (document f)); [done|].
    apply restoreCheckboxes_sameSelectors.
  - unfold signatureBitmap. simpl. rewrite Hcanvas.
    unfold draw. rewrite canvasAt_updateAttrs_withCanvas.
    unfold doc2. rewrite canvasAt_restoreDate.
    rewrite (canvasAt_field (document f) doc1).
    + rewrite Hblank. simpl. by rewrite drawImage_blank.
    + apply field_restoreCheckboxes; [done|]. intros a. apply canvas_classListAdd.
Qed.

(** X19.  What a user left in the form of the current script comes back on
    the next visit.  The state [u] was saved; the page is loaded again
    without a form, over the storage that was written, and the builder
    finds as many items as [u] has checkboxes.  After the builder and the
    image load it starts, the form shows every checkbox, the date and the
    signature of [u]. *)
Theorem next_visit_shows_the_saved_form `{Host} (visit u : world)
    (store : gmap jsstring jsstring) (b : bitmap)
    (item : jsstring) (items : list jsstring) :
  let checkboxes := checkboxStates (document u) in
  let date := dateFieldValue (document u) in
  let state := formState checkboxes date (toDataURL b) in
  (* the saved state: a signature of the size of the canvas, an ISO date *)
  signatureBitmap u = Some b -> wellFormed b -> width b = 400%nat -> height b = 150%nat ->
  toDataURL b <> [] -> isValidDateString date = true ->
  localStorage u = Some store ->
  (* the host reads back what it writes *)
  JSON_stringify state <> [] -> JSON_parse (JSON_stringify state) = Some state ->
  decodeImage (toDataURL b) = Some b ->
  (forall px, sourceOver px transparent = px) ->
  (* the next visit: the page without a form, the storage as it was written *)
  noForm (document visit) -> tasks visit = [] ->
  localStorage visit = localStorage (saveChecklistState u) ->
  currentItems (document visit) = item :: items ->
  Forall (fun item => forallb inertNode (parseFragment item) = true) (item :: items) ->
  length checkboxes = S (length items) ->
  let shown := runTasks (Current.convertChecklistToInteractive visit) in
  checkboxStates (document shown) = checkboxes
  /\ dateFieldValue (document shown) = date
  /\ signatureBitmap shown = Some b.
Proof.
  intros checkboxes date state Hb Hwf Hwidth Hheight Hurl Hdate Hstore Hjson1 Hjson2
         Himg Hover (Hcb & Hcanvas & HdateId) Htasks Hreload Hfound Hinert Hlen.
  destruct (Current_convert_items visit item items Hfound)
    as (parent & a & cs & before & after & Hparent & Hsum & ->).
  unfold finishConversion.
  rewrite (initSignatureCanvas_built (document visit) parent a cs before after
             (item :: items) Hparent Hsum Hinert visit Hcanvas).
  destruct (form_date (document visit) parent a cs before after (item :: items)
              Hparent Hsum Hinert HdateId) as [Hget _].
  eapply (load_restores_saved _ checkboxes date b
            (Context2d _ (lit "#000") 2 (lit "round") (lit "round"))); try done.
  - unfold storedState. cbn [localStorage withDocument withSignatureCtx withSignatureCanvas].
    rewrite Hreload, (saveChecklistState_storage u store b Hstore Hb), lookup_insert_eq.
    fold checkboxes date state.
    by destruct (JSON_stringify state) as [|c s].
  - cbn [document withDocument]. rewrite Hlen.
    by apply (form_states _ _ _ cs).
  - cbn [document withDocument ctxCanvas]. rewrite Hwidth, Hheight.
    by apply (form_canvas _ _ _ cs).
Qed.

Lemma next_visit_shows_the_saved_form_example :
  let shown := @runTasks onePictureHost
                 (@Current.convertChecklistToInteractive onePictureHost nextVisit) in
  checkboxStates (document shown) = [true; false; true]
  /\ dateFieldValue (document shown) = lit "2024-04-30"
  /\ signatureBitmap shown = Some topLine.
Proof.
  apply (@next_visit_shows_the_saved_form onePictureHost nextVisit leftBehind ∅ topLine
           (lit "Read the lab manual from start to finish.")
           [lit "Meet with your advisor to set goals.";
            lit "Set up your computing environment."]).
  - vm_compute. reflexivity.
  - split; [reflexivity|]. apply Forall_cons; split; [reflexivity|].
    apply Forall_replicate. reflexivity.
  - reflexivity.
  - reflexivity.
  - vm_compute. discriminate.
  - vm_compute. reflexivity.
  - vm_compute. reflexivity.
  - vm_compute. discriminate.
  - vm_compute. reflexivity.
  - reflexivity.
  - intros px. reflexivity.
  - repeat split; reflexivity.
  - reflexivity.
  - vm_compute. reflexivity.
  - vm_compute. reflexivity.
  - repeat constructor.
  - vm_compute. reflexivity.
Defined.

(** ** The checklist that createPDF writes *)

Lemma lookup_seq_map {A : Type} (g : nat -> A) (n i : nat) :
  map g (seq 0 n) !! i = if decide (i < n)%nat then Some (g i) else None.
Proof.
  change (map g (seq 0 n)) with (g <$> seq 0 n). rewrite list_lookup_fmap.
  case_decide.
  - by rewrite lookup_seq_lt.
  - by rewrite lookup_seq_ge by lia.
Qed.

Lemma imap_zip_items {A B C : Type} (F : nat -> path -> C) (G : B -> A -> C)
    (g : nat -> path) (c : nat -> B) (items : list A) :
  (forall i it, items !! i = Some it -> F i (g i) = G (c i) it) ->
  imap F (map g (seq 0 (length items))) = zip_with G (map c (seq 0 (length items))) items.
Proof.
  intros HF. apply list_eq. intros i.
  rewrite list_lookup_imap, lookup_zip_with, !lookup_seq_map.
  destruct (decide (i < length items)%nat) as [Hi|Hi]; [|done].
  destruct (lookup_lt_is_Some_2 items i Hi) as [it Hit]. rewrite Hit. simpl.
  by rewrite (HF i it Hit).
Qed.

(** X20.  The PDF of the current script lists two entries more than the
    checklist has items.  On the form that the builder made on a page
    without form controls, [createPDF] writes for every item its box,
    checked as the checkbox of the item is, and its text; after these it
    writes the captions of the signature pad and of the date field as two
    more entries, each with an empty box. *)
Theorem createPDF_lists_the_captions_as_items `{Host} (w : world)
    (item : jsstring) (items : list jsstring) :
  noForm (document w) -> checklistLabels (document w) = [] ->
  currentItems (document w) = item :: items ->
  Forall (fun item => forallb inertNode (parseFragment item) = true) (item :: items) ->
  let page := document (Current.convertChecklistToInteractive w) in
  length (checkboxStates page) = S (length items)
  /\ pdfEntries page
     = zip_with itemEntry (checkboxStates page) (item :: items)
       ++ [ (ballotBox, lit "Sign below (draw your signature):");
            (ballotBox, lit "Date:") ].
Proof.
  intros (Hcb & Hcanvas & Hdate) Hlabels Hfound Hinert.
  destruct (Current_convert_items w item items Hfound)
    as (parent & a & cs & before & after & Hparent & Hsum & ->).
  unfold finishConversion.
  rewrite (initSignatureCanvas_built (document w) parent a cs before after
             (item :: items) Hparent Hsum Hinert w Hcanvas).
  set (pre := parent ++ [length before]).
  set (n := length (item :: items)).
  set (f := withDocument _ _).
  set (page := document (loadChecklistState f)).
  pose proof (loadChecklistState_sameSelectors f) as Hsame. fold page in Hsame.
  assert (Hcbs : checklistCheckboxes page = map (fun i => pre ++ [S i; 0]%nat) (seq 0 n)).
  { rewrite (sameSelectors_checkboxes _ _ Hsame).
    by apply (form_checkboxes _ _ _ cs). }
  assert (Hlbs : checklistLabels page
                 = map (fun i => pre ++ [S i; 1]%nat) (seq 0 n)
                   ++ [pre ++ [S n; 1; 0]; pre ++ [S n; 2; 0]]%nat).
  { rewrite (sameSelectors_labels _ _ Hsame).
    by apply (form_labels _ _ _ cs). }
  assert (Htext : forall q, textContentAt page q = textContentAt (document f) q).
  { intros q. apply textContentAt_loadChecklistState. }
  unfold checkboxStates. rewrite Hcbs.
  split; [by rewrite !length_map, length_seq|].
  rewrite (pdfEntries_shape page _ _ Hcbs Hlbs).
  rewrite imap_app, List.map_map. f_equal.
  - apply imap_zip_items. intros i it Hit.
    rewrite lookup_seq_map. unfold itemEntry.
    destruct (decide (i < n)%nat) as [Hi|Hi].
    + cbn [fmap option_fmap option_map default]. f_equal. rewrite Htext. f_equal.
      apply (form_item_text (document w) parent a cs before after (item :: items)
               Hparent i it Hit).
    + destruct Hi. by eapply lookup_lt_Some.
  - rewrite length_map, length_seq. cbn [imap]. unfold compose.
    rewrite !lookup_seq_map, !Htext.
    destruct (decide (n + 0 < n)%nat) as [Hlt|_]; [lia|].
    destruct (decide (n + 1 < n)%nat) as [Hlt|_]; [lia|].
    destruct (form_other_texts (document w) parent a cs before after (item :: items)
                Hparent) as [Hsign Hcaption].
    subst f. cbn [document withDocument]. subst pre n. by rewrite Hsign, Hcaption.
Qed.

Lemma createPDF_lists_the_captions_as_items_example :
  let page := document (@Current.convertChecklistToInteractive Examples.host
                          Examples.firstVisit) in
  length (checkboxStates page) = 3%nat
  /\ pdfEntries page
     = zip_with (@itemEntry Examples.host) (checkboxStates page)
         [lit "Read the lab manual from start to finish.";
          lit "Meet with your advisor to set goals.";
          lit "Set up your computing environment."]
       ++ [ (ballotBox, lit "Sign below (draw your signature):");
            (ballotBox, lit "Date:") ].
Proof.
  apply (@createPDF_lists_the_captions_as_items Examples.host Examples.firstVisit
           (lit "Read the lab manual from start to finish.")
           [lit "Meet with your advisor to set goals.";
            lit "Set up your computing environment."]).
  - repeat split; reflexivity.
  - reflexivity.
  - vm_compute. reflexivity.
  - repeat constructor.
Defined.

(** ** The earlier builders on a page without a form *)

(** X21.  The two earlier versions of the builder make the same fresh
    form.  On a page that has no form yet, each of them, when it finds
    items whose markup holds no form control, makes a form with one
    unchecked checkbox for each item, today's date and a blank canvas, and
    then calls [loadChecklistState] on it; storage, queued callbacks and
    messages are as before the call. *)
Theorem earlier_versions_build_a_fresh_form `{Host} (w : world)
    (item : jsstring) (items : list jsstring) :
  noForm (document w) ->
  Forall (fun item => forallb inertNode (parseFragment item) = true) (item :: items) ->
  (paragraphItems (document w) = item :: items ->
   exists f : world,
     ParagraphVariant.convertChecklistToInteractive w = loadChecklistState f
     /\ freshForm (S (length items)) f
     /\ localStorage f = localStorage w /\ tasks f = tasks w /\ log f = log w
     /\ isDrawing f = isDrawing w /\ jsPDFLoaded f = jsPDFLoaded w)
  /\ (fullTextItems (document w) = item :: items ->
      exists f : world,
        FullTextVariant.convertChecklistToInteractive w = loadChecklistState f
        /\ freshForm (S (length items)) f
        /\ localStorage f = localStorage w /\ tasks f = tasks w /\ log f = log w
        /\ isDrawing f = isDrawing w /\ jsPDFLoaded f = jsPDFLoaded w).
Proof.
  intros Hnone Hinert. split; intros Hfound.
  - destruct (Paragraph_convert_items w item items Hfound)
      as (parent & a & cs & before & after & Hparent & Hsum & ->).
    by apply (insertion_builds_fresh_form w parent a cs before after (item :: items)).
  - destruct (FullText_convert_items w item items Hfound)
      as (parent & a & cs & before & after & Hparent & Hsum & ->).
    by apply (insertion_builds_fresh_form w parent a cs before after (item :: items)).
Qed.

Lemma earlier_versions_build_a_fresh_form_example :
  let w := World Examples.paragraphPage None None false (Some ∅) false [] [] in
  (exists f : world,
     @ParagraphVariant.convertChecklistToInteractive Examples.host w
     = @loadChecklistState Examples.host f
     /\ @freshForm Examples.host 2 f
     /\ localStorage f = Some ∅ /\ tasks f = [] /\ log f = []
     /\ isDrawing f = false /\ jsPDFLoaded f = false)
  /\ (exists f : world,
        @FullTextVariant.convertChecklistToInteractive Examples.host w
        = @loadChecklistState Examples.host f
        /\ @freshForm Examples.host 2 f
        /\ localStorage f = Some ∅ /\ tasks f = [] /\ log f = []
        /\ isDrawing f = false /\ jsPDFLoaded f = false).
Proof.
  intros w.
  destruct (@earlier_versions_build_a_fresh_form Examples.host w
              (lit "Read the lab manual from start to finish.")
              [lit "Meet with your advisor to set goals."]) as [Hparagraph HfullText].
  - repeat split; reflexivity.
  - repeat constructor.
  - split.
    + apply Hparagraph. vm_compute. reflexivity.
    + apply HfullText. vm_compute. reflexivity.
Defined.
